(** * The repository checker of restic ([checker/checker.go])

    A shallow embedding of the integrity checker: the checker state and its
    maps, the index loader, the pack verifier, the three-stage tree pipeline
    of [Structure], [checkTree] and [UnusedBlobs], followed by the properties
    of these definitions.

    Conventions.
    - A [backend.ID] is a 32-byte array that the checker only compares and
      uses as a map key; it is represented by the number its bytes spell.
    - A Go [map[backend.ID]struct{}] is a [gset ID], a [map[backend.ID]uint]
      a [gmap ID N] read with the zero default of Go ([refcount]).
    - [uint] is the 64-bit unsigned integer of the usual build targets; the
      increment wraps around.
    - A pointer is a location of an explicit heap of ID cells, so that two
      pointers to one variable alias.
    - The order in which Go ranges over a map is not fixed; a function that
      ranges over a map takes the order as an argument.
    - Goroutines that talk over unbuffered channels are a transition system
      whose actions are the rendezvous and the critical sections. *)

From stdpp Require Import gmap strings list fin_maps pretty.

Open Scope N_scope.

(** ** Identifiers, counters, errors *)

Abbreviation ID := N (only parsing).

(** The zero value [backend.ID{}]. *)
Definition zeroID : ID := 0.

Definition uintBits : N := 64.
Definition uintModulus : N := 2 ^ uintBits.

(** [x++] on a [uint]. *)
Definition uint_incr (x : N) : N := (x + 1) mod uintModulus.

(** [m[id]] on a [map[backend.ID]uint]: a missing key reads as 0. *)
Definition refcount (M : gmap ID N) (id : ID) : N := default 0 (M !! id).

(** [m[id]++]. *)
Definition refs_incr (M : gmap ID N) (id : ID) : gmap ID N :=
  <[id := uint_incr (refcount M id)]> M.

(** Heap cells that hold a [backend.ID]; [*backend.ID] is a location. *)
Definition loc := nat.
Definition heap := list ID.

Definition alloc (h : heap) (v : ID) : loc * heap := (length h, h ++ [v]).
Definition store (h : heap) (l : loc) (v : ID) : heap := <[l := v]> h.
Definition deref (h : heap) (l : loc) : option ID := h !! l.

(** Values of the Go interface [error] that the checker builds or compares:
    [errors.New]/[fmt.Errorf] strings, the sentinel
    [repository.ErrOldIndexFormat], and the struct types [PackError] and
    [Error] of this file. *)
Inductive error : Type :=
| errorString (msg : string)
| ErrOldIndexFormat
| PackError (ID : ID) (Orphaned : bool) (Err : error)
| Error (TreeID : option loc) (BlobID : option loc) (Err : error).

Definition error_eq_dec (x y : error) : {x = y} + {x <> y}.
Proof.
  revert y; induction x as [m | | i o e IH | t b e IH]; intros [m' | | i' o' e' | t' b' e'];
    try (right; discriminate).
  - destruct (decide (m = m')) as [->|]; [left; reflexivity | right; congruence].
  - left; reflexivity.
  - destruct (decide (i = i')) as [->|]; [| right; congruence].
    destruct (decide (o = o')) as [->|]; [| right; congruence].
    destruct (IH e') as [->|]; [left; reflexivity | right; congruence].
  - destruct (decide (t = t')) as [->|]; [| right; congruence].
    destruct (decide (b = b')) as [->|]; [| right; congruence].
    destruct (IH e') as [->|]; [left; reflexivity | right; congruence].
Defined.

#[global] Instance error_eq_decision : EqDecision error := error_eq_dec.

(** [TreeError{ID, Errors}]. *)
Record TreeError := { te_ID : ID; te_Errors : list error }.

(** The outcome of code that may dereference a nil pointer. *)
Inductive result (A : Type) : Type :=
| Ok (a : A)
| Panic.
Arguments Ok {A} a.
Arguments Panic {A}.

(** ** Trees *)

(** [restic.Node], the fields the checker reads. *)
Record Node := {
  node_Type : string;
  node_Content : list ID;
  node_Subtree : option ID;
}.

Record Tree := { Nodes : list Node }.

(** Modelled from the spec: [Tree.Subtrees] is declared in package [restic],
    outside these sources. "[tree.subtrees()] -> ordered sequence of subtree
    ContentIDs from all dir nodes." *)
Definition Subtrees (t : Tree) : list ID :=
  omap (fun n => if String.eqb (node_Type n) "dir" then node_Subtree n else None)
       (Nodes t).

(** ** Indexes *)

Inductive BlobKind := KindData | KindTree.

(** Modelled from the spec: the type of the entries [Index.Each] yields is
    declared outside these sources. "IndexEntry: { blob_id, pack_id, kind,
    offset, length }"; the checker reads [blob.ID] and [blob.PackID]. *)
Record IndexEntry := {
  blob_id : ID;
  pack_id : ID;
  kind : BlobKind;
  offset : N;
  length_ : N;
}.

(** Modelled from the spec: [repository.Index] is declared outside these
    sources. "An in-memory collection of IndexEntry supporting iteration and
    merge into another Index." *)
Definition Index := list IndexEntry.

(** Modelled from the spec: [masterIndex.Merge(res.Index)], "the merge of
    every loaded Index". *)
Definition Index_Merge (master other : Index) : Index := master ++ other.

(** ** The checker state *)

Record Checker := {
  packs : gset ID;
  blobs : gset ID;
  blobRefs : gmap ID N;
  indexes : gmap ID Index;
  orphanedPacks : list ID;
  masterIndex : Index;
}.

Definition New : Checker :=
  {| packs := ∅; blobs := ∅; blobRefs := ∅; indexes := ∅;
     orphanedPacks := []; masterIndex := [] |}.

Definition set_blobRefs (c : Checker) (M : gmap ID N) : Checker :=
  {| packs := packs c; blobs := blobs c; blobRefs := M; indexes := indexes c;
     orphanedPacks := orphanedPacks c; masterIndex := masterIndex c |}.

(** ** checkTree *)

(** The first loop of [checkTree]: the content of file nodes is collected,
    a dir node without subtree is an error that names the node's index. *)
Fixpoint checkTree_nodes (tid : loc) (i : nat) (nodes : list Node)
    (bs : list ID) (errs : list error) : list ID * list error :=
  match nodes with
  | [] => (bs, errs)
  | node :: rest =>
      if String.eqb (node_Type node) "file" then
        checkTree_nodes tid (S i) rest (bs ++ node_Content node) errs
      else if String.eqb (node_Type node) "dir" then
        match node_Subtree node with
        | None =>
            checkTree_nodes tid (S i) rest bs
              (errs ++ [Error (Some tid) None
                          (errorString ("node " +:+ pretty i +:+
                                        " is dir but has no subtree"))])
        | Some _ => checkTree_nodes tid (S i) rest bs errs
        end
      else checkTree_nodes tid (S i) rest bs errs
  end.

(** The state of a running [checkTree]: the cell of the parameter [id], the
    cell of the loop variable [blobID], the blobs still to visit and the
    errors so far. *)
Record checkFrame := {
  cf_id : ID;
  cf_tid : loc;
  cf_bid : loc;
  cf_todo : list ID;
  cf_errs : list error;
}.

(** Entry of [checkTree] up to the second loop. [&id] and [&blobID] make both
    variables heap cells; [blobID] is one variable for the whole loop. *)
Definition checkTree_enter (h : heap) (id : ID) (tree : option Tree)
    : result (heap * checkFrame) :=
  match tree with
  | None => Panic
  | Some t =>
      let '(tid, h1) := alloc h id in
      let '(bs, errs) := checkTree_nodes tid 0 (Nodes t) [] [] in
      let '(bid, h2) := alloc h1 zeroID in
      Ok (h2, {| cf_id := id; cf_tid := tid; cf_bid := bid;
                 cf_todo := bs; cf_errs := errs |})
  end.

(** One iteration of the second loop: the loop variable takes the next blob,
    its count is incremented under the mutex, then [c.blobs] is consulted. *)
Definition checkTree_blob (c : Checker) (h : heap) (f : checkFrame) (blobID : ID)
    (rest : list ID) : Checker * heap * checkFrame :=
  let h' := store h (cf_bid f) blobID in
  let c' := set_blobRefs c (refs_incr (blobRefs c) blobID) in
  let errs' :=
    if decide (blobID ∈ blobs c) then cf_errs f
    else cf_errs f ++ [Error (Some (cf_tid f)) (Some (cf_bid f))
                         (errorString "not found in index")] in
  (c', h', {| cf_id := cf_id f; cf_tid := cf_tid f; cf_bid := cf_bid f;
              cf_todo := rest; cf_errs := errs' |}).

Fixpoint checkTree_loop (c : Checker) (h : heap) (f : checkFrame) (bs : list ID)
    : Checker * heap * checkFrame :=
  match bs with
  | [] => (c, h, f)
  | b :: rest =>
      let '(c', h', f') := checkTree_blob c h f b rest in
      checkTree_loop c' h' f' rest
  end.

(** [checkTree] run without interruption. *)
Definition checkTree (c : Checker) (h : heap) (id : ID) (tree : option Tree)
    : result (Checker * heap * list error) :=
  match checkTree_enter h id tree with
  | Panic => Panic
  | Ok (h1, f) =>
      let '(c', h', f') := checkTree_loop c h1 f (cf_todo f) in
      Ok (c', h', cf_errs f')
  end.

Definition error_BlobID_ptr (e : error) : option loc :=
  match e with
  | Error _ b _ => b
  | _ => None
  end.

(** The blob an [Error] names once its pointer is followed. *)
Definition error_BlobID (h : heap) (e : error) : option ID :=
  match e with
  | Error _ (Some l) _ => deref h l
  | _ => None
  end.

Definition error_TreeID (h : heap) (e : error) : option ID :=
  match e with
  | Error (Some l) _ _ => deref h l
  | _ => None
  end.

(** ** UnusedBlobs *)

(** [order] is the order in which the range over [c.blobs] yields its keys. *)
Definition UnusedBlobs (order : list ID) (c : Checker) : list ID :=
  filter (fun id => refcount (blobRefs c) id = 0) order.

(** ** LoadIndex *)

Definition defaultParallelism : nat := 40.

(** What a worker sends over [indexCh]. *)
Record indexRes := { res_Index : Index; res_ID : string }.

(** The calls a [LoadIndex] worker makes, in program order. *)
Inductive event : Type :=
| EvLoad (s : string)
| EvConvert (id : ID)
| EvSend (res : indexRes).

Section LoadIndexWorker.
(** The repository and the index codec are outside these sources and are
    taken as they are used: [R] is the state of the repository,
    [ConvertIndex] changes it (it writes the new index file and deletes the
    old one), a load may observe it. *)
Context {R : Type}.
Variable IDString : ID -> string.
Variable LoadIndexWithDecoder : R -> string -> R * (Index + error).
Variable ConvertIndex : R -> ID -> R * (ID + error).

(** Repository state and call log threaded through the worker. *)
Definition W (A : Type) : Type := R -> list event -> R * list event * A.

Definition ret {A} (a : A) : W A := fun r log => (r, log, a).
Definition bind {A B} (m : W A) (k : A -> W B) : W B :=
  fun r log => let '(r', log', a) := m r log in k a r' log'.

Definition load (id : ID) : W (Index + error) :=
  fun r log =>
    let '(r', res) := LoadIndexWithDecoder r (IDString id) in
    (r', log ++ [EvLoad (IDString id)], res).

Definition convert (id : ID) : W (ID + error) :=
  fun r log =>
    let '(r', res) := ConvertIndex r id in
    (r', log ++ [EvConvert id], res).

(** [select { case indexCh <- res: case <-done: }]; [cancelled] tells that
    the second case is taken. *)
Definition send (cancelled : bool) (res : indexRes) : W unit :=
  fun r log => (r, if cancelled then log else log ++ [EvSend res], tt).

(** The second half of the worker: [if err != nil { return err }], then the
    send. *)
Definition worker_finish (cancelled : bool) (id : ID) (res : Index + error)
    : W (option error) :=
  match res with
  | inr err => ret (Some err)
  | inl idx =>
      bind (send cancelled {| res_Index := idx; res_ID := IDString id |})
           (fun _ => ret None)
  end.

Definition worker (cancelled : bool) (id : ID) : W (option error) :=
  bind (load id) (fun res =>
    match res with
    | inr ErrOldIndexFormat =>
        bind (convert id) (fun cres =>
          match cres with
          | inr err => ret (Some err)
          | inl id' =>
              bind (load id') (fun res' => worker_finish cancelled id' res')
          end)
    | _ => worker_finish cancelled id res
    end).
End LoadIndexWorker.

(** What a call log holds of each kind. *)
Definition loads (log : list event) : list string :=
  omap (fun e => match e with EvLoad s => Some s | _ => None end) log.

Definition converts (log : list event) : list ID :=
  omap (fun e => match e with EvConvert id => Some id | _ => None end) log.

Definition sends (log : list event) : list indexRes :=
  omap (fun e => match e with EvSend res => Some res | _ => None end) log.

Definition set_index (c : Checker) (id : ID) (idx : Index) : Checker :=
  {| packs := packs c; blobs := blobs c; blobRefs := blobRefs c;
     indexes := <[id := idx]> (indexes c);
     orphanedPacks := orphanedPacks c;
     masterIndex := Index_Merge (masterIndex c) idx |}.

(** The body of [for blob := range res.Index.Each(done)]. *)
Definition add_blob (c : Checker) (blob : IndexEntry) : Checker :=
  {| packs := {[pack_id blob]} ∪ packs c;
     blobs := {[blob_id blob]} ∪ blobs c;
     blobRefs := <[blob_id blob := 0]> (blobRefs c);
     indexes := indexes c;
     orphanedPacks := orphanedPacks c;
     masterIndex := masterIndex c |}.

Definition process_index (c : Checker) (id : ID) (idx : Index) : Checker :=
  foldl add_blob (set_index c id idx) idx.

Section LoadIndex.
Variable ParseID : string -> ID + error.

(** [for res := range indexCh]: [delivered] is what the workers sent, in
    the order it was received. A result whose ID does not parse ends the
    function with that error. *)
Fixpoint LoadIndex_consume (c : Checker) (delivered : list indexRes)
    : Checker * option error :=
  match delivered with
  | [] => (c, None)
  | res :: rest =>
      match ParseID (res_ID res) with
      | inr err => (c, Some err)
      | inl id => LoadIndex_consume (process_index c id (res_Index res)) rest
      end
  end.

(** [perr] is the error [FilesInParallel] returned to the loading
    goroutine. [c.repo.SetIndex(c.masterIndex)] acts on the repository and
    leaves the checker as it is. *)
Definition LoadIndex (c : Checker) (delivered : list indexRes)
    (perr : option error) : Checker * option error :=
  match LoadIndex_consume c delivered with
  | (c', Some err) => (c', Some err)
  | (c', None) => (c', perr)
  end.
End LoadIndex.

(** All entries of the delivered indexes. *)
Definition all_entries (delivered : list indexRes) : list IndexEntry :=
  concat (map res_Index delivered).

(** ** Packs *)

Section Packs.
(** [repo.Backend().Test(backend.Data, id.String())]. *)
Variable Test : ID -> bool * option error.

(** The body of the loop of [packIDTester] up to its [select]. *)
Definition packIDTester_check (id : ID) : option error :=
  let '(ok, err) := Test id in
  match err with
  | Some e => Some (PackError id false e)
  | None =>
      if ok then None
      else Some (PackError id false (errorString "does not exist"))
  end.

(** The pool of [packIDTester] workers fed by [IDChan <- id]. [ids] are the
    IDs in the order the workers take them, [live] the workers that have
    not returned, [done k] tells that the [k]-th [select] of the run takes
    its [<-done] case. With no worker left the send on [IDChan] blocks for
    ever: [None]. The result is the next [select] number, the errors sent
    to [errChan] and the IDs probed. *)
Fixpoint Packs_workers (done : nat -> bool) (k : nat) (live : nat)
    (ids : list ID) : option (nat * list error * list ID) :=
  match ids with
  | [] => Some (k, [], [])
  | id :: rest =>
      match live with
      | O => None
      | S live' =>
          match packIDTester_check id with
          | None =>
              '(k', errs, probed) ← Packs_workers done k live rest;
              Some (k', errs, id :: probed)
          | Some err =>
              if done k then
                '(k', errs, probed) ← Packs_workers done (S k) live' rest;
                Some (k', errs, id :: probed)
              else
                '(k', errs, probed) ← Packs_workers done (S k) live rest;
                Some (k', err :: errs, id :: probed)
          end
      end
  end.

Definition orphan_error (id : ID) : error :=
  PackError id true (errorString "not referenced in any index").

(** [for id := range c.repo.List(backend.Data, done)]. *)
Fixpoint Packs_orphans (done : nat -> bool) (k : nat) (seenPacks : gset ID)
    (listing : list ID) (orphaned : list ID) : list ID * list error :=
  match listing with
  | [] => (orphaned, [])
  | id :: rest =>
      if decide (id ∈ seenPacks) then
        Packs_orphans done k seenPacks rest orphaned
      else
        let orphaned' := orphaned ++ [id] in
        if done k then (orphaned', [])
        else
          let '(o, errs) := Packs_orphans done (S k) seenPacks rest orphaned' in
          (o, orphan_error id :: errs)
  end.

Definition set_orphanedPacks (c : Checker) (o : list ID) : Checker :=
  {| packs := packs c; blobs := blobs c; blobRefs := blobRefs c;
     indexes := indexes c; orphanedPacks := o; masterIndex := masterIndex c |}.

(** [order] is the order of the range over [c.packs], [listing] what
    [repo.List(backend.Data)] yields. The result is the checker, the errors
    sent to [errChan] in order, and the IDs probed. *)
Definition Packs (listing : list ID) (order : list ID) (done : nat -> bool)
    (c : Checker) : option (Checker * list error * list ID) :=
  '(k, errs1, probed) ← Packs_workers done 0 defaultParallelism order;
  let seenPacks : gset ID := list_to_set order in
  let '(o, errs2) := Packs_orphans done k seenPacks listing (orphanedPacks c) in
  Some (set_orphanedPacks c o, errs1 ++ errs2, probed).
End Packs.

(** The errors of a sink that are a [PackError] for pack [p]; those among
    them that report an orphan. *)
Definition is_PackError_for (p : ID) (e : error) : bool :=
  match e with
  | PackError i _ _ => bool_decide (i = p)
  | _ => false
  end.

Definition is_orphan_error_for (p : ID) (e : error) : bool :=
  match e with
  | PackError i true _ => bool_decide (i = p)
  | _ => false
  end.

Definition OrphanedPacks (c : Checker) : list ID := orphanedPacks c.

(** ** Structure: the pipeline of filter, tree loaders and tree checkers *)

(** [treeJob] with its embedded fields. *)
Record treeJob := {
  job_ID : ID;
  job_error : option error;
  job_Tree : option Tree;
}.

Definition zero_treeJob : treeJob :=
  {| job_ID := zeroID; job_error := None; job_Tree := None |}.

(** [x + d] on an [int] (64 bits, two's complement). *)
Definition int_add (x d : Z) : Z :=
  ((x + d + 2 ^ 63) mod 2 ^ 64 - 2 ^ 63)%Z.

(** The local variables of [filterTrees]; a channel variable is [true] when
    it holds its channel and [false] when it is nil. *)
Record filterState := {
  f_backlog : list ID;
  f_inCh : bool;
  f_outCh : bool;
  f_loadCh : bool;
  f_job : treeJob;
  f_nextTreeID : ID;
  f_outstanding : Z;
}.

(** A goroutine is at its [select] (or, for a checker, inside [checkTree])
    or has returned. When the filter has returned, [loaderChan] and [out] are
    closed. *)
Inductive filterProc := FRun (f : filterState) | FExit.
Inductive loaderProc := LWaitIn | LWaitOut (job : treeJob) | LExit.
Inductive checkerProc :=
| CWaitIn
| CCheck (f : checkFrame)
| CWaitOut (te : TreeError)
| CExit.

(** The top of the loop of [filterTrees], from the pop of the backlog to the
    [select]: [FExit] when the function returns. *)
Definition filter_top (f : filterState) : filterProc :=
  let f1 :=
    match f_loadCh f, f_backlog f with
    | false, id :: rest =>
        {| f_backlog := rest; f_inCh := f_inCh f; f_outCh := f_outCh f;
           f_loadCh := true; f_job := f_job f; f_nextTreeID := id;
           f_outstanding := f_outstanding f |}
    | _, _ => f
    end in
  if negb (f_loadCh f1) && negb (f_outCh f1) && (f_outstanding f1 =? 0)%Z
  then FExit else FRun f1.

(** [case loadCh <- nextTreeID]. *)
Definition filter_sent_id (f : filterState) : filterProc :=
  filter_top
    {| f_backlog := f_backlog f; f_inCh := f_inCh f; f_outCh := f_outCh f;
       f_loadCh := false; f_job := f_job f; f_nextTreeID := f_nextTreeID f;
       f_outstanding := int_add (f_outstanding f) 1 |}.

(** [case j, ok := <-inCh] with [ok]: [j.Tree.Subtrees()] dereferences
    [j.Tree]. *)
Definition filter_got_job (f : filterState) (j : treeJob) : result filterProc :=
  match job_Tree j with
  | None => Panic
  | Some t =>
      Ok (filter_top
            {| f_backlog := f_backlog f ++ Subtrees t; f_inCh := false;
               f_outCh := true; f_loadCh := f_loadCh f; f_job := j;
               f_nextTreeID := f_nextTreeID f;
               f_outstanding := int_add (f_outstanding f) (-1) |})
  end.

(** [case outCh <- job]. *)
Definition filter_sent_job (f : filterState) : filterProc :=
  filter_top
    {| f_backlog := f_backlog f; f_inCh := true; f_outCh := false;
       f_loadCh := f_loadCh f; f_job := f_job f;
       f_nextTreeID := f_nextTreeID f; f_outstanding := f_outstanding f |}.

(** The pipeline as a whole. The last three fields are history: the IDs of
    the jobs the checkers received, the content blobs [checkTree] counted and
    the IDs [checkTree] was called with. *)
Record state := {
  st_c : Checker;
  st_heap : heap;
  st_done : bool;
  st_filter : filterProc;
  st_loaders : list loaderProc;
  st_checkers : list checkerProc;
  st_received : list ID;
  st_counted : list ID;
  st_checked : list ID;
}.

(** What one goroutine does next, as the scheduler picks it. [treeErrChan]
    has no receiver in [Structure], so a checker never completes
    [outCh <- treeError]; the channel [in] of the filter is never closed. *)
Inductive action :=
| SendID (i : nat)        (* filter -> loader i over treeIDChan, then LoadTree *)
| SendJob (i : nat)       (* loader i -> filter over treeJobChan1 *)
| SendCheck (k : nat)     (* filter -> checker k over treeJobChan2 *)
| CheckBlob (k : nat)     (* one iteration of the blob loop in checker k *)
| CloseDone               (* the caller closes done *)
| FilterReturn            (* the filter takes <-done *)
| LoaderReturn (i : nat)  (* loader i takes <-done or finds its input closed *)
| CheckerReturn (k : nat) (* checker k takes <-done or finds its input closed *).

#[global] Instance action_eq_decision : EqDecision action.
Proof. solve_decision. Defined.

(** Where a checker stands once [checkTree] has no blob left: it offers its
    [TreeError] when there are errors and waits for input otherwise. *)
Definition checker_after (f : checkFrame) : checkerProc :=
  match cf_todo f with
  | [] =>
      match cf_errs f with
      | [] => CWaitIn
      | _ => CWaitOut {| te_ID := cf_id f; te_Errors := cf_errs f |}
      end
  | _ => CCheck f
  end.

Section Structure.
(** [restic.LoadTree(repo, id)]: the tree pointer and the error. *)
Variable LoadTree : ID -> option Tree * option error.

Definition loadTreeWorker_load (treeID : ID) : treeJob :=
  let '(tree, err) := LoadTree treeID in
  {| job_ID := treeID; job_error := err; job_Tree := tree |}.

Definition with_filter (s : state) (p : filterProc) : state :=
  {| st_c := st_c s; st_heap := st_heap s; st_done := st_done s;
     st_filter := p; st_loaders := st_loaders s;
     st_checkers := st_checkers s; st_received := st_received s;
     st_counted := st_counted s; st_checked := st_checked s |}.

Definition with_loader (s : state) (i : nat) (p : loaderProc) : state :=
  {| st_c := st_c s; st_heap := st_heap s; st_done := st_done s;
     st_filter := st_filter s; st_loaders := <[i := p]> (st_loaders s);
     st_checkers := st_checkers s; st_received := st_received s;
     st_counted := st_counted s; st_checked := st_checked s |}.

Definition with_checker (s : state) (k : nat) (p : checkerProc) : state :=
  {| st_c := st_c s; st_heap := st_heap s; st_done := st_done s;
     st_filter := st_filter s; st_loaders := st_loaders s;
     st_checkers := <[k := p]> (st_checkers s);
     st_received := st_received s; st_counted := st_counted s;
     st_checked := st_checked s |}.

(** The receive of a job in [checkTreeWorker]: the critical section tests
    and increments the count of the tree, then [checkTree] starts unless
    the tree counts as checked. *)
Definition checker_got_job (s : state) (k : nat) (job : treeJob) : result state :=
  let id := job_ID job in
  let M := blobRefs (st_c s) in
  let alreadyChecked := bool_decide (0 < refcount M id) in
  let c' := set_blobRefs (st_c s) (refs_incr M id) in
  if alreadyChecked then
    Ok {| st_c := c'; st_heap := st_heap s; st_done := st_done s;
          st_filter := st_filter s; st_loaders := st_loaders s;
          st_checkers := st_checkers s;
          st_received := st_received s ++ [id];
          st_counted := st_counted s; st_checked := st_checked s |}
  else
    match checkTree_enter (st_heap s) (job_ID job) (job_Tree job) with
    | Panic => Panic
    | Ok (h', f) =>
        Ok {| st_c := c'; st_heap := h'; st_done := st_done s;
              st_filter := st_filter s; st_loaders := st_loaders s;
              st_checkers := <[k := checker_after f]> (st_checkers s);
              st_received := st_received s ++ [id];
              st_counted := st_counted s;
              st_checked := st_checked s ++ [id] |}
    end.

(** One action; [None] when the action is not enabled in [s]. *)
Definition step (a : action) (s : state) : option (result state) :=
  match a with
  | SendID i =>
      match st_filter s, st_loaders s !! i with
      | FRun f, Some LWaitIn =>
          if f_loadCh f then
            Some (Ok (with_loader (with_filter s (filter_sent_id f)) i
                        (LWaitOut (loadTreeWorker_load (f_nextTreeID f)))))
          else None
      | _, _ => None
      end
  | SendJob i =>
      match st_filter s, st_loaders s !! i with
      | FRun f, Some (LWaitOut j) =>
          if f_inCh f then
            match filter_got_job f j with
            | Panic => Some Panic
            | Ok p => Some (Ok (with_loader (with_filter s p) i LWaitIn))
            end
          else None
      | _, _ => None
      end
  | SendCheck k =>
      match st_filter s, st_checkers s !! k with
      | FRun f, Some CWaitIn =>
          if f_outCh f then
            Some (checker_got_job (with_filter s (filter_sent_job f)) k (f_job f))
          else None
      | _, _ => None
      end
  | CheckBlob k =>
      match st_checkers s !! k with
      | Some (CCheck f) =>
          match cf_todo f with
          | b :: rest =>
              let '(c', h', f') := checkTree_blob (st_c s) (st_heap s) f b rest in
              Some (Ok {| st_c := c'; st_heap := h'; st_done := st_done s;
                          st_filter := st_filter s;
                          st_loaders := st_loaders s;
                          st_checkers := <[k := checker_after f']> (st_checkers s);
                          st_received := st_received s;
                          st_counted := st_counted s ++ [b];
                          st_checked := st_checked s |})
          | [] => None
          end
      | _ => None
      end
  | CloseDone =>
      Some (Ok {| st_c := st_c s; st_heap := st_heap s; st_done := true;
                  st_filter := st_filter s; st_loaders := st_loaders s;
                  st_checkers := st_checkers s;
                  st_received := st_received s; st_counted := st_counted s;
                  st_checked := st_checked s |})
  | FilterReturn =>
      match st_filter s with
      | FRun _ => if st_done s then Some (Ok (with_filter s FExit)) else None
      | FExit => None
      end
  | LoaderReturn i =>
      match st_loaders s !! i, st_filter s with
      | Some LWaitIn, FExit => Some (Ok (with_loader s i LExit))
      | Some LWaitIn, _ | Some (LWaitOut _), _ =>
          if st_done s then Some (Ok (with_loader s i LExit)) else None
      | _, _ => None
      end
  | CheckerReturn k =>
      match st_checkers s !! k, st_filter s with
      | Some CWaitIn, FExit => Some (Ok (with_checker s k CExit))
      | Some CWaitIn, _ | Some (CWaitOut _), _ =>
          if st_done s then Some (Ok (with_checker s k CExit)) else None
      | _, _ => None
      end
  end.

(** A schedule run from [s]: [None] when it asks for an action that is not
    enabled, [Some Panic] when the program panics on the way. *)
Fixpoint run (sched : list action) (s : state) : option (result state) :=
  match sched with
  | [] => Some (Ok s)
  | a :: rest =>
      match step a s with
      | Some (Ok s') => run rest s'
      | other => other
      end
  end.

(** [Structure] from the point where the roots of the snapshots are known:
    the workers are started, [filterTrees] runs up to its first [select]. *)
Definition Structure_init (c : Checker) (h : heap) (trees : list ID) : state :=
  {| st_c := c; st_heap := h; st_done := false;
     st_filter :=
       filter_top {| f_backlog := trees; f_inCh := true; f_outCh := false;
                     f_loadCh := false; f_job := zero_treeJob;
                     f_nextTreeID := zeroID; f_outstanding := 0 |};
     st_loaders := replicate defaultParallelism LWaitIn;
     st_checkers := replicate defaultParallelism CWaitIn;
     st_received := []; st_counted := []; st_checked := [] |}.

(** [filterTrees] has returned and [wg.Wait()] is over. *)
Definition Structure_returned (s : state) : bool :=
  match st_filter s with
  | FExit =>
      forallb (fun p => match p with LExit => true | _ => false end) (st_loaders s)
      && forallb (fun p => match p with CExit => true | _ => false end) (st_checkers s)
  | FRun _ => false
  end.
End Structure.

(** How often [t] occurs in a history. *)
Definition occurrences (t : ID) (l : list ID) : nat := length (filter (eq t) l).

(** What an action does to the counts and to the histories. *)
Inductive effect (s s' : state) : Prop :=
| effect_none :
    blobRefs (st_c s') = blobRefs (st_c s) ->
    st_received s' = st_received s -> st_counted s' = st_counted s ->
    st_checked s' = st_checked s -> effect s s'
| effect_skip (id : ID) :
    blobRefs (st_c s') = refs_incr (blobRefs (st_c s)) id ->
    st_received s' = st_received s ++ [id] -> st_counted s' = st_counted s ->
    st_checked s' = st_checked s ->
    0 < refcount (blobRefs (st_c s)) id -> effect s s'
| effect_check (id : ID) :
    blobRefs (st_c s') = refs_incr (blobRefs (st_c s)) id ->
    st_received s' = st_received s ++ [id] -> st_counted s' = st_counted s ->
    st_checked s' = st_checked s ++ [id] ->
    refcount (blobRefs (st_c s)) id = 0 -> effect s s'
| effect_blob (b : ID) :
    blobRefs (st_c s') = refs_incr (blobRefs (st_c s)) b ->
    st_received s' = st_received s -> st_counted s' = st_counted s ++ [b] ->
    st_checked s' = st_checked s -> effect s s'.

(** The count of every ID is the number of times it was received as a tree
    or counted as a content blob, up to the width of the counter. *)
Definition counts_agree (s : state) : Prop :=
  forall t,
    refcount (blobRefs (st_c s)) t
    = N.of_nat (occurrences t (st_received s) + occurrences t (st_counted s))
      mod uintModulus.

(** No tree was checked twice, and a checked tree was received. *)
Definition checked_once (s : state) : Prop :=
  NoDup (st_checked s) /\ forall t, t ∈ st_checked s -> t ∈ st_received s.

(** The number of increments so far. *)
Definition history_length (s : state) : nat :=
  (length (st_received s) + length (st_counted s))%nat.

(** A loader holds the job of a tree that failed to load. *)
Definition load_failed (s : state) : Prop :=
  exists i j, st_loaders s !! i = Some (LWaitOut j) /\ job_Tree j = None.

(** The filter still has [id] to hand to a loader. *)
Definition pending (id : ID) (f : filterState) : Prop :=
  id ∈ f_backlog f \/ (f_loadCh f = true /\ f_nextTreeID f = id).

(** The tree [id], which does not load, is on its way to a loader or has
    reached one. *)
Definition doomed (id : ID) (s : state) : Prop :=
  st_done s = false /\
  (load_failed s \/ exists f, st_filter s = FRun f /\ pending id f).

(** *** The walk

    The IDs that are on their way through the pipeline: in the backlog, in
    the hand of the filter for a loader ([armed_id]), with a loader
    ([loader_ids]), or in the hand of the filter for a checker
    ([slot_id]). *)
Definition loader_id (p : loaderProc) : list ID :=
  match p with
  | LWaitOut j => [job_ID j]
  | _ => []
  end.

Definition loader_ids (ls : list loaderProc) : list ID := flat_map loader_id ls.

Definition armed_id (f : filterState) : list ID :=
  if f_loadCh f then [f_nextTreeID f] else [].

Definition slot_id (f : filterState) : list ID :=
  if f_outCh f then [job_ID (f_job f)] else [].

Section Walk.
Variable LoadTree : ID -> option Tree * option error.

(** The subtrees the filter appends when the job of [id] comes back. *)
Definition children (id : ID) : list ID :=
  match (LoadTree id).1 with
  | Some t => Subtrees t
  | None => []
  end.

(** The job is what [LoadTree] gave for its ID. *)
Definition job_loaded (j : treeJob) : Prop :=
  job_Tree j = (LoadTree (job_ID j)).1.

(** While the filter runs, the roots and the subtrees of the jobs that came
    back are exactly the IDs on their way plus those the checkers received. *)
Definition filter_ok (trees : list ID) (f : filterState)
    (ls : list loaderProc) (received : list ID) : Prop :=
  f_inCh f = negb (f_outCh f) /\
  (f_outCh f = true -> job_loaded (f_job f)) /\
  f_outstanding f = Z.of_nat (length (loader_ids ls)) /\
  forall t,
    (occurrences t trees
     + occurrences t (flat_map children (slot_id f ++ received))
     = occurrences t (f_backlog f) + occurrences t (armed_id f)
       + occurrences t (slot_id f) + occurrences t (loader_ids ls)
       + occurrences t received)%nat.

(** Once the filter has returned, the checkers have received each root and
    each subtree of each received tree, once per occurrence. *)
Definition walk_done (trees : list ID) (received : list ID) : Prop :=
  forall t,
    (occurrences t received
     = occurrences t trees + occurrences t (flat_map children received))%nat.

Definition walk_inv (trees : list ID) (s : state) : Prop :=
  st_done s = false /\
  length (st_loaders s) = defaultParallelism /\
  (forall i j, st_loaders s !! i = Some (LWaitOut j) -> job_loaded j) /\
  match st_filter s with
  | FRun f => filter_ok trees f (st_loaders s) (st_received s)
  | FExit => walk_done trees (st_received s)
  end.
End Walk.

(** The content blobs of the file nodes of a tree, in order. *)
Definition file_blobs (nodes : list Node) : list ID :=
  flat_map (fun n => if String.eqb (node_Type n) "file" then node_Content n else [])
           nodes.

Section Counted.
Variable LoadTree : ID -> option Tree * option error.

(** [b] is a content blob of a file of a tree that loads. *)
Definition content_blob (b : ID) : Prop :=
  exists id t, (LoadTree id).1 = Some t /\ b ∈ file_blobs (Nodes t).

(** What [checkTree] counted, and what it still has to count, are content
    blobs of loaded trees. *)
Definition counted_inv (s : state) : Prop :=
  (forall b, b ∈ st_counted s -> content_blob b) /\
  (forall k fr, st_checkers s !! k = Some (CCheck fr) ->
                forall b, b ∈ cf_todo fr -> content_blob b).
End Counted.

(** A received tree was checked, unless its ID was counted as a content
    blob. *)
Definition received_checked (s : state) : Prop :=
  forall t, t ∈ st_received s -> t ∈ st_checked s \/ t ∈ st_counted s.

(** All the invariants of a run in which the caller does not close
    [done]. *)
Definition run_inv (LoadTree : ID -> option Tree * option error)
    (trees : list ID) (s : state) : Prop :=
  walk_inv LoadTree trees s /\ counted_inv LoadTree s /\
  counts_agree s /\ checked_once s /\ received_checked s.

(** ** Concrete repositories used in the examples *)

Definition ex_refs_checker : Checker :=
  {| packs := ∅; blobs := {[3; 5]}; blobRefs := <[3 := 0]> (<[5 := 2]> ∅);
     indexes := ∅; orphanedPacks := []; masterIndex := [] |}.

Definition file_node (content : list ID) : Node :=
  {| node_Type := "file"; node_Content := content; node_Subtree := None |}.

Definition dir_node (subtree : option ID) : Node :=
  {| node_Type := "dir"; node_Content := []; node_Subtree := subtree |}.

Definition entry (b p : ID) : IndexEntry :=
  {| blob_id := b; pack_id := p; kind := KindData; offset := 0; length_ := 0 |}.

(** An index that holds blob 2 only, and a tree 7 whose single file has the
    content blobs 1 and 2. *)
Definition ex_index2_checker : Checker := process_index New 100 [entry 2 50].


(** Three snapshots with the roots 11, 99 and 13; the tree 99 fails to
    load. *)
Definition ex_failing_LoadTree (id : ID) : option Tree * option error :=
  if decide (id = 99) then (None, Some (errorString "load failed"))
  else (Some {| Nodes := [] |}, None).

Definition ex_roots_checker : Checker :=
  process_index New 100 [entry 11 50; entry 99 50; entry 13 50].

(** One snapshot with root 11; its file has the content blob 30, which no
    index holds. The schedule walks the tree; the checker is then left with
    a [TreeError] that nobody receives, and leaves when [done] is closed. *)
Definition ex_unindexed_LoadTree (id : ID) : option Tree * option error :=
  if decide (id = 11) then (Some {| Nodes := [file_node [30]] |}, None)
  else (None, Some (errorString "load failed")).

Definition ex_unindexed_checker : Checker := process_index New 100 [entry 11 50].

Definition ex_unindexed_sched : list action :=
  [SendID 0; SendJob 0; SendCheck 0; CheckBlob 0]
  ++ map LoaderReturn (seq 0 defaultParallelism)
  ++ map CheckerReturn (seq 1 (defaultParallelism - 1))
  ++ [CloseDone; CheckerReturn 0].

(** A repository whose index file 1 is in the old format; the conversion
    writes it as index file 2. The state of the repository is the list of
    the index files in the new format. *)
Definition ex_IDString (id : ID) : string := pretty id.

Definition ex_Load (r : list string) (s : string) : list string * (Index + error) :=
  if decide (s ∈ r) then (r, inl [entry 2 50]) else (r, inr ErrOldIndexFormat).

Definition ex_Convert (r : list string) (id : ID) : list string * (ID + error) :=
  (ex_IDString (id + 1) :: r, inl (id + 1)).

(** Two index files, delivered in one order or the other. *)
Definition ex_ParseID (s : string) : ID + error :=
  if decide (s = "a")%string then inl 100
  else if decide (s = "b")%string then inl 101
  else inr (errorString "invalid length for hash").

Definition ex_resA : indexRes :=
  {| res_Index := [entry 1 50; entry 2 50]; res_ID := "a" |}.

Definition ex_resB : indexRes :=
  {| res_Index := [entry 2 51; entry 3 51]; res_ID := "b" |}.

(** The indexes name the packs 50 (present), 51 (absent) and 52 (the probe
    fails); the backend lists the packs 50, 52 and 60. *)
Definition ex_Test (id : ID) : bool * option error :=
  if decide (id = 50) then (true, None)
  else if decide (id = 52) then (false, Some (errorString "connection reset"))
  else (false, None).

Definition ex_packs_checker : Checker :=
  process_index New 100 [entry 1 50; entry 2 51; entry 3 52].

Definition ex_listing : list ID := [50; 52; 60].

Definition ex_order : list ID := elements (packs ex_packs_checker).

Definition never (k : nat) : bool := false.

(** Three snapshots with the roots 11, 12 and 13, each a directory whose
    only entry is the subtree 20; the tree 20 holds one file with the content
    blob 30. The schedule runs the pipeline with one loader and one checker
    until [Structure] returns. *)
Definition diamond_LoadTree (id : ID) : option Tree * option error :=
  if decide (id = 20) then (Some {| Nodes := [file_node [30]] |}, None)
  else if decide (id ∈ [11; 12; 13]) then (Some {| Nodes := [dir_node (Some 20)] |}, None)
  else (None, Some (errorString "load failed")).

Definition diamond_checker : Checker :=
  process_index New 100
    [entry 11 50; entry 12 50; entry 13 50; entry 20 50; entry 30 51].

Definition diamond_sched : list action :=
  [SendID 0; SendJob 0; SendCheck 0; SendID 0; SendJob 0; SendCheck 0;
   SendID 0; SendJob 0; SendCheck 0; SendID 0; SendJob 0; SendCheck 0;
   CheckBlob 0; SendID 0; SendJob 0; SendCheck 0; SendID 0; SendJob 0;
   SendCheck 0]
  ++ map LoaderReturn (seq 0 defaultParallelism)
  ++ map CheckerReturn (seq 0 defaultParallelism).

(** The same root twice, walked by one loader and one checker. *)
Definition twice_roots : list ID := [11; 11].

Definition twice_sched : list action :=
  [SendID 0; SendJob 0; SendCheck 0; SendID 0; SendJob 0; SendCheck 0].


(** ** Descriptions used by the further properties *)

(** A dir node that has no subtree. *)
Definition dir_without_subtree (n : Node) : bool :=
  String.eqb (node_Type n) "dir" &&
  match node_Subtree n with None => true | Some _ => false end.

(** The positions of the dir nodes without subtree, in order; [i] is the
    position of the first node of the list. *)
Fixpoint bad_dirs_from (i : nat) (nodes : list Node) : list nat :=
  match nodes with
  | [] => []
  | n :: rest =>
      if dir_without_subtree n then i :: bad_dirs_from (S i) rest
      else bad_dirs_from (S i) rest
  end.

Definition bad_dirs (nodes : list Node) : list nat := bad_dirs_from 0 nodes.

Definition dir_error (tid : loc) (i : nat) : error :=
  Error (Some tid) None
        (errorString ("node " +:+ pretty i +:+ " is dir but has no subtree")).

Definition blob_error (tid bid : loc) : error :=
  Error (Some tid) (Some bid) (errorString "not found in index").

(** The content blobs of a tree that the index does not hold, one per
    occurrence. *)
Definition missing_blobs (c : Checker) (nodes : list Node) : list ID :=
  filter (fun b => b ∉ blobs c) (file_blobs nodes).

(** A tree with a file (content blobs 1 and 2), a dir with subtree 9 and a
    dir without subtree; a tree with nothing to report. *)
Definition ex_mixed_tree : Tree :=
  {| Nodes := [file_node [1; 2]; dir_node (Some 9); dir_node None] |}.

Definition ex_sound_tree : Tree :=
  {| Nodes := [file_node [2; 2]; dir_node (Some 9)] |}.

(** The fields of the checker that only [LoadIndex] and [Packs] write. *)
Definition same_index_state (c c' : Checker) : Prop :=
  packs c' = packs c /\ blobs c' = blobs c /\ indexes c' = indexes c /\
  orphanedPacks c' = orphanedPacks c /\ masterIndex c' = masterIndex c.

(** Every job in the pipeline is what [LoadTree] gave for its ID: the jobs
    the loaders hold and the job the filter holds for a checker. *)
Definition jobs_loaded (LoadTree : ID -> option Tree * option error)
    (s : state) : Prop :=
  (forall i j, st_loaders s !! i = Some (LWaitOut j) -> job_loaded LoadTree j) /\
  (forall f, st_filter s = FRun f -> f_outCh f = true ->
             job_loaded LoadTree (f_job f)).

(** The state of the walk of the tree with the unindexed blob once
    [checkTree] has finished: checker 0 holds the [TreeError]. *)
Definition ex_unindexed_stuck : state :=
  match run ex_unindexed_LoadTree [SendID 0; SendJob 0; SendCheck 0; CheckBlob 0]
            (Structure_init ex_unindexed_checker [] [11]) with
  | Some (Ok s) => s
  | _ => Structure_init ex_unindexed_checker [] [11]
  end.

(** Every tree loads and is empty; every tree loads and has itself as its
    only subtree. *)
Definition ex_empty_LoadTree (id : ID) : option Tree * option error :=
  (Some {| Nodes := [] |}, None).

Definition ex_cyclic_LoadTree (id : ID) : option Tree * option error :=
  (Some {| Nodes := [dir_node (Some id)] |}, None).

(** How many elements of a list are in a set. *)
Definition count_in (S : gset ID) (l : list ID) : nat :=
  length (filter (fun x => x ∈ S) l).

(** *** A repository without faults *)

(** Every tree loads, no dir node lacks its subtree and the index holds
    every content blob. *)
Definition sound_repo (LoadTree : ID -> option Tree * option error)
    (c : Checker) : Prop :=
  forall id, exists t,
    (LoadTree id).1 = Some t /\
    (forall n, n ∈ Nodes t -> dir_without_subtree n = false) /\
    (forall b, b ∈ file_blobs (Nodes t) -> b ∈ blobs c).

Definition filter_running (s : state) : bool :=
  match st_filter s with
  | FRun _ => true
  | FExit => false
  end.

(** A checker of a walk without faults: it waits, or it is inside
    [checkTree] with blobs left to count, all in the index, and no error; it
    has returned only if the filter has. *)
Definition checker_ok (c : Checker) (running : bool) (p : checkerProc) : Prop :=
  match p with
  | CWaitIn => True
  | CCheck fr =>
      cf_todo fr <> [] /\ cf_errs fr = [] /\
      forall b, b ∈ cf_todo fr -> b ∈ blobs c
  | CWaitOut _ => False
  | CExit => running = false
  end.

(** A loader holds a job only while the filter runs and has returned only
    if the filter has. *)
Definition loader_ok (running : bool) (p : loaderProc) : Prop :=
  match p with
  | LWaitIn => True
  | LWaitOut _ => running = true
  | LExit => running = false
  end.

(** The filter is at its [select] with something to wait for. *)
Definition filter_live (f : filterState) : Prop :=
  f_loadCh f = true \/ f_outCh f = true \/ f_outstanding f <> 0%Z.

Definition sound_inv (c : Checker) (s : state) : Prop :=
  blobs (st_c s) = blobs c /\
  length (st_checkers s) = defaultParallelism /\
  Forall (checker_ok c (filter_running s)) (st_checkers s) /\
  Forall (loader_ok (filter_running s)) (st_loaders s) /\
  (forall f, st_filter s = FRun f -> filter_live f) /\
  (st_filter s = FExit -> loader_ids (st_loaders s) = []).

Definition is_CWaitIn (p : checkerProc) : bool :=
  match p with CWaitIn => true | _ => false end.

Definition is_LWaitOut (p : loaderProc) : bool :=
  match p with LWaitOut _ => true | _ => false end.

(** The consumer of [errChan] goes away after the first error: every later
    [select] takes its [<-done] case. *)
Definition after_first (k : nat) : bool :=
  match k with O => false | S _ => true end.

Definition always (k : nat) : bool := true.

(** One pack, 50, named by two index entries and present on the backend. *)
Definition ex_present_checker : Checker :=
  process_index New 100 [entry 1 50; entry 2 50].

(** Forty-one packs, none of them on the backend. *)
Definition ex_absent_Test (id : ID) : bool * option error := (false, None).

Definition ex_absent_checker : Checker :=
  process_index New 100
    ((fun n => entry (N.of_nat n) (100 + N.of_nat n)) <$> seq 0 (S defaultParallelism)).

(** The delivered results whose ID parses to [id]. *)
Definition delivered_under (ParseID : string -> ID + error) (id : ID)
    (delivered : list indexRes) : list indexRes :=
  filter (fun res => ParseID (res_ID res) = inl id) delivered.

(** ** Snapshots *)

(** [restic.Snapshot], of which the checker reads the field [Tree]. *)
Record Snapshot := { sn_Tree : option ID }.

Section Snapshots.
(** [id.String()], [backend.ParseID] and [restic.LoadSnapshot(repo, id)] are
    outside these sources; a load gives a snapshot or an error. *)
Variable IDString : ID -> string.
Variable ParseID : string -> ID + error.
Variable LoadSnapshot : ID -> Snapshot + error.

Definition loadTreeFromSnapshot (id : ID) : ID + error :=
  match LoadSnapshot id with
  | inr err => inr err
  | inl sn =>
      match sn_Tree sn with
      | None => inr (errorString ("snapshot " ++ IDString id ++ " has no tree"))
      | Some tree => inl tree
      end
  end.

(** The two slices of [loadSnapshotTreeIDs], each behind its lock. *)
Record snapshotLists := { trees_IDs : list ID; errs_errs : list error }.

(** One call of [snapshotWorker]: the lists after it and what it returns to
    the driver. *)
Definition snapshotWorker (strID : string) (st : snapshotLists)
    : snapshotLists * option error :=
  match ParseID strID with
  | inr err => (st, Some err)
  | inl id =>
      match loadTreeFromSnapshot id with
      | inr err =>
          ({| trees_IDs := trees_IDs st; errs_errs := errs_errs st ++ [err] |}, None)
      | inl treeID =>
          ({| trees_IDs := trees_IDs st ++ [treeID]; errs_errs := errs_errs st |}, None)
      end
  end.

(** [ran] lists the names [FilesInParallel] called the worker with, in the
    order in which the calls took their lock; [perr] is what the driver
    returned. *)
Definition loadSnapshotTreeIDs (ran : list string) (perr : option error)
    : list ID * list error :=
  let st := foldl (fun st strID => (snapshotWorker strID st).1)
                  {| trees_IDs := []; errs_errs := [] |} ran in
  (trees_IDs st,
   match perr with
   | Some err => errs_errs st ++ [err]
   | None => errs_errs st
   end).

(** The loop over [errs] at the head of [Structure]; [done k] tells that
    its [k]-th [select] takes the [<-done] case. The result is what was sent
    to [errChan] and whether the loop ended without [return]. *)
Fixpoint Structure_errs (done : nat -> bool) (k : nat) (errs : list error)
    : list error * bool :=
  match errs with
  | [] => ([], true)
  | err :: rest =>
      if done k then ([], false)
      else let '(sent, go) := Structure_errs done (S k) rest in (err :: sent, go)
  end.

(** [Structure] up to the call of [filterTrees]: the errors sent, and the
    pipeline in its first state when the workers were started. *)
Definition Structure_begin (c : Checker) (h : heap) (ran : list string)
    (perr : option error) (done : nat -> bool) : list error * option state :=
  let '(trees, errs) := loadSnapshotTreeIDs ran perr in
  let '(sent, go) := Structure_errs done 0 errs in
  (sent, if go then Some (Structure_init c h trees) else None).

(** The tree of the snapshot named [strID], when the name parses and the
    snapshot loads and has a tree. *)
Definition snapshot_tree (strID : string) : option ID :=
  match ParseID strID with
  | inl id => match loadTreeFromSnapshot id with inl t => Some t | inr _ => None end
  | inr _ => None
  end.

(** The error of the snapshot named [strID], when the name parses and the
    snapshot does not load or has no tree. *)
Definition snapshot_error (strID : string) : option error :=
  match ParseID strID with
  | inl id => match loadTreeFromSnapshot id with inl _ => None | inr e => Some e end
  | inr _ => None
  end.
End Snapshots.

(** [Collect]: [ch] is what the channel yields until it is closed. *)
Definition Collect (ch : list ID) : list ID :=
  foldl (fun list id => list ++ [id]) [] ch.

(** Three snapshot files: "a" has the tree 11, "b" has no tree, the third
    name does not parse. *)
Definition ex_LoadSnapshot (id : ID) : Snapshot + error :=
  if decide (id = 100) then inl {| sn_Tree := Some 11 |}
  else if decide (id = 101) then inl {| sn_Tree := None |}
  else inr (errorString "not found").

Definition ex_ran : list string := ["a"; "zz"; "b"; "a"]%string.

(** ** The texts of the errors *)

Section Messages.
(** [id.String()] and the text of [repository.ErrOldIndexFormat] are outside
    these sources. *)
Variable IDString : ID -> string.
Variable OldIndexFormatText : string.

(** [Error()] of an error value, the methods of [PackError] and [Error]
    included; the pointers of an [Error] are followed in [h]. [None] when a
    pointer is no cell of [h]. *)
Fixpoint error_Error (h : heap) (e : error) : option string :=
  match e with
  | errorString msg => Some msg
  | ErrOldIndexFormat => Some OldIndexFormatText
  | PackError id _ err =>
      text ← error_Error h err;
      Some ("pack " +:+ IDString id +:+ ": " +:+ text)
  | Error (Some t) (Some b) err =>
      tid ← deref h t;
      bid ← deref h b;
      text ← error_Error h err;
      Some (("tree " +:+ IDString tid) +:+ (", blob " +:+ IDString bid)
            +:+ (": " +:+ text))
  | Error (Some t) None err =>
      tid ← deref h t;
      text ← error_Error h err;
      Some ("tree " +:+ IDString tid +:+ ": " +:+ text)
  | Error None _ err => error_Error h err
  end.

End Messages.
(** * Properties *)

#[local] Set Warnings "-clear-no-such-hyp".

(** ** UnusedBlobs *)

Lemma UnusedBlobs_elem (order : list ID) (c : Checker) (b : ID) :
  b ∈ UnusedBlobs order c <-> b ∈ order /\ refcount (blobRefs c) b = 0.
Proof.
  unfold UnusedBlobs. rewrite list_elem_of_filter. tauto.
Qed.

(** C4. For every order in which the range over [blobs] may yield its keys,
    [UnusedBlobs] returns, without repetition, exactly the IDs that are in
    [blobs] and whose count in [blob_refs] reads 0. *)
Theorem UnusedBlobs_exact (order : list ID) (c : Checker) :
  order ≡ₚ elements (blobs c) ->
  NoDup (UnusedBlobs order c) /\
  forall b, b ∈ UnusedBlobs order c <-> b ∈ blobs c /\ refcount (blobRefs c) b = 0.
Proof.
  intros Hperm. split.
  - unfold UnusedBlobs. apply NoDup_filter. rewrite Hperm. apply NoDup_elements.
  - intros b. rewrite UnusedBlobs_elem, Hperm, elem_of_elements. tauto.
Qed.

Lemma UnusedBlobs_exact_witness :
  NoDup (UnusedBlobs [3; 5] ex_refs_checker) /\
  forall b, b ∈ UnusedBlobs [3; 5] ex_refs_checker <->
            b ∈ blobs ex_refs_checker /\ refcount (blobRefs ex_refs_checker) b = 0.
Proof.
  apply (UnusedBlobs_exact [3; 5] ex_refs_checker).
  vm_compute. apply perm_swap.
Defined.

(** ** checkTree: the blob pointer of its errors *)

Lemma checkTree_nodes_no_blob (tid : loc) (nodes : list Node) :
  forall i bs errs,
    Forall (fun e => error_BlobID_ptr e = None) errs ->
    Forall (fun e => error_BlobID_ptr e = None)
           (checkTree_nodes tid i nodes bs errs).2.
Proof.
  induction nodes as [| n rest IH]; intros i bs errs H; simpl; [exact H |].
  destruct (String.eqb (node_Type n) "file"); [apply IH, H |].
  destruct (String.eqb (node_Type n) "dir"); [| apply IH, H].
  destruct (node_Subtree n); [apply IH, H |].
  apply IH. apply Forall_app. split; [exact H |]. repeat constructor.
Qed.

Lemma length_store (h : heap) (l : loc) (v : ID) : length (store h l v) = length h.
Proof. unfold store. apply length_insert. Qed.

Lemma deref_store (h : heap) (l : loc) (v : ID) :
  (l < length h)%nat -> deref (store h l v) l = Some v.
Proof. intros Hl. unfold deref, store. apply list_lookup_insert_eq. exact Hl. Qed.

Lemma checkTree_loop_alias (bs : list ID) :
  forall c h f c' h' f',
    checkTree_loop c h f bs = (c', h', f') ->
    (cf_bid f < length h)%nat ->
    (bs = [] -> h' = h /\ f' = f) /\
    (bs <> [] -> deref h' (cf_bid f) = last bs) /\
    (forall e, e ∈ cf_errs f' ->
               e ∈ cf_errs f \/ (error_BlobID_ptr e = Some (cf_bid f) /\ bs <> [])).
Proof.
  induction bs as [| b rest IH]; intros c h f c' h' f' Hrun Hlen; simpl in Hrun.
  - injection Hrun as <- <- <-. split; [auto |]. split; [congruence | auto].
  - set (f1 := (checkTree_blob c h f b rest).2) in *.
    set (h1 := (checkTree_blob c h f b rest).1.2) in *.
    set (c1 := (checkTree_blob c h f b rest).1.1) in *.
    change (checkTree_loop c1 h1 f1 rest = (c', h', f')) in Hrun.
    assert (Hbid : cf_bid f1 = cf_bid f) by reflexivity.
    assert (Hlen1 : (cf_bid f1 < length h1)%nat).
    { rewrite Hbid. unfold h1. cbn [checkTree_blob fst snd].
      rewrite length_store. exact Hlen. }
    destruct (IH c1 h1 f1 c' h' f' Hrun Hlen1) as (Hnil & Hlast & Herrs).
    split; [discriminate |]. split.
    + intros _. destruct rest as [| b' rest'].
      * destruct (Hnil eq_refl) as [-> _]. unfold h1. cbn [checkTree_blob fst snd].
        apply deref_store. exact Hlen.
      * rewrite <- Hbid, Hlast by discriminate. reflexivity.
    + intros e He. destruct (Herrs e He) as [Hin | [Hp _]].
      * unfold f1 in Hin. simpl in Hin.
        destruct (decide (b ∈ blobs c)); [left; exact Hin |].
        apply elem_of_app in Hin as [Hin | Hin]; [left; exact Hin |].
        apply list_elem_of_singleton in Hin as ->. right. split; [reflexivity | discriminate].
      * right. split; [rewrite <- Hbid; exact Hp | discriminate].
Qed.

(** Every error of [checkTree] that names a blob names the same one: its
    pointer leads to the last content blob of the tree, whichever blob was
    missing. *)
Lemma checkTree_blob_errors_alias (c : Checker) (h : heap) (id : ID) (t : Tree)
    (h1 : heap) (f : checkFrame) (c' : Checker) (h' : heap) (errs : list error) :
  checkTree_enter h id (Some t) = Ok (h1, f) ->
  checkTree c h id (Some t) = Ok (c', h', errs) ->
  forall e, e ∈ errs ->
            error_BlobID_ptr e = None \/ error_BlobID h' e = last (cf_todo f).
Proof.
  intros Henter Hrun e He. unfold checkTree in Hrun. rewrite Henter in Hrun.
  destruct (checkTree_loop c h1 f (cf_todo f)) as [[c2 h2] f2] eqn:Hloop.
  injection Hrun as <- <- <-.
  unfold checkTree_enter, alloc in Henter.
  destruct (checkTree_nodes (length h) 0 (Nodes t) [] []) as [bs errs0] eqn:Hn.
  injection Henter as <- <-. cbn [cf_todo cf_bid cf_errs] in *.
  apply checkTree_loop_alias in Hloop as (_ & Hlast & Herrs).
  - cbn [cf_todo cf_bid cf_errs] in *.
    destruct (Herrs e He) as [Hin | [Hp Hne]].
    + left. pose proof (checkTree_nodes_no_blob (length h) (Nodes t) 0 [] []
                          (Forall_nil_2 _)) as Hall.
      rewrite Hn in Hall. simpl in Hall.
      rewrite Forall_forall in Hall. apply Hall, Hin.
    + right. rewrite <- (Hlast Hne). destruct e as [| | | tid [l |] E]; try discriminate.
      simpl in Hp. injection Hp as ->. reflexivity.
  - cbn [cf_bid]. rewrite !length_app. simpl. lia.
Qed.


(** ** LoadIndex: the old index format *)

(** C7. When the first load of an index answers with the old-format
    sentinel, the worker converts that index exactly once. If the conversion
    fails, the worker returns its error after the one load. Otherwise the
    worker loads exactly once more, under the ID the conversion returned; an
    error of that load, the old-format sentinel included, is returned and
    nothing is sent, and a successful load is sent unless the run is
    cancelled. *)
Theorem worker_old_format {R : Type} (IDString : ID -> string)
    (Load : R -> string -> R * (Index + error))
    (Convert : R -> ID -> R * (ID + error))
    (cancelled : bool) (id : ID) (r : R) :
  (Load r (IDString id)).2 = inr ErrOldIndexFormat ->
  let out := worker IDString Load Convert cancelled id r [] in
  let log := out.1.2 in
  let res := out.2 in
  let r1 := (Load r (IDString id)).1 in
  converts log = [id] /\
  match (Convert r1 id).2 with
  | inr err => res = Some err /\ loads log = [IDString id] /\ sends log = []
  | inl id' =>
      loads log = [IDString id; IDString id'] /\
      match (Load (Convert r1 id).1 (IDString id')).2 with
      | inr err => res = Some err /\ sends log = []
      | inl idx =>
          res = None /\
          sends log = if cancelled then []
                      else [{| res_Index := idx; res_ID := IDString id' |}]
      end
  end.
Proof.
  intros Hold. unfold worker, bind, load, convert, worker_finish, send, ret.
  destruct (Load r (IDString id)) as [r1 res1] eqn:E1. simpl in Hold. subst res1.
  simpl. destruct (Convert r1 id) as [r2 [id' | err]] eqn:E2; simpl.
  - destruct (Load r2 (IDString id')) as [r3 [idx | err]] eqn:E3; simpl.
    + destruct cancelled; simpl; auto.
    + auto.
  - auto.
Qed.

Lemma worker_old_format_witness :
  let out := worker ex_IDString ex_Load ex_Convert false 1 [] [] in
  converts out.1.2 = [1] /\
  loads out.1.2 = ["1"; "2"]%string /\
  out.2 = None /\
  sends out.1.2 = [{| res_Index := [entry 2 50]; res_ID := "2" |}].
Proof.
  pose proof (worker_old_format ex_IDString ex_Load ex_Convert false 1 []
                ltac:(vm_compute; reflexivity)) as H.
  vm_compute in H. vm_compute. tauto.
Defined.

(** ** LoadIndex: the consumer *)

Lemma foldl_add_blob_packs (idx : Index) (c : Checker) :
  packs (foldl add_blob c idx) = list_to_set (pack_id <$> idx) ∪ packs c.
Proof.
  revert c; induction idx as [| e idx IH]; intros c; simpl.
  - set_solver.
  - rewrite IH. simpl. set_solver.
Qed.

Lemma foldl_add_blob_blobs (idx : Index) (c : Checker) :
  blobs (foldl add_blob c idx) = list_to_set (blob_id <$> idx) ∪ blobs c.
Proof.
  revert c; induction idx as [| e idx IH]; intros c; simpl.
  - set_solver.
  - rewrite IH. simpl. set_solver.
Qed.
Lemma foldl_add_blob_blobRefs (idx : Index) (c : Checker) (b : ID) :
  blobRefs (foldl add_blob c idx) !! b
  = if decide (b ∈ blob_id <$> idx) then Some 0 else blobRefs c !! b.
Proof.
  revert c; induction idx as [| e idx IH]; intros c.
  - rewrite decide_False by (rewrite fmap_nil; apply not_elem_of_nil).
    reflexivity.
  - cbn [foldl]. rewrite IH, fmap_cons. cbn [blobRefs add_blob].
    destruct (decide (b ∈ blob_id <$> idx)) as [H1 | H1].
    + rewrite decide_True by (right; exact H1). reflexivity.
    + destruct (decide (b = blob_id e)) as [-> | Hne].
      * rewrite decide_True by left. apply lookup_insert_eq.
      * rewrite decide_False by (rewrite elem_of_cons; tauto).
        apply lookup_insert_ne. congruence.
Qed.

Lemma all_entries_cons res rest : all_entries (res :: rest) = res_Index res ++ all_entries rest.
Proof. reflexivity. Qed.

Lemma LoadIndex_consume_ok ParseID (delivered : list indexRes) (c c' : Checker) :
  LoadIndex_consume ParseID c delivered = (c', None) ->
  packs c' = list_to_set (pack_id <$> all_entries delivered) ∪ packs c /\
  blobs c' = list_to_set (blob_id <$> all_entries delivered) ∪ blobs c /\
  forall b, blobRefs c' !! b
            = if decide (b ∈ blob_id <$> all_entries delivered) then Some 0
              else blobRefs c !! b.
Proof.
  revert c; induction delivered as [| res rest IH]; intros c Hrun; cbn [LoadIndex_consume] in Hrun.
  - injection Hrun as <-. change (all_entries []) with (@nil IndexEntry).
    rewrite !fmap_nil.
    split; [set_solver |]. split; [set_solver |].
    intros b. rewrite decide_False by apply not_elem_of_nil. reflexivity.
  - destruct (ParseID (res_ID res)) as [id | err]; [| discriminate].
    apply IH in Hrun as (Hp & Hb & Hr).
    unfold process_index in Hp, Hb, Hr.
    rewrite foldl_add_blob_packs in Hp. rewrite foldl_add_blob_blobs in Hb.
    rewrite all_entries_cons, !fmap_app.
    split; [rewrite Hp; cbn [packs set_index]; set_solver |].
    split; [rewrite Hb; cbn [blobs set_index]; set_solver |].
    intros b. rewrite Hr, foldl_add_blob_blobRefs. cbn [blobRefs set_index].
    destruct (decide (b ∈ blob_id <$> all_entries rest)) as [H1 | H1].
    + rewrite decide_True by (apply elem_of_app; tauto). reflexivity.
    + destruct (decide (b ∈ blob_id <$> res_Index res)) as [H2 | H2].
      * rewrite decide_True by (apply elem_of_app; tauto). reflexivity.
      * rewrite decide_False by (rewrite elem_of_app; tauto). reflexivity.
Qed.

Lemma LoadIndex_ok ParseID (c c' : Checker) delivered perr :
  LoadIndex ParseID c delivered perr = (c', None) ->
  LoadIndex_consume ParseID c delivered = (c', None).
Proof.
  unfold LoadIndex. destruct (LoadIndex_consume ParseID c delivered) as [c1 [e |]].
  - discriminate.
  - intros H. injection H as -> _. reflexivity.
Qed.

Lemma elem_of_all_entries (delivered : list indexRes) (e : IndexEntry) :
  e ∈ all_entries delivered <-> exists res, res ∈ delivered /\ e ∈ res_Index res.
Proof.
  induction delivered as [| r rest IH].
  - split; [intros H; inversion H | intros (res & H & _); inversion H].
  - rewrite all_entries_cons, elem_of_app, IH. split.
    + intros [He | (res & Hres & He)].
      * exists r. split; [left | exact He].
      * exists res. split; [right; exact Hres | exact He].
    + intros (res & Hres & He). apply elem_of_cons in Hres as [-> | Hres].
      * left. exact He.
      * right. eauto.
Qed.

(** C8. After [LoadIndex] has returned without error on a new checker, every
    key of [blob_refs] is in [blobs] and maps to 0, every member of [blobs]
    is the blob ID of an entry of a delivered index, and every member of
    [packs] is the pack ID of an entry of a delivered index. *)
Theorem LoadIndex_invariants ParseID (delivered : list indexRes)
    (perr : option error) (c : Checker) :
  LoadIndex ParseID New delivered perr = (c, None) ->
  (forall b n, blobRefs c !! b = Some n -> b ∈ blobs c /\ n = 0) /\
  (forall b, b ∈ blobs c ->
             exists res e, res ∈ delivered /\ e ∈ res_Index res /\ blob_id e = b) /\
  (forall p, p ∈ packs c ->
             exists res e, res ∈ delivered /\ e ∈ res_Index res /\ pack_id e = p).
Proof.
  intros Hrun. apply LoadIndex_ok, LoadIndex_consume_ok in Hrun as (Hp & Hb & Hr).
  cbn [packs blobs blobRefs New] in Hp, Hb, Hr. split; [| split].
  - intros b n Hn. rewrite Hr in Hn.
    destruct (decide (b ∈ blob_id <$> all_entries delivered)) as [Hin | Hin].
    + injection Hn as <-. split; [| reflexivity]. rewrite Hb. set_solver.
    + rewrite lookup_empty in Hn. discriminate.
  - intros b Hin. rewrite Hb in Hin.
    apply elem_of_union in Hin as [Hin | Hin]; [| set_solver].
    apply elem_of_list_to_set, list_elem_of_fmap in Hin as (e & -> & He).
    apply elem_of_all_entries in He as (res & Hres & He). eauto.
  - intros p Hin. rewrite Hp in Hin.
    apply elem_of_union in Hin as [Hin | Hin]; [| set_solver].
    apply elem_of_list_to_set, list_elem_of_fmap in Hin as (e & -> & He).
    apply elem_of_all_entries in He as (res & Hres & He). eauto.
Qed.

Lemma LoadIndex_invariants_witness :
  let c := (LoadIndex ex_ParseID New [ex_resA; ex_resB] None).1 in
  (forall b n, blobRefs c !! b = Some n -> b ∈ blobs c /\ n = 0) /\
  (forall b, b ∈ blobs c ->
             exists res e, res ∈ [ex_resA; ex_resB] /\ e ∈ res_Index res /\ blob_id e = b) /\
  (forall p, p ∈ packs c ->
             exists res e, res ∈ [ex_resA; ex_resB] /\ e ∈ res_Index res /\ pack_id e = p).
Proof.
  apply (LoadIndex_invariants ex_ParseID [ex_resA; ex_resB] None).
  vm_compute. reflexivity.
Defined.

(** ** LoadIndex: running it again *)

Lemma elem_of_all_entries_fmap (delivered : list indexRes) (e : IndexEntry) :
  e ∈ all_entries delivered <-> exists idx, idx ∈ res_Index <$> delivered /\ e ∈ idx.
Proof.
  rewrite elem_of_all_entries. split.
  - intros (res & Hres & He). exists (res_Index res). split; [| exact He].
    apply list_elem_of_fmap. eauto.
  - intros (idx & Hidx & He). apply list_elem_of_fmap in Hidx as (res & -> & Hres).
    eauto.
Qed.

Lemma all_entries_perm (d1 d2 : list indexRes) (e : IndexEntry) :
  res_Index <$> d1 ≡ₚ res_Index <$> d2 ->
  e ∈ all_entries d1 <-> e ∈ all_entries d2.
Proof.
  intros Hperm. rewrite !elem_of_all_entries_fmap.
  split; intros (idx & Hidx & He); exists idx; split; try exact He.
  - rewrite <- Hperm. exact Hidx.
  - rewrite Hperm. exact Hidx.
Qed.

Lemma fmap_entries_perm {A} (f : IndexEntry -> A) (d1 d2 : list indexRes) (x : A) :
  res_Index <$> d1 ≡ₚ res_Index <$> d2 ->
  x ∈ f <$> all_entries d1 <-> x ∈ f <$> all_entries d2.
Proof.
  intros Hperm. rewrite !list_elem_of_fmap.
  split; intros (e & -> & He); exists e; split; try reflexivity.
  - apply (all_entries_perm d1 d2 e Hperm). exact He.
  - apply (all_entries_perm d1 d2 e Hperm). exact He.
Qed.

(** C9. Let the same indexes be delivered twice, in any two orders, and let
    both runs of [LoadIndex] return without error. Whether the second run
    works on the checker of the first run or on a new checker, it ends with
    the [packs], [blobs] and [blob_refs] of the first run, and every value of
    [blob_refs] is 0. *)
Theorem LoadIndex_rerun ParseID (d1 d2 : list indexRes) (p1 p2 : option error)
    (c1 c2 c2' : Checker) :
  res_Index <$> d1 ≡ₚ res_Index <$> d2 ->
  LoadIndex ParseID New d1 p1 = (c1, None) ->
  LoadIndex ParseID c1 d2 p2 = (c2, None) ->
  LoadIndex ParseID New d2 p2 = (c2', None) ->
  (packs c2 = packs c1 /\ blobs c2 = blobs c1 /\ blobRefs c2 = blobRefs c1) /\
  (packs c2' = packs c1 /\ blobs c2' = blobs c1 /\ blobRefs c2' = blobRefs c1) /\
  (forall b n, blobRefs c2 !! b = Some n -> n = 0).
Proof.
  intros Hperm H1 H2 H3.
  apply LoadIndex_ok, LoadIndex_consume_ok in H1 as (Hp1 & Hb1 & Hr1).
  apply LoadIndex_ok, LoadIndex_consume_ok in H2 as (Hp2 & Hb2 & Hr2).
  apply LoadIndex_ok, LoadIndex_consume_ok in H3 as (Hp3 & Hb3 & Hr3).
  cbn [packs blobs blobRefs New] in Hp1, Hb1, Hr1, Hp3, Hb3, Hr3.
  assert (HP : (list_to_set (pack_id <$> all_entries d2) : gset ID)
               = list_to_set (pack_id <$> all_entries d1)).
  { apply set_eq. intros x. rewrite !elem_of_list_to_set.
    symmetry. apply fmap_entries_perm, Hperm. }
  assert (HB : (list_to_set (blob_id <$> all_entries d2) : gset ID)
               = list_to_set (blob_id <$> all_entries d1)).
  { apply set_eq. intros x. rewrite !elem_of_list_to_set.
    symmetry. apply fmap_entries_perm, Hperm. }
  assert (HR : forall b, blobRefs c2 !! b = blobRefs c1 !! b).
  { intros b. rewrite Hr2, Hr1.
    destruct (decide (b ∈ blob_id <$> all_entries d2)) as [Hin | Hin].
    - rewrite decide_True by (apply (fmap_entries_perm blob_id d1 d2 b Hperm); exact Hin).
      reflexivity.
    - reflexivity. }
  split; [| split].
  - split; [rewrite Hp2, Hp1, HP; set_solver |].
    split; [rewrite Hb2, Hb1, HB; set_solver |].
    apply map_eq, HR.
  - split; [rewrite Hp3, Hp1, HP; reflexivity |].
    split; [rewrite Hb3, Hb1, HB; reflexivity |].
    apply map_eq. intros b. rewrite Hr3, Hr1.
    destruct (decide (b ∈ blob_id <$> all_entries d2)) as [Hin | Hin].
    + rewrite decide_True by (apply (fmap_entries_perm blob_id d1 d2 b Hperm); exact Hin).
      reflexivity.
    + rewrite decide_False; [reflexivity |].
      intros Hin'. apply Hin. apply (fmap_entries_perm blob_id d1 d2 b Hperm). exact Hin'.
  - intros b n Hn. rewrite HR, Hr1 in Hn.
    destruct (decide (b ∈ blob_id <$> all_entries d1)) as [Hin | Hin].
    + congruence.
    + rewrite lookup_empty in Hn. discriminate.
Qed.

Lemma LoadIndex_rerun_witness :
  let c1 := (LoadIndex ex_ParseID New [ex_resA; ex_resB] None).1 in
  let c2 := (LoadIndex ex_ParseID c1 [ex_resB; ex_resA] None).1 in
  let c2' := (LoadIndex ex_ParseID New [ex_resB; ex_resA] None).1 in
  (packs c2 = packs c1 /\ blobs c2 = blobs c1 /\ blobRefs c2 = blobRefs c1) /\
  (packs c2' = packs c1 /\ blobs c2' = blobs c1 /\ blobRefs c2' = blobRefs c1) /\
  (forall b n, blobRefs c2 !! b = Some n -> n = 0).
Proof.
  apply (LoadIndex_rerun ex_ParseID [ex_resA; ex_resB] [ex_resB; ex_resA] None None).
  - apply perm_swap.
  - vm_compute. reflexivity.
  - vm_compute. reflexivity.
  - vm_compute. reflexivity.
Defined.

(** ** Packs *)

Section PacksProperties.
Variable Test : ID -> bool * option error.

Lemma packIDTester_check_shape (id : ID) (e : error) :
  packIDTester_check Test id = Some e -> exists E, e = PackError id false E.
Proof.
  unfold packIDTester_check. destruct (Test id) as [ok [err |]].
  - intros [= <-]. eauto.
  - destruct ok; [discriminate |]. intros [= <-]. eauto.
Qed.

(** Every ID handed to the pool is probed, whatever the cancellation. *)
Lemma Packs_workers_probed done (ids : list ID) :
  forall k live k' errs probed,
    Packs_workers Test done k live ids = Some (k', errs, probed) -> probed = ids.
Proof.
  induction ids as [| id rest IH]; intros k live k' errs probed H; simpl in H.
  - congruence.
  - destruct live as [| live']; [discriminate |].
    destruct (packIDTester_check Test id) as [err |].
    + destruct (done k).
      * destruct (Packs_workers Test done (S k) live' rest) as [[[k1 e1] p1] |] eqn:E;
          simpl in H; [| discriminate].
        injection H as <- <- <-. f_equal. eapply IH, E.
      * destruct (Packs_workers Test done (S k) (S live') rest) as [[[k1 e1] p1] |] eqn:E;
          simpl in H; [| discriminate].
        injection H as <- <- <-. f_equal. eapply IH, E.
    + destruct (Packs_workers Test done k (S live') rest) as [[[k1 e1] p1] |] eqn:E;
        simpl in H; [| discriminate].
      injection H as <- <- <-. f_equal. eapply IH, E.
Qed.

(** Without cancellation the pool sends the error of each failed check. *)
Lemma Packs_workers_errors done (ids : list ID) :
  (forall k, done k = false) ->
  forall k live k' errs probed,
    Packs_workers Test done k live ids = Some (k', errs, probed) ->
    errs = omap (packIDTester_check Test) ids.
Proof.
  intros Hdone. induction ids as [| id rest IH]; intros k live k' errs probed H;
    simpl in H.
  - simpl. congruence.
  - destruct live as [| live']; [discriminate |]. simpl.
    destruct (packIDTester_check Test id) as [err |].
    + rewrite Hdone in H.
      destruct (Packs_workers Test done (S k) (S live') rest) as [[[k1 e1] p1] |] eqn:E;
        simpl in H; [| discriminate].
      injection H as <- <- <-. f_equal. eapply IH, E.
    + destruct (Packs_workers Test done k (S live') rest) as [[[k1 e1] p1] |] eqn:E;
        simpl in H; [| discriminate].
      injection H as <- <- <-. eapply IH, E.
Qed.

(** The orphans found are unseen IDs of the listing, whatever the
    cancellation. *)
Lemma Packs_orphans_sound done (seen : gset ID) (listing : list ID) :
  forall k orphaned o errs,
    Packs_orphans done k seen listing orphaned = (o, errs) ->
    forall p, p ∈ o -> (p ∈ orphaned) \/ ((p ∉ seen) /\ (p ∈ listing)).
Proof.
  induction listing as [| id rest IH]; intros k orphaned o errs H p Hp; simpl in H.
  - injection H as <- <-. left. exact Hp.
  - destruct (decide (id ∈ seen)) as [Hs | Hs].
    + destruct (IH _ _ _ _ H p Hp) as [? | [? ?]]; [left; assumption |].
      right. split; [assumption | right; assumption].
    + destruct (done k).
      * injection H as <- <-. apply elem_of_app in Hp as [Hp | Hp]; [left; exact Hp |].
        apply list_elem_of_singleton in Hp as ->. right. split; [exact Hs | left].
      * destruct (Packs_orphans done (S k) seen rest (orphaned ++ [id])) as [o1 e1] eqn:E.
        injection H as <- <-.
        destruct (IH _ _ _ _ E p Hp) as [Hin | [? ?]].
        -- apply elem_of_app in Hin as [Hin | Hin]; [left; exact Hin |].
           apply list_elem_of_singleton in Hin as ->. right. split; [exact Hs | left].
        -- right. split; [assumption | right; assumption].
Qed.

(** Without cancellation every unseen ID of the listing is recorded and
    reported, in the order of the listing. *)
Lemma Packs_orphans_complete done (seen : gset ID) (listing : list ID) :
  (forall k, done k = false) ->
  forall k orphaned,
    Packs_orphans done k seen listing orphaned
    = (orphaned ++ filter (fun id => id ∉ seen) listing,
       orphan_error <$> filter (fun id => id ∉ seen) listing).
Proof.
  intros Hdone. induction listing as [| id rest IH]; intros k orphaned; simpl.
  - rewrite app_nil_r. reflexivity.
  - destruct (decide (id ∈ seen)) as [Hs | Hs].
    + rewrite filter_cons_False by (intros Hn; apply Hn; exact Hs). apply IH.
    + rewrite filter_cons_True by exact Hs. rewrite Hdone, IH, <- app_assoc.
      reflexivity.
Qed.

Lemma filter_orphan_checks (p : ID) (ids : list ID) :
  filter (is_orphan_error_for p) (omap (packIDTester_check Test) ids) = [].
Proof.
  induction ids as [| id rest IH]; [reflexivity |]. simpl.
  destruct (packIDTester_check Test id) as [e |] eqn:E; [| exact IH].
  apply packIDTester_check_shape in E as [E' ->].
  rewrite filter_cons_False by (simpl; tauto). exact IH.
Qed.

Lemma filter_checks_other (id : ID) (ids : list ID) :
  id ∉ ids ->
  filter (is_PackError_for id) (omap (packIDTester_check Test) ids) = [].
Proof.
  induction ids as [| i rest IH]; intros Hn; [reflexivity |]. simpl.
  apply not_elem_of_cons in Hn as [Hne Hn].
  destruct (packIDTester_check Test i) as [e |] eqn:E; [| apply IH, Hn].
  apply packIDTester_check_shape in E as [E' ->].
  rewrite filter_cons_False.
  - apply IH, Hn.
  - simpl. rewrite bool_decide_eq_false_2 by congruence. tauto.
Qed.

Lemma filter_checks_one (id : ID) (ids : list ID) :
  NoDup ids -> id ∈ ids ->
  filter (is_PackError_for id) (omap (packIDTester_check Test) ids)
  = match packIDTester_check Test id with Some e => [e] | None => [] end.
Proof.
  induction ids as [| i rest IH]; intros Hnd Hin; [inversion Hin |].
  apply NoDup_cons in Hnd as [Hni Hnd]. simpl.
  destruct (decide (id = i)) as [<- | Hne].
  - destruct (packIDTester_check Test id) as [e |] eqn:E.
    + pose proof E as E0. apply packIDTester_check_shape in E0 as [E' ->].
      rewrite filter_cons_True by (simpl; rewrite bool_decide_eq_true_2; [exact I | reflexivity]).
      f_equal. apply filter_checks_other, Hni.
    + apply filter_checks_other, Hni.
  - apply elem_of_cons in Hin as [-> | Hin]; [contradiction |].
    destruct (packIDTester_check Test i) as [e |] eqn:E; [| apply IH; assumption].
    apply packIDTester_check_shape in E as [E' ->].
    rewrite filter_cons_False.
    + apply IH; assumption.
    + simpl. rewrite bool_decide_eq_false_2 by congruence. tauto.
Qed.
End PacksProperties.

Lemma filter_orphans_other (p : ID) (l : list ID) :
  p ∉ l -> filter (is_PackError_for p) (orphan_error <$> l) = [].
Proof.
  induction l as [| i rest IH]; intros Hn; [reflexivity |].
  apply not_elem_of_cons in Hn as [Hne Hn]. rewrite fmap_cons.
  rewrite filter_cons_False.
  - apply IH, Hn.
  - simpl. rewrite bool_decide_eq_false_2 by congruence. tauto.
Qed.

Lemma filter_orphans_one (p : ID) (l : list ID) :
  NoDup l -> p ∈ l ->
  filter (is_orphan_error_for p) (orphan_error <$> l) = [orphan_error p].
Proof.
  induction l as [| i rest IH]; intros Hnd Hin; [inversion Hin |].
  apply NoDup_cons in Hnd as [Hni Hnd]. rewrite fmap_cons.
  destruct (decide (p = i)) as [<- | Hne].
  - rewrite filter_cons_True by (simpl; rewrite bool_decide_eq_true_2; [exact I | reflexivity]).
    f_equal. clear IH Hin Hnd. induction rest as [| j rest IH]; [reflexivity |].
    apply not_elem_of_cons in Hni as [Hne Hni]. rewrite fmap_cons.
    rewrite filter_cons_False.
    + apply IH, Hni.
    + simpl. rewrite bool_decide_eq_false_2 by congruence. tauto.
  - apply elem_of_cons in Hin as [-> | Hin]; [contradiction |].
    rewrite filter_cons_False.
    + apply IH; assumption.
    + simpl. rewrite bool_decide_eq_false_2 by congruence. tauto.
Qed.

Lemma Packs_unfold Test listing order done c c' sink probed :
  Packs Test listing order done c = Some (c', sink, probed) ->
  exists k errs1 errs2,
    Packs_workers Test done 0 defaultParallelism order = Some (k, errs1, probed) /\
    Packs_orphans done k (list_to_set order) listing (orphanedPacks c)
    = (orphanedPacks c', errs2) /\
    packs c' = packs c /\ sink = errs1 ++ errs2.
Proof.
  unfold Packs. intros H.
  destruct (Packs_workers Test done 0 defaultParallelism order) as [[[k e1] pr] |];
    simpl in H; [| discriminate].
  destruct (Packs_orphans done k (list_to_set order) listing (orphanedPacks c))
    as [o e2] eqn:E.
  injection H as <- <- <-. exists k, e1, e2. simpl. rewrite E. auto.
Qed.

(** C5. Let [Packs] complete on a checker without earlier orphans. Every
    pack in [OrphanedPacks] is outside [packs] and in the listing of the
    backend. When the run was not cancelled and the listing names no pack
    twice, the sink holds exactly one orphan [PackError] for such a pack, the
    one with the message "not referenced in any index". *)
Theorem Packs_orphaned Test (listing order : list ID) (done : nat -> bool)
    (c c' : Checker) (sink : list error) (probed : list ID) :
  order ≡ₚ elements (packs c) ->
  orphanedPacks c = [] ->
  Packs Test listing order done c = Some (c', sink, probed) ->
  forall p, p ∈ OrphanedPacks c' ->
    (p ∉ packs c') /\ (p ∈ listing) /\
    ((forall k, done k = false) -> NoDup listing ->
     filter (is_orphan_error_for p) sink
     = [PackError p true (errorString "not referenced in any index")]).
Proof.
  intros Hperm Hempty Hrun p Hp.
  apply Packs_unfold in Hrun as (k & errs1 & errs2 & Hw & Ho & Hpk & ->).
  rewrite Hempty in Ho. unfold OrphanedPacks in Hp.
  assert (Hseen : forall x, x ∈ (list_to_set order : gset ID) <-> x ∈ packs c).
  { intros x. rewrite elem_of_list_to_set, Hperm, elem_of_elements. tauto. }
  destruct (Packs_orphans_sound _ _ _ _ _ _ _ Ho p Hp) as [Hin | [Hns Hl]];
    [inversion Hin |].
  split; [rewrite Hpk, <- Hseen; exact Hns |]. split; [exact Hl |].
  intros Hdone Hnd.
  rewrite (Packs_workers_errors Test done order Hdone _ _ _ _ _ Hw).
  rewrite (Packs_orphans_complete done _ listing Hdone) in Ho.
  injection Ho as Ho <-. simpl in Ho.
  rewrite filter_app, filter_orphan_checks. simpl.
  apply filter_orphans_one.
  - apply NoDup_filter, Hnd.
  - apply list_elem_of_filter. split; assumption.
Qed.

(** C6. Let [Packs] complete without cancellation. Every pack of [packs] is
    probed exactly once. For such a pack the sink holds exactly one
    [PackError], not an orphan, with the message "does not exist" when the
    probe reports the pack absent; exactly one, not an orphan, that wraps the
    failure when the probe fails; and none when the probe reports the pack
    present. *)
Theorem Packs_probes Test (listing order : list ID) (done : nat -> bool)
    (c c' : Checker) (sink : list error) (probed : list ID) :
  order ≡ₚ elements (packs c) ->
  (forall k, done k = false) ->
  Packs Test listing order done c = Some (c', sink, probed) ->
  forall id, id ∈ packs c ->
    filter (eq id) probed = [id] /\
    filter (is_PackError_for id) sink
    = match Test id with
      | (_, Some err) => [PackError id false err]
      | (false, None) => [PackError id false (errorString "does not exist")]
      | (true, None) => []
      end.
Proof.
  intros Hperm Hdone Hrun id Hid.
  apply Packs_unfold in Hrun as (k & errs1 & errs2 & Hw & Ho & Hpk & ->).
  assert (Hnd : NoDup order) by (rewrite Hperm; apply NoDup_elements).
  assert (Hin : id ∈ order) by (rewrite Hperm; apply elem_of_elements, Hid).
  rewrite (Packs_workers_probed Test done order _ _ _ _ _ Hw).
  rewrite (Packs_workers_errors Test done order Hdone _ _ _ _ _ Hw).
  rewrite (Packs_orphans_complete done _ listing Hdone) in Ho.
  injection Ho as _ <-. split.
  - clear -Hnd Hin. induction order as [| i rest IH]; [inversion Hin |].
    apply NoDup_cons in Hnd as [Hni Hnd].
    destruct (decide (id = i)) as [<- | Hne].
    + rewrite filter_cons_True by reflexivity. f_equal.
      clear -Hni. induction rest as [| j rest IH]; [reflexivity |].
      apply not_elem_of_cons in Hni as [Hne Hni].
      rewrite filter_cons_False by exact Hne. apply IH, Hni.
    + apply elem_of_cons in Hin as [-> | Hin]; [contradiction |].
      rewrite filter_cons_False by exact Hne. apply IH; assumption.
  - rewrite filter_app, (filter_checks_one Test id order Hnd Hin).
    rewrite filter_orphans_other.
    + rewrite app_nil_r. unfold packIDTester_check.
      destruct (Test id) as [[|] [err |]]; reflexivity.
    + intros Hf. apply list_elem_of_filter in Hf as [Hf _]. apply Hf.
      apply elem_of_list_to_set, Hin.
Qed.

Lemma Packs_orphaned_witness :
  exists c' sink probed,
    Packs ex_Test ex_listing ex_order never ex_packs_checker = Some (c', sink, probed) /\
    OrphanedPacks c' = [60] /\
    (60 ∉ packs c') /\ (60 ∈ ex_listing) /\
    filter (is_orphan_error_for 60) sink
    = [PackError 60 true (errorString "not referenced in any index")].
Proof.
  eexists _, _, _. split; [vm_compute; reflexivity |]. split; [reflexivity |].
  destruct (Packs_orphaned ex_Test ex_listing ex_order never ex_packs_checker _ _ _
              ltac:(reflexivity) ltac:(reflexivity) ltac:(vm_compute; reflexivity)
              60 ltac:(vm_compute; left)) as (H1 & H2 & H3).
  split; [exact H1 |]. split; [exact H2 |]. apply H3.
  - intros k. reflexivity.
  - apply (bool_decide_unpack _). vm_compute. exact I.
Defined.

Lemma Packs_probes_witness :
  exists c' sink probed,
    Packs ex_Test ex_listing ex_order never ex_packs_checker = Some (c', sink, probed) /\
    filter (eq 51) probed = [51] /\
    filter (is_PackError_for 51) sink
    = [PackError 51 false (errorString "does not exist")].
Proof.
  eexists _, _, _. split; [vm_compute; reflexivity |].
  eapply (Packs_probes ex_Test ex_listing ex_order never ex_packs_checker _ _ _
            ltac:(reflexivity) ltac:(intros k; reflexivity)
            ltac:(vm_compute; reflexivity) 51).
  vm_compute. set_solver.
Defined.

(** ** Structure: each tree is checked at most once *)

Lemma occurrences_app (t : ID) (l1 l2 : list ID) :
  occurrences t (l1 ++ l2) = (occurrences t l1 + occurrences t l2)%nat.
Proof. unfold occurrences. rewrite filter_app, length_app. reflexivity. Qed.

Lemma occurrences_singleton (t x : ID) :
  occurrences t [x] = if decide (t = x) then 1%nat else 0%nat.
Proof.
  unfold occurrences. destruct (decide (t = x)) as [-> | Hne].
  - rewrite filter_cons_True by reflexivity. reflexivity.
  - rewrite filter_cons_False by exact Hne. reflexivity.
Qed.

Lemma occurrences_pos (t : ID) (l : list ID) :
  t ∈ l -> (1 <= occurrences t l)%nat.
Proof.
  intros Hin. unfold occurrences.
  assert (Hf : t ∈ filter (eq t) l) by (apply list_elem_of_filter; auto).
  destruct (filter (eq t) l); [inversion Hf | simpl; lia].
Qed.

Lemma occurrences_NoDup (t : ID) (l : list ID) :
  NoDup l -> (occurrences t l <= 1)%nat.
Proof.
  induction 1 as [| x l Hx Hnd IH]; [unfold occurrences; simpl; lia |].
  change (x :: l) with ([x] ++ l). rewrite occurrences_app, occurrences_singleton.
  destruct (decide (t = x)) as [-> | Hne]; [| simpl; lia].
  assert (occurrences x l = 0%nat); [| lia].
  unfold occurrences. destruct (filter (eq x) l) as [| y l'] eqn:E; [reflexivity |].
  exfalso. assert (Hy : y ∈ filter (eq x) l) by (rewrite E; left).
  apply list_elem_of_filter in Hy as [<- Hy]. contradiction.
Qed.

Lemma refcount_refs_incr (M : gmap ID N) (id t : ID) :
  refcount (refs_incr M id) t
  = if decide (t = id) then uint_incr (refcount M id) else refcount M t.
Proof.
  unfold refs_incr, refcount at 1. destruct (decide (t = id)) as [-> | Hne].
  - rewrite lookup_insert_eq. reflexivity.
  - rewrite lookup_insert_ne by congruence. reflexivity.
Qed.

Section StructureProperties.
Variable LoadTree : ID -> option Tree * option error.

Lemma checker_got_job_effect (s s' : state) (k : nat) (job : treeJob) :
  checker_got_job s k job = Ok s' -> effect s s'.
Proof.
  unfold checker_got_job.
  destruct (bool_decide (0 < refcount (blobRefs (st_c s)) (job_ID job))) eqn:E.
  - intros [= <-]. apply bool_decide_eq_true_1 in E.
    eapply effect_skip; [reflexivity .. | exact E].
  - destruct (checkTree_enter (st_heap s) (job_ID job) (job_Tree job)) as [[h' f] |];
      [| discriminate].
    intros [= <-]. apply bool_decide_eq_false_1 in E.
    apply N.nlt_ge, N.le_0_r in E.
    eapply effect_check; [reflexivity .. | exact E].
Qed.

Lemma step_effect (a : action) (s s' : state) :
  step LoadTree a s = Some (Ok s') -> effect s s'.
Proof.
  destruct a as [i | i | k | k | | | i | k]; unfold step; intros H.
  - destruct (st_filter s) as [f |]; [| discriminate].
    destruct (st_loaders s !! i) as [[| j |] |]; try discriminate.
    destruct (f_loadCh f); [| discriminate].
    injection H as <-. apply effect_none; reflexivity.
  - destruct (st_filter s) as [f |]; [| discriminate].
    destruct (st_loaders s !! i) as [[| j |] |]; try discriminate.
    destruct (f_inCh f); [| discriminate].
    destruct (filter_got_job f j); [| discriminate].
    injection H as <-. apply effect_none; reflexivity.
  - destruct (st_filter s) as [f |]; [| discriminate].
    destruct (st_checkers s !! k) as [[| fr | te |] |]; try discriminate.
    destruct (f_outCh f); [| discriminate].
    injection H as H. apply checker_got_job_effect in H.
    destruct H; [eapply effect_none | eapply effect_skip | eapply effect_check
                 | eapply effect_blob]; eassumption.
  - destruct (st_checkers s !! k) as [[| fr | te |] |]; try discriminate.
    destruct (cf_todo fr) as [| b rest]; [discriminate |].
    simpl in H. injection H as <-. eapply effect_blob; reflexivity.
  - injection H as <-. apply effect_none; reflexivity.
  - destruct (st_filter s) as [f |]; [| discriminate].
    destruct (st_done s); [| discriminate].
    injection H as <-. apply effect_none; reflexivity.
  - destruct (st_loaders s !! i) as [[| j |] |]; try discriminate;
      destruct (st_filter s) as [f |]; try discriminate;
      try (destruct (st_done s); [| discriminate]);
      injection H as <-; apply effect_none; reflexivity.
  - destruct (st_checkers s !! k) as [[| fr | te |] |]; try discriminate;
      destruct (st_filter s) as [f |]; try discriminate;
      try (destruct (st_done s); [| discriminate]);
      injection H as <-; apply effect_none; reflexivity.
Qed.
End StructureProperties.

Lemma occurrences_le_length (t : ID) (l : list ID) :
  (occurrences t l <= length l)%nat.
Proof. unfold occurrences. apply length_filter. Qed.

Lemma uint_incr_mod (n : nat) :
  uint_incr (N.of_nat n mod uintModulus) = N.of_nat (S n) mod uintModulus.
Proof.
  unfold uint_incr. rewrite N.Div0.add_mod_idemp_l.
  f_equal. lia.
Qed.

Lemma refs_incr_counts (M : gmap ID N) (id t : ID) (l1 l2 : list ID) :
  (forall t, refcount M t
             = N.of_nat (occurrences t l1 + occurrences t l2) mod uintModulus) ->
  refcount (refs_incr M id) t
  = N.of_nat (occurrences t l1 + occurrences t l2
              + (if decide (t = id) then 1 else 0)) mod uintModulus.
Proof.
  intros HM. rewrite refcount_refs_incr. destruct (decide (t = id)) as [-> | Hne].
  - rewrite HM, uint_incr_mod. f_equal. lia.
  - rewrite HM. f_equal. lia.
Qed.

Lemma effect_counts (s s' : state) :
  effect s s' -> counts_agree s -> counts_agree s'.
Proof.
  intros [Hc Hr Hn Hk | id Hc Hr Hn Hk _ | id Hc Hr Hn Hk _ | b Hc Hr Hn Hk] HM t;
    rewrite Hc, Hr, Hn.
  - apply HM.
  - rewrite (refs_incr_counts _ id t _ _ HM), occurrences_app, occurrences_singleton.
    f_equal. destruct (decide (t = id)); lia.
  - rewrite (refs_incr_counts _ id t _ _ HM), occurrences_app, occurrences_singleton.
    f_equal. destruct (decide (t = id)); lia.
  - rewrite (refs_incr_counts _ b t _ _ HM), occurrences_app, occurrences_singleton.
    f_equal. destruct (decide (t = b)); lia.
Qed.

Lemma effect_history (s s' : state) :
  effect s s' -> (history_length s' <= S (history_length s))%nat.
Proof.
  unfold history_length.
  intros [Hc Hr Hn Hk | id Hc Hr Hn Hk _ | id Hc Hr Hn Hk _ | b Hc Hr Hn Hk];
    rewrite Hr, Hn, ?length_app; simpl; lia.
Qed.

(** A count that reads 0 before the counter can have wrapped belongs to an
    ID that was never received. *)
Lemma zero_count_not_received (s : state) (id : ID) :
  counts_agree s -> N.of_nat (history_length s) < uintModulus ->
  refcount (blobRefs (st_c s)) id = 0 -> id ∉ st_received s.
Proof.
  intros HM Hlen Hz Hin. rewrite HM in Hz.
  pose proof (occurrences_pos id _ Hin) as Hpos.
  pose proof (occurrences_le_length id (st_received s)) as H1.
  pose proof (occurrences_le_length id (st_counted s)) as H2.
  unfold history_length in Hlen.
  rewrite N.mod_small in Hz by lia. lia.
Qed.

Lemma effect_checked (s s' : state) :
  effect s s' -> counts_agree s -> N.of_nat (history_length s) < uintModulus ->
  checked_once s -> checked_once s'.
Proof.
  intros [Hc Hr Hn Hk | id Hc Hr Hn Hk _ | id Hc Hr Hn Hk Hz | b Hc Hr Hn Hk]
         HM Hlen [Hnd Hsub]; unfold checked_once; rewrite Hk, Hr.
  - auto.
  - split; [exact Hnd |]. intros t Ht. apply elem_of_app. left. auto.
  - pose proof (zero_count_not_received s id HM Hlen Hz) as Hnew. split.
    + apply NoDup_app. split; [exact Hnd |]. split.
      * intros x Hx Hx'. apply list_elem_of_singleton in Hx' as ->. auto.
      * apply NoDup_singleton.
    + intros t Ht. apply elem_of_app in Ht as [Ht | Ht]; apply elem_of_app; auto.
  - auto.
Qed.

Section StructureInvariant.
Variable LoadTree : ID -> option Tree * option error.

Lemma run_invariant (sched : list action) :
  forall s s',
    counts_agree s -> checked_once s ->
    N.of_nat (history_length s + length sched) < uintModulus ->
    run LoadTree sched s = Some (Ok s') ->
    counts_agree s' /\ checked_once s' /\
    (history_length s' <= history_length s + length sched)%nat.
Proof.
  induction sched as [| a rest IH]; intros s s' HM Hck Hlen Hrun; simpl in Hrun.
  - injection Hrun as <-. repeat split; try assumption; try apply Hck. lia.
  - destruct (step LoadTree a s) as [[s1 |] |] eqn:E; try discriminate.
    apply step_effect in E.
    pose proof (effect_history _ _ E) as Hh. simpl in Hlen.
    destruct (IH s1 s') as (HM' & Hck' & Hh').
    + apply effect_counts with s; assumption.
    + apply effect_checked with s; try assumption. lia.
    + lia.
    + exact Hrun.
    + repeat split; try assumption; try apply Hck'. simpl. lia.
Qed.
End StructureInvariant.

(** ** Structure: the walk reaches every reference *)

Lemma occurrences_nil (t : ID) : occurrences t [] = 0%nat.
Proof. reflexivity. Qed.

Lemma occurrences_cons (t x : ID) (l : list ID) :
  occurrences t (x :: l)
  = ((if decide (t = x) then 1 else 0) + occurrences t l)%nat.
Proof.
  change (x :: l) with ([x] ++ l).
  rewrite occurrences_app, occurrences_singleton. reflexivity.
Qed.

Lemma loader_ids_cons (p : loaderProc) (ls : list loaderProc) :
  loader_ids (p :: ls) = loader_id p ++ loader_ids ls.
Proof. reflexivity. Qed.

Lemma loader_ids_insert (ls : list loaderProc) :
  forall i p q t,
    ls !! i = Some p ->
    (occurrences t (loader_ids (<[i := q]> ls)) + occurrences t (loader_id p)
     = occurrences t (loader_ids ls) + occurrences t (loader_id q))%nat.
Proof.
  induction ls as [| x ls IH]; intros i p q t Hi; [discriminate |].
  destruct i as [| i]; simpl in Hi.
  - injection Hi as ->. change (<[0%nat := q]> (p :: ls)) with (q :: ls).
    rewrite !loader_ids_cons, !occurrences_app. lia.
  - change (<[S i := q]> (x :: ls)) with (x :: <[i := q]> ls).
    rewrite !loader_ids_cons, !occurrences_app.
    specialize (IH i p q t Hi). lia.
Qed.

Lemma loader_ids_insert_length (ls : list loaderProc) :
  forall i p q,
    ls !! i = Some p ->
    (length (loader_ids (<[i := q]> ls)) + length (loader_id p)
     = length (loader_ids ls) + length (loader_id q))%nat.
Proof.
  induction ls as [| x ls IH]; intros i p q Hi; [discriminate |].
  destruct i as [| i]; simpl in Hi.
  - injection Hi as ->. change (<[0%nat := q]> (p :: ls)) with (q :: ls).
    rewrite !loader_ids_cons, !length_app. lia.
  - change (<[S i := q]> (x :: ls)) with (x :: <[i := q]> ls).
    rewrite !loader_ids_cons, !length_app.
    specialize (IH i p q Hi). lia.
Qed.

Lemma loader_ids_length (ls : list loaderProc) :
  (length (loader_ids ls) <= length ls)%nat.
Proof.
  induction ls as [| x ls IH]; [simpl; lia |].
  rewrite loader_ids_cons, length_app. destruct x; simpl; lia.
Qed.

Lemma int_add_succ (n : nat) :
  (n <= 40)%nat -> int_add (Z.of_nat n) 1 = Z.of_nat (S n).
Proof.
  intros Hn. unfold int_add.
  rewrite Z.mod_small by lia. lia.
Qed.

Lemma int_add_pred (n : nat) :
  (n <= 40)%nat -> int_add (Z.of_nat (S n)) (-1) = Z.of_nat n.
Proof.
  intros Hn. unfold int_add.
  rewrite Z.mod_small by lia. lia.
Qed.

(** The top of the loop either returns, with nothing left in the hands of
    the filter, or moves at most one ID from the backlog into its hand. *)
Lemma filter_top_cases (f : filterState) :
  (filter_top f = FExit /\ f_loadCh f = false /\ f_backlog f = [] /\
   f_outCh f = false /\ f_outstanding f = 0%Z) \/
  (exists f',
      filter_top f = FRun f' /\ f_inCh f' = f_inCh f /\ f_outCh f' = f_outCh f /\
      f_job f' = f_job f /\ f_outstanding f' = f_outstanding f /\
      forall t, (occurrences t (f_backlog f') + occurrences t (armed_id f')
                 = occurrences t (f_backlog f) + occurrences t (armed_id f))%nat).
Proof.
  unfold filter_top, armed_id.
  destruct (f_loadCh f) eqn:Hl.
  - right. exists f. rewrite ?Hl. simpl. auto 10.
  - destruct (f_backlog f) as [| x rest] eqn:Hb.
    + destruct (f_outCh f) eqn:Ho.
      * right. exists f. rewrite ?Hl, ?Hb, ?Ho. simpl. auto 10.
      * destruct (f_outstanding f =? 0)%Z eqn:Hz.
        -- left. rewrite ?Hl, ?Ho, ?Hz. simpl. apply Z.eqb_eq in Hz. auto.
        -- right. exists f. rewrite ?Hl, ?Hb, ?Ho, ?Hz. simpl. auto 10.
    + right. eexists. split; [reflexivity |].
      cbn [f_inCh f_outCh f_job f_outstanding f_backlog f_loadCh f_nextTreeID].
      repeat split. intros t.
      rewrite (occurrences_cons t x rest), occurrences_singleton, occurrences_nil.
      lia.
Qed.

Lemma checker_got_job_walk (s s' : state) (k : nat) (job : treeJob) :
  checker_got_job s k job = Ok s' ->
  st_received s' = st_received s ++ [job_ID job] /\
  st_filter s' = st_filter s /\ st_loaders s' = st_loaders s /\
  st_done s' = st_done s.
Proof.
  unfold checker_got_job.
  destruct (bool_decide (0 < refcount (blobRefs (st_c s)) (job_ID job))).
  - intros [= <-]. auto.
  - destruct (checkTree_enter (st_heap s) (job_ID job) (job_Tree job)) as [[h' f] |];
      [| discriminate].
    intros [= <-]. auto.
Qed.

Lemma loaders_insert_loaded (P : treeJob -> Prop) (ls : list loaderProc)
    (i : nat) (q : loaderProc) :
  (forall i' j, ls !! i' = Some (LWaitOut j) -> P j) ->
  (forall j, q = LWaitOut j -> P j) ->
  forall i' j, <[i := q]> ls !! i' = Some (LWaitOut j) -> P j.
Proof.
  intros Hls Hq i' j Hi'. destruct (decide (i = i')) as [<- | Hne].
  - destruct (decide (i < length ls)%nat) as [Hlt | Hge].
    + rewrite list_lookup_insert_eq in Hi' by exact Hlt. injection Hi' as ->.
      apply Hq. reflexivity.
    + rewrite list_insert_ge in Hi' by lia. eapply Hls, Hi'.
  - rewrite list_lookup_insert_ne in Hi' by exact Hne. eapply Hls, Hi'.
Qed.

Section WalkProperties.
Variable LoadTree : ID -> option Tree * option error.
Variable trees : list ID.

Lemma occurrences_flat_map_children_app (t : ID) (l1 l2 : list ID) :
  occurrences t (flat_map (children LoadTree) (l1 ++ l2))
  = (occurrences t (flat_map (children LoadTree) l1)
     + occurrences t (flat_map (children LoadTree) l2))%nat.
Proof. rewrite flat_map_app, occurrences_app. reflexivity. Qed.

Lemma flat_map_children_singleton (id : ID) :
  flat_map (children LoadTree) [id] = children LoadTree id.
Proof. simpl. apply app_nil_r. Qed.

(** The top of the loop keeps the account of the walk. *)
Lemma filter_top_walk (f : filterState) (ls : list loaderProc)
    (received : list ID) :
  filter_ok LoadTree trees f ls received ->
  match filter_top f with
  | FRun f' => filter_ok LoadTree trees f' ls received
  | FExit => walk_done LoadTree trees received
  end.
Proof.
  intros (Hio & Hjob & Hout & Heq).
  destruct (filter_top_cases f) as
    [(-> & Hl & Hb & Ho & Hz) | (f' & -> & Hi' & Ho' & Hj' & Hz' & Hocc)].
  - intros t. specialize (Heq t). unfold slot_id, armed_id in Heq.
    rewrite Hl, Hb, Ho in Heq. rewrite Hz in Hout.
    assert (HL : loader_ids ls = []).
    { destruct (loader_ids ls); [reflexivity | simpl in Hout; lia]. }
    rewrite HL in Heq. rewrite ?occurrences_nil in Heq. simpl in Heq. lia.
  - unfold filter_ok. rewrite Hi', Ho', Hj', Hz'.
    split; [exact Hio |]. split; [exact Hjob |]. split; [exact Hout |].
    intros t. specialize (Heq t). specialize (Hocc t).
    unfold slot_id in *. rewrite Ho', Hj'. lia.
Qed.
End WalkProperties.

Section WalkInvariant.
Variable LoadTree : ID -> option Tree * option error.
Variable trees : list ID.

Lemma walk_SendID (f : filterState) (ls : list loaderProc) (received : list ID)
    (i : nat) :
  length ls = defaultParallelism ->
  filter_ok LoadTree trees f ls received ->
  f_loadCh f = true -> ls !! i = Some LWaitIn ->
  filter_ok LoadTree trees
    {| f_backlog := f_backlog f; f_inCh := f_inCh f; f_outCh := f_outCh f;
       f_loadCh := false; f_job := f_job f; f_nextTreeID := f_nextTreeID f;
       f_outstanding := int_add (f_outstanding f) 1 |}
    (<[i := LWaitOut (loadTreeWorker_load LoadTree (f_nextTreeID f))]> ls)
    received.
Proof.
  intros Hlen (Hio & Hjob & Hout & Heq) Hl Hi.
  set (q := LWaitOut (loadTreeWorker_load LoadTree (f_nextTreeID f))).
  assert (Hq : loader_id q = [f_nextTreeID f]).
  { unfold q, loadTreeWorker_load. destruct (LoadTree (f_nextTreeID f)). reflexivity. }
  pose proof (loader_ids_insert_length ls i LWaitIn q Hi) as HL.
  pose proof (loader_ids_length (<[i := q]> ls)) as HL'.
  rewrite length_insert, Hlen in HL'. rewrite Hq in HL. simpl in HL.
  unfold filter_ok. cbn [f_backlog f_inCh f_outCh f_loadCh f_job f_nextTreeID f_outstanding].
  split; [exact Hio |]. split; [exact Hjob |]. split.
  - rewrite Hout, int_add_succ by (unfold defaultParallelism in HL'; lia).
    f_equal. lia.
  - intros t. specialize (Heq t).
    pose proof (loader_ids_insert ls i LWaitIn q t Hi) as Ho.
    rewrite Hq in Ho. simpl loader_id in Ho. rewrite occurrences_nil in Ho.
    unfold armed_id, slot_id in *. rewrite Hl in Heq.
    cbn [f_backlog f_inCh f_outCh f_loadCh f_job f_nextTreeID f_outstanding].
    rewrite occurrences_nil. lia.
Qed.

Lemma walk_SendJob (f : filterState) (ls : list loaderProc) (received : list ID)
    (i : nat) (j : treeJob) (t : Tree) :
  length ls = defaultParallelism ->
  filter_ok LoadTree trees f ls received ->
  job_loaded LoadTree j ->
  f_inCh f = true -> ls !! i = Some (LWaitOut j) -> job_Tree j = Some t ->
  filter_ok LoadTree trees
    {| f_backlog := f_backlog f ++ Subtrees t; f_inCh := false;
       f_outCh := true; f_loadCh := f_loadCh f; f_job := j;
       f_nextTreeID := f_nextTreeID f;
       f_outstanding := int_add (f_outstanding f) (-1) |}
    (<[i := LWaitIn]> ls) received.
Proof.
  intros Hlen (Hio & Hjob & Hout & Heq) Hj Hin Hi Ht.
  assert (Ho : f_outCh f = false).
  { rewrite Hin in Hio. destruct (f_outCh f); [discriminate | reflexivity]. }
  assert (Hch : children LoadTree (job_ID j) = Subtrees t).
  { unfold children. unfold job_loaded in Hj. rewrite <- Hj, Ht. reflexivity. }
  pose proof (loader_ids_insert_length ls i (LWaitOut j) LWaitIn Hi) as HL.
  pose proof (loader_ids_length ls) as HL'. rewrite Hlen in HL'.
  simpl in HL.
  unfold filter_ok. cbn [f_backlog f_inCh f_outCh f_loadCh f_job f_nextTreeID f_outstanding].
  split; [reflexivity |]. split; [intros _; exact Hj |]. split.
  - rewrite Hout.
    replace (length (loader_ids ls)) with (S (length (loader_ids (<[i := LWaitIn]> ls))))
      by lia.
    apply int_add_pred. unfold defaultParallelism in HL'. lia.
  - intros x. specialize (Heq x).
    pose proof (loader_ids_insert ls i (LWaitOut j) LWaitIn x Hi) as Hocc.
    simpl loader_id in Hocc. rewrite occurrences_nil in Hocc.
    unfold armed_id, slot_id in *. rewrite Ho in Heq.
    cbn [f_backlog f_inCh f_outCh f_loadCh f_job f_nextTreeID f_outstanding].
    rewrite occurrences_flat_map_children_app, flat_map_children_singleton, Hch.
    rewrite occurrences_app. simpl app in Heq. rewrite occurrences_nil in Heq. lia.
Qed.

Lemma walk_SendCheck (f : filterState) (ls : list loaderProc) (received : list ID) :
  filter_ok LoadTree trees f ls received ->
  f_outCh f = true ->
  filter_ok LoadTree trees
    {| f_backlog := f_backlog f; f_inCh := true; f_outCh := false;
       f_loadCh := f_loadCh f; f_job := f_job f;
       f_nextTreeID := f_nextTreeID f; f_outstanding := f_outstanding f |}
    ls (received ++ [job_ID (f_job f)]).
Proof.
  intros (Hio & Hjob & Hout & Heq) Ho.
  unfold filter_ok. cbn [f_backlog f_inCh f_outCh f_loadCh f_job f_nextTreeID f_outstanding].
  split; [reflexivity |]. split; [discriminate |]. split; [exact Hout |].
  intros x. specialize (Heq x). unfold armed_id, slot_id in *. rewrite Ho in Heq.
  cbn [f_backlog f_inCh f_outCh f_loadCh f_job f_nextTreeID f_outstanding].
  rewrite occurrences_flat_map_children_app in Heq.
  simpl app. rewrite occurrences_flat_map_children_app, occurrences_app, occurrences_nil.
  lia.
Qed.
End WalkInvariant.

Section WalkRun.
Variable LoadTree : ID -> option Tree * option error.
Variable trees : list ID.

Lemma loadTreeWorker_load_loaded (id : ID) :
  job_loaded LoadTree (loadTreeWorker_load LoadTree id).
Proof.
  unfold job_loaded, loadTreeWorker_load. destruct (LoadTree id) eqn:E.
  simpl. rewrite E. reflexivity.
Qed.

Lemma walk_step (a : action) (s s' : state) :
  a <> CloseDone -> walk_inv LoadTree trees s ->
  step LoadTree a s = Some (Ok s') -> walk_inv LoadTree trees s'.
Proof.
  intros Ha (Hd & Hlen & Hjobs & Hfil) H.
  destruct a as [i | i | k | k | | | i | k]; unfold step in H.
  - destruct (st_filter s) as [f |] eqn:Hf; [| discriminate].
    destruct (st_loaders s !! i) as [[| j |] |] eqn:Hi; try discriminate.
    destruct (f_loadCh f) eqn:Hl; [| discriminate].
    injection H as <-. unfold walk_inv. simpl.
    split; [exact Hd |]. split; [rewrite length_insert; exact Hlen |]. split.
    + apply loaders_insert_loaded; [exact Hjobs |].
      intros j [= <-]. apply loadTreeWorker_load_loaded.
    + apply filter_top_walk, walk_SendID; assumption.
  - destruct (st_filter s) as [f |] eqn:Hf; [| discriminate].
    destruct (st_loaders s !! i) as [[| j |] |] eqn:Hi; try discriminate.
    destruct (f_inCh f) eqn:Hin; [| discriminate].
    unfold filter_got_job in H. destruct (job_Tree j) as [t |] eqn:Ht; [| discriminate].
    injection H as <-. unfold walk_inv. simpl.
    split; [exact Hd |]. split; [rewrite length_insert; exact Hlen |]. split.
    + apply loaders_insert_loaded; [exact Hjobs | discriminate].
    + apply filter_top_walk. eapply walk_SendJob; eauto.
  - destruct (st_filter s) as [f |] eqn:Hf; [| discriminate].
    destruct (st_checkers s !! k) as [[| fr | te |] |]; try discriminate.
    destruct (f_outCh f) eqn:Ho; [| discriminate].
    injection H as H. apply checker_got_job_walk in H as (Hr & Hf' & Hl' & Hd').
    simpl in Hr, Hf', Hl', Hd'. unfold walk_inv. rewrite Hr, Hf', Hl', Hd'.
    split; [exact Hd |]. split; [exact Hlen |]. split; [exact Hjobs |].
    apply filter_top_walk, walk_SendCheck; assumption.
  - destruct (st_checkers s !! k) as [[| fr | te |] |]; try discriminate.
    destruct (cf_todo fr) as [| b rest]; [discriminate |].
    simpl in H. injection H as <-. unfold walk_inv. simpl. auto.
  - contradiction.
  - destruct (st_filter s) as [f |]; [| discriminate].
    rewrite Hd in H. discriminate.
  - rewrite Hd in H.
    destruct (st_loaders s !! i) as [[| j |] |] eqn:Hi; try discriminate;
      destruct (st_filter s) as [f |] eqn:Hf; try discriminate.
    injection H as <-. unfold walk_inv. simpl. rewrite Hf.
    split; [exact Hd |]. split; [rewrite length_insert; exact Hlen |].
    split; [| exact Hfil].
    apply loaders_insert_loaded; [exact Hjobs | discriminate].
  - rewrite Hd in H.
    destruct (st_checkers s !! k) as [[| fr | te |] |]; try discriminate;
      destruct (st_filter s) as [f |] eqn:Hf; try discriminate.
    injection H as <-. unfold walk_inv. simpl. rewrite Hf. auto.
Qed.

Lemma loader_ids_replicate (n : nat) : loader_ids (replicate n LWaitIn) = [].
Proof.
  induction n as [| n IH]; [reflexivity |].
  change (replicate (S n) LWaitIn) with (LWaitIn :: replicate n LWaitIn).
  rewrite loader_ids_cons. exact IH.
Qed.

Lemma walk_init (c : Checker) (h : heap) :
  walk_inv LoadTree trees (Structure_init c h trees).
Proof.
  unfold walk_inv, Structure_init.
  cbn [st_done st_loaders st_filter st_received].
  split; [reflexivity |]. split; [apply length_replicate |]. split.
  - intros i j Hi. apply lookup_replicate in Hi as [Hi _]. discriminate.
  - apply filter_top_walk. unfold filter_ok, armed_id, slot_id.
    cbn [f_backlog f_inCh f_outCh f_loadCh f_job f_nextTreeID f_outstanding].
    rewrite loader_ids_replicate.
    split; [reflexivity |]. split; [discriminate |]. split; [reflexivity |].
    intros t. simpl. rewrite !occurrences_nil. lia.
Qed.

(** In a run in which the caller does not close [done], once the filter has
    returned the checkers have received exactly the walk: each root, and each
    subtree of each received tree, once per occurrence. *)
Lemma walk_complete (c : Checker) (h : heap) (sched : list action) (s : state) :
  CloseDone ∉ sched ->
  run LoadTree sched (Structure_init c h trees) = Some (Ok s) ->
  st_filter s = FExit ->
  walk_done LoadTree trees (st_received s).
Proof.
  intros Hn Hrun Hexit.
  assert (Hinv : walk_inv LoadTree trees s).
  { pose proof (walk_init c h) as Hinit.
    revert Hinit Hn Hrun. generalize (Structure_init c h trees).
    induction sched as [| a rest IH]; intros s0 Hinit Hn Hrun; simpl in Hrun.
    - injection Hrun as <-. exact Hinit.
    - apply not_elem_of_cons in Hn as [Ha Hn].
      destruct (step LoadTree a s0) as [[s1 |] |] eqn:E; try discriminate.
      apply (IH s1); auto. eapply walk_step; eauto. }
  destruct Hinv as (_ & _ & _ & Hfil). rewrite Hexit in Hfil. exact Hfil.
Qed.
End WalkRun.

(** ** Structure: what is counted *)

Lemma checkTree_nodes_blobs (tid : loc) (nodes : list Node) :
  forall i bs errs,
    (checkTree_nodes tid i nodes bs errs).1 = bs ++ file_blobs nodes.
Proof.
  induction nodes as [| n rest IH]; intros i bs errs; simpl.
  - rewrite app_nil_r. reflexivity.
  - destruct (String.eqb (node_Type n) "file").
    + rewrite IH, <- app_assoc. reflexivity.
    + destruct (String.eqb (node_Type n) "dir"); [| apply IH].
      destruct (node_Subtree n); apply IH.
Qed.

Lemma checkTree_enter_todo (h : heap) (id : ID) (t : Tree) (h' : heap)
    (fr : checkFrame) :
  checkTree_enter h id (Some t) = Ok (h', fr) -> cf_todo fr = file_blobs (Nodes t).
Proof.
  unfold checkTree_enter, alloc. intros H.
  pose proof (checkTree_nodes_blobs (length h) (Nodes t) 0 [] []) as Hb.
  destruct (checkTree_nodes (length h) 0 (Nodes t) [] []) as [bs errs].
  injection H as _ <-. exact Hb.
Qed.

Lemma checker_after_todo (fr fr' : checkFrame) :
  checker_after fr = CCheck fr' -> fr' = fr.
Proof.
  unfold checker_after. destruct (cf_todo fr).
  - destruct (cf_errs fr); discriminate.
  - intros [= <-]. reflexivity.
Qed.

Lemma occurrences_elem (t : ID) (l : list ID) :
  (1 <= occurrences t l)%nat -> t ∈ l.
Proof.
  unfold occurrences. intros H.
  destruct (filter (eq t) l) as [| x l'] eqn:E; [simpl in H; lia |].
  assert (Hx : x ∈ filter (eq t) l) by (rewrite E; left).
  apply list_elem_of_filter in Hx as [-> Hx]. exact Hx.
Qed.

Lemma effect_received_checked (s s' : state) :
  effect s s' -> counts_agree s -> N.of_nat (history_length s) < uintModulus ->
  received_checked s -> received_checked s'.
Proof.
  intros [Hc Hr Hn Hk | id Hc Hr Hn Hk Hpos | id Hc Hr Hn Hk _ | b Hc Hr Hn Hk]
         HM Hlen Hrc t; rewrite Hr, Hn, Hk.
  - apply Hrc.
  - intros Ht. apply elem_of_app in Ht as [Ht | Ht]; [apply Hrc, Ht |].
    apply list_elem_of_singleton in Ht as ->.
    rewrite HM in Hpos.
    pose proof (occurrences_le_length id (st_received s)) as H1.
    pose proof (occurrences_le_length id (st_counted s)) as H2.
    unfold history_length in Hlen. rewrite N.mod_small in Hpos by lia.
    destruct (decide (1 <= occurrences id (st_received s))%nat) as [Hge | Hlt].
    + apply Hrc, occurrences_elem, Hge.
    + right. apply occurrences_elem. lia.
  - intros Ht. apply elem_of_app in Ht as [Ht | Ht].
    + destruct (Hrc t Ht) as [? | ?]; [left; apply elem_of_app; auto | right; assumption].
    + left. apply elem_of_app. right. exact Ht.
  - intros Ht. destruct (Hrc t Ht) as [? | ?]; [left; assumption |].
    right. apply elem_of_app. left. assumption.
Qed.

Lemma checkers_insert_todo (P : checkFrame -> Prop) (cs : list checkerProc)
    (k : nat) (q : checkerProc) :
  (forall k' fr, cs !! k' = Some (CCheck fr) -> P fr) ->
  (forall fr, q = CCheck fr -> P fr) ->
  forall k' fr, <[k := q]> cs !! k' = Some (CCheck fr) -> P fr.
Proof.
  intros Hcs Hq k' fr Hk'. destruct (decide (k = k')) as [<- | Hne].
  - destruct (decide (k < length cs)%nat) as [Hlt | Hge].
    + rewrite list_lookup_insert_eq in Hk' by exact Hlt. injection Hk' as ->.
      apply Hq. reflexivity.
    + rewrite list_insert_ge in Hk' by lia. eapply Hcs, Hk'.
  - rewrite list_lookup_insert_ne in Hk' by exact Hne. eapply Hcs, Hk'.
Qed.

Section CountedInvariant.
Variable LoadTree : ID -> option Tree * option error.

Lemma checker_got_job_counted (s s' : state) (k : nat) (job : treeJob) :
  job_loaded LoadTree job -> counted_inv LoadTree s ->
  checker_got_job s k job = Ok s' -> counted_inv LoadTree s'.
Proof.
  intros Hj [Hcnt Htodo]. unfold checker_got_job.
  destruct (bool_decide (0 < refcount (blobRefs (st_c s)) (job_ID job))).
  - intros [= <-]. split; assumption.
  - destruct (job_Tree job) as [t |] eqn:Ht; [| discriminate].
    destruct (checkTree_enter (st_heap s) (job_ID job) (Some t)) as [[h' f] |] eqn:E;
      [| discriminate].
    intros [= <-]. split; [exact Hcnt |]. cbn [st_checkers].
    apply (checkers_insert_todo (fun fr => forall b, b ∈ cf_todo fr -> content_blob LoadTree b));
      [exact Htodo |].
    intros fr Hfr%checker_after_todo b Hb. subst fr.
    rewrite (checkTree_enter_todo _ _ _ _ _ E) in Hb.
    exists (job_ID job), t. split; [| exact Hb].
    unfold job_loaded in Hj. rewrite <- Hj. exact Ht.
Qed.

Lemma counted_step (trees : list ID) (a : action) (s s' : state) :
  walk_inv LoadTree trees s -> counted_inv LoadTree s ->
  step LoadTree a s = Some (Ok s') -> counted_inv LoadTree s'.
Proof.
  intros (_ & _ & _ & Hfil) [Hcnt Htodo] H.
  destruct a as [i | i | k | k | | | i | k]; unfold step in H.
  - destruct (st_filter s) as [f |]; [| discriminate].
    destruct (st_loaders s !! i) as [[| j |] |]; try discriminate.
    destruct (f_loadCh f); [| discriminate].
    injection H as <-. split; assumption.
  - destruct (st_filter s) as [f |]; [| discriminate].
    destruct (st_loaders s !! i) as [[| j |] |]; try discriminate.
    destruct (f_inCh f); [| discriminate].
    destruct (filter_got_job f j); [| discriminate].
    injection H as <-. split; assumption.
  - destruct (st_filter s) as [f |]; [| discriminate].
    destruct (st_checkers s !! k) as [[| fr | te |] |]; try discriminate.
    destruct (f_outCh f) eqn:Ho; [| discriminate].
    injection H as H. destruct Hfil as (_ & Hjob & _).
    eapply checker_got_job_counted; [apply Hjob, Ho | | exact H].
    split; assumption.
  - destruct (st_checkers s !! k) as [[| fr | te |] |] eqn:Hk; try discriminate.
    destruct (cf_todo fr) as [| b rest] eqn:Hfr; [discriminate |].
    simpl in H. injection H as <-. cbn [st_counted st_checkers]. split.
    + intros x Hx. apply elem_of_app in Hx as [Hx | Hx]; [apply Hcnt, Hx |].
      apply list_elem_of_singleton in Hx as ->.
      apply (Htodo k fr Hk). rewrite Hfr. left.
    + apply (checkers_insert_todo (fun fr => forall b, b ∈ cf_todo fr -> content_blob LoadTree b));
        [exact Htodo |].
      intros fr' Hfr'%checker_after_todo x Hx. subst fr'. cbn [cf_todo] in Hx.
      apply (Htodo k fr Hk). rewrite Hfr. right. exact Hx.
  - injection H as <-. split; assumption.
  - destruct (st_filter s) as [f |]; [| discriminate].
    destruct (st_done s); [| discriminate].
    injection H as <-. split; assumption.
  - destruct (st_loaders s !! i) as [[| j |] |]; try discriminate;
      destruct (st_filter s) as [f |]; try discriminate;
      try (destruct (st_done s); [| discriminate]);
      injection H as <-; split; assumption.
  - destruct (st_checkers s !! k) as [[| fr | te |] |]; try discriminate;
      destruct (st_filter s) as [f |]; try discriminate;
      try (destruct (st_done s); [| discriminate]);
      injection H as <-; (split; [exact Hcnt |]); cbn [st_checkers];
      (apply (checkers_insert_todo (fun fr => forall b, b ∈ cf_todo fr -> content_blob LoadTree b));
       [exact Htodo | discriminate]).
Qed.
End CountedInvariant.

Section FullInvariant.
Variable LoadTree : ID -> option Tree * option error.
Variable trees : list ID.

Lemma run_inv_init (c : Checker) (h : heap) :
  (forall t, refcount (blobRefs c) t = 0) ->
  run_inv LoadTree trees (Structure_init c h trees).
Proof.
  intros Hzero. split; [apply walk_init |]. split; [| split; [| split]].
  - split.
    + intros b Hb. inversion Hb.
    + intros k fr Hk. unfold Structure_init in Hk. cbn [st_checkers] in Hk.
      apply lookup_replicate in Hk as [Hk _]. discriminate.
  - intros t. simpl. rewrite Hzero. reflexivity.
  - split; [apply NoDup_nil_2 | intros t Ht; inversion Ht].
  - intros t Ht. inversion Ht.
Qed.

Lemma run_inv_run (sched : list action) :
  forall s s',
    run_inv LoadTree trees s -> CloseDone ∉ sched ->
    N.of_nat (history_length s + length sched) < uintModulus ->
    run LoadTree sched s = Some (Ok s') ->
    run_inv LoadTree trees s' /\
    (history_length s' <= history_length s + length sched)%nat.
Proof.
  induction sched as [| a rest IH]; intros s s' Hinv Hn Hlen Hrun; simpl in Hrun.
  - injection Hrun as <-. split; [exact Hinv | lia].
  - apply not_elem_of_cons in Hn as [Ha Hn].
    destruct (step LoadTree a s) as [[s1 |] |] eqn:E; try discriminate.
    destruct Hinv as (Hw & Hc & HM & Hck & Hrc).
    pose proof (step_effect LoadTree a s s1 E) as Heff.
    pose proof (effect_history _ _ Heff) as Hh. simpl in Hlen.
    destruct (IH s1 s') as [Hinv' Hh']; [| exact Hn | lia | exact Hrun |].
    + split; [eapply walk_step; eauto |].
      split; [eapply counted_step; eauto |].
      split; [eapply effect_counts; eauto |].
      split; [eapply effect_checked; eauto; lia |].
      eapply effect_received_checked; eauto. lia.
    + split; [exact Hinv' | simpl; lia].
Qed.
End FullInvariant.

(** *** Three snapshots that share a subtree *)

Lemma process_index_new_counts (id : ID) (idx : Index) (t : ID) :
  refcount (blobRefs (process_index New id idx)) t = 0.
Proof.
  unfold refcount, process_index. rewrite foldl_add_blob_blobRefs.
  destruct (decide (t ∈ blob_id <$> idx)); reflexivity.
Qed.

Lemma diamond_children (x : ID) :
  children diamond_LoadTree x = if decide (x ∈ [11; 12; 13]) then [20] else [].
Proof.
  unfold children, diamond_LoadTree.
  destruct (decide (x = 20)) as [-> | H20]; [reflexivity |].
  destruct (decide (x ∈ [11; 12; 13])); reflexivity.
Qed.

Lemma diamond_content_blob (b : ID) : content_blob diamond_LoadTree b -> b = 30.
Proof.
  intros (id & t & Ht & Hb). unfold diamond_LoadTree in Ht.
  destruct (decide (id = 20)).
  - injection Ht as <-. simpl in Hb. apply list_elem_of_singleton in Hb. exact Hb.
  - destruct (decide (id ∈ [11; 12; 13])); [| discriminate].
    injection Ht as <-. inversion Hb.
Qed.

Lemma diamond_children_other (t : ID) (l : list ID) :
  t <> 20 -> occurrences t (flat_map (children diamond_LoadTree) l) = 0%nat.
Proof.
  intros Ht. induction l as [| x l IH]; [reflexivity |].
  simpl flat_map. rewrite occurrences_app, IH, diamond_children.
  destruct (decide (x ∈ [11; 12; 13])).
  - rewrite occurrences_singleton, decide_False by exact Ht. reflexivity.
  - reflexivity.
Qed.

Lemma diamond_children_20 (l : list ID) :
  occurrences 20 (flat_map (children diamond_LoadTree) l)
  = (occurrences 11 l + occurrences 12 l + occurrences 13 l)%nat.
Proof.
  induction l as [| x l IH]; [reflexivity |].
  simpl flat_map. rewrite occurrences_app, IH, diamond_children, !occurrences_cons.
  destruct (decide (x ∈ [11; 12; 13])) as [Hin | Hout].
  - rewrite occurrences_singleton, decide_True by reflexivity.
    rewrite !elem_of_cons in Hin.
    destruct Hin as [-> | [-> | [-> | H]]]; [| | | inversion H]; simpl; lia.
  - rewrite occurrences_nil.
    rewrite !not_elem_of_cons in Hout. destruct Hout as (H1 & H2 & H3 & _).
    rewrite !decide_False by congruence. lia.
Qed.

(** Whatever the schedule, once the filter has returned from the walk of the
    three snapshots, tree 20 was received three times, checked once, and its
    count is 3. *)
Lemma diamond_every_schedule (sched : list action) (s : state) :
  N.of_nat (length sched) < uintModulus -> CloseDone ∉ sched ->
  run diamond_LoadTree sched (Structure_init diamond_checker [] [11; 12; 13]) = Some (Ok s) ->
  st_filter s = FExit ->
  occurrences 20 (st_received s) = 3%nat /\
  occurrences 20 (st_checked s) = 1%nat /\
  refcount (blobRefs (st_c s)) 20 = 3.
Proof.
  intros Hlen Hn Hrun Hexit.
  destruct (run_inv_run diamond_LoadTree [11; 12; 13] sched _ s
              (run_inv_init diamond_LoadTree [11; 12; 13] diamond_checker []
                 (process_index_new_counts _ _)) Hn Hlen Hrun)
    as [(Hw & [Hcnt _] & HM & [Hnd Hsub] & Hrc) Hh].
  destruct Hw as (_ & _ & _ & Hdone). rewrite Hexit in Hdone.
  assert (H11 : occurrences 11 (st_received s) = 1%nat).
  { rewrite (Hdone 11), diamond_children_other by discriminate. reflexivity. }
  assert (H12 : occurrences 12 (st_received s) = 1%nat).
  { rewrite (Hdone 12), diamond_children_other by discriminate. reflexivity. }
  assert (H13 : occurrences 13 (st_received s) = 1%nat).
  { rewrite (Hdone 13), diamond_children_other by discriminate. reflexivity. }
  assert (H20 : occurrences 20 (st_received s) = 3%nat).
  { rewrite (Hdone 20), diamond_children_20, H11, H12, H13. reflexivity. }
  assert (Hnc : 20 ∉ st_counted s).
  { intros Hin. apply Hcnt, diamond_content_blob in Hin. discriminate. }
  assert (Hc0 : occurrences 20 (st_counted s) = 0%nat).
  { destruct (occurrences 20 (st_counted s)) eqn:E; [reflexivity |].
    exfalso. apply Hnc, occurrences_elem. lia. }
  split; [exact H20 |]. split.
  - pose proof (occurrences_NoDup 20 _ Hnd) as Hle.
    assert (Hin : 20 ∈ st_received s) by (apply occurrences_elem; lia).
    destruct (Hrc 20 Hin) as [Hck | Hct]; [| contradiction].
    apply occurrences_pos in Hck. lia.
  - rewrite HM, H20, Hc0. reflexivity.
Qed.

(** C1. (1) There is a run over three snapshots that share the subtree 20
    in which [Structure] returns; in it, and in every run of these snapshots
    whose filter returns without the caller closing [done], the checkers
    receive tree 20 three times, [checkTree] is called for it once, and its
    count ends at 3. (2) In every run of the pipeline from a checker
    whose counts are 0, as long as the counter cannot have wrapped,
    [checkTree] is called at most once for each tree ID, and the count of
    each ID is the number of times it was received as a tree plus the number
    of times it was counted as a content blob: each reference adds exactly
    one. When the filter has returned without the caller closing [done], the
    trees received are each root and each subtree of each received tree, once
    per occurrence. *)
Theorem Structure_checks_each_tree_once :
  (exists s,
      run diamond_LoadTree diamond_sched (Structure_init diamond_checker [] [11; 12; 13]) = Some (Ok s) /\
      Structure_returned s = true /\
      occurrences 20 (st_received s) = 3%nat /\
      occurrences 20 (st_checked s) = 1%nat /\
      refcount (blobRefs (st_c s)) 20 = 3) /\
  (forall (sched : list action) (s : state),
      N.of_nat (length sched) < uintModulus -> CloseDone ∉ sched ->
      run diamond_LoadTree sched (Structure_init diamond_checker [] [11; 12; 13]) = Some (Ok s) ->
      st_filter s = FExit ->
      occurrences 20 (st_received s) = 3%nat /\
      occurrences 20 (st_checked s) = 1%nat /\
      refcount (blobRefs (st_c s)) 20 = 3) /\
  (forall LoadTree (c : Checker) (h : heap) (trees : list ID)
          (sched : list action) (s : state),
      (forall t, refcount (blobRefs c) t = 0) ->
      N.of_nat (length sched) < uintModulus ->
      run LoadTree sched (Structure_init c h trees) = Some (Ok s) ->
      (forall t, (occurrences t (st_checked s) <= 1)%nat) /\
      (forall t, refcount (blobRefs (st_c s)) t
                 = N.of_nat (occurrences t (st_received s)
                             + occurrences t (st_counted s))) /\
      (CloseDone ∉ sched -> st_filter s = FExit ->
       forall t, (occurrences t (st_received s)
                  = occurrences t trees
                    + occurrences t (flat_map (children LoadTree) (st_received s)))%nat)).
Proof.
  split; [| split].
  - eexists. split; [vm_compute; reflexivity |]. repeat split; vm_compute; reflexivity.
  - intros sched s Hlen Hn Hrun Hexit. eapply diamond_every_schedule; eauto.
  - intros LoadTree c h trees sched s Hzero Hlen Hrun.
    destruct (run_invariant LoadTree sched (Structure_init c h trees) s)
      as (HM & [Hnd Hsub] & Hh).
    + intros t. simpl. rewrite Hzero. reflexivity.
    + split; [apply NoDup_nil_2 | intros t Ht; inversion Ht].
    + simpl. exact Hlen.
    + exact Hrun.
    + split; [| split].
      * intros t. apply occurrences_NoDup, Hnd.
      * intros t. rewrite HM. apply N.mod_small.
        pose proof (occurrences_le_length t (st_received s)) as H1.
        pose proof (occurrences_le_length t (st_counted s)) as H2.
        unfold history_length in Hh. simpl in Hh. lia.
      * intros Hn Hexit. eapply walk_complete; eauto.
Qed.

Lemma Structure_checks_each_tree_once_witness :
  (exists s,
      run diamond_LoadTree diamond_sched (Structure_init diamond_checker [] [11; 12; 13]) = Some (Ok s) /\
      occurrences 20 (st_received s) = 3%nat /\
      occurrences 20 (st_checked s) = 1%nat /\
      refcount (blobRefs (st_c s)) 20 = 3) /\
  (exists s,
      run ex_failing_LoadTree twice_sched (Structure_init New [] twice_roots) = Some (Ok s) /\
      (forall t, (occurrences t (st_checked s) <= 1)%nat) /\
      (forall t, refcount (blobRefs (st_c s)) t
                 = N.of_nat (occurrences t (st_received s)
                             + occurrences t (st_counted s))) /\
      (forall t, (occurrences t (st_received s)
                  = occurrences t twice_roots
                    + occurrences t (flat_map (children ex_failing_LoadTree) (st_received s)))%nat)).
Proof.
  split.
  - eexists. split; [vm_compute; reflexivity |].
    apply (proj1 (proj2 Structure_checks_each_tree_once) diamond_sched).
    + vm_compute. reflexivity.
    + apply (bool_decide_unpack _). vm_compute. exact I.
    + vm_compute. reflexivity.
    + vm_compute. reflexivity.
  - eexists. split; [vm_compute; reflexivity |].
    destruct (proj2 (proj2 Structure_checks_each_tree_once) ex_failing_LoadTree New []
                twice_roots twice_sched _
                ltac:(intros t; reflexivity) ltac:(vm_compute; reflexivity)
                ltac:(vm_compute; reflexivity)) as (H1 & H2 & H3).
    split; [exact H1 |]. split; [exact H2 |]. apply H3.
    + apply (bool_decide_unpack _). vm_compute. exact I.
    + vm_compute. reflexivity.
Defined.

(** ** Structure: a tree that fails to load *)

(** A job whose tree pointer is nil cannot be taken by the filter: the call
    [j.Tree.Subtrees()] panics. *)
Lemma step_SendJob_nil_tree LoadTree (s : state) (i : nat) (f : filterState)
    (j : treeJob) :
  st_filter s = FRun f -> f_inCh f = true ->
  st_loaders s !! i = Some (LWaitOut j) -> job_Tree j = None ->
  step LoadTree (SendJob i) s = Some Panic.
Proof.
  intros Hf Hin Hl Ht. unfold step. rewrite Hf, Hl, Hin.
  unfold filter_got_job. rewrite Ht. reflexivity.
Qed.

Section LoadFailure.
Variable LoadTree : ID -> option Tree * option error.

Lemma checker_got_job_frame (s s' : state) (k : nat) (job : treeJob) :
  checker_got_job s k job = Ok s' ->
  st_done s' = st_done s /\ st_loaders s' = st_loaders s.
Proof.
  unfold checker_got_job.
  destruct (bool_decide (0 < refcount (blobRefs (st_c s)) (job_ID job))).
  - intros [= <-]. auto.
  - destruct (checkTree_enter (st_heap s) (job_ID job) (job_Tree job)) as [[h' f] |];
      [| discriminate].
    intros [= <-]. auto.
Qed.

(** Until [done] is closed, no action gets a failed job out of its loader
    without a panic. *)
Lemma load_failed_step (a : action) (s s' : state) :
  a <> CloseDone -> st_done s = false -> load_failed s ->
  step LoadTree a s = Some (Ok s') ->
  st_done s' = false /\ load_failed s'.
Proof.
  intros Ha Hd (i & j & Hi & Hj) H.
  destruct a as [i' | i' | k | k | | | i' | k]; unfold step in H.
  - destruct (st_filter s) as [f |]; [| discriminate].
    destruct (st_loaders s !! i') as [[| j' |] |] eqn:Hi'; try discriminate.
    destruct (f_loadCh f); [| discriminate].
    injection H as <-. split; [exact Hd |]. exists i, j. split; [| exact Hj].
    simpl. rewrite list_lookup_insert_ne; [exact Hi | congruence].
  - destruct (st_filter s) as [f |]; [| discriminate].
    destruct (st_loaders s !! i') as [[| j' |] |] eqn:Hi'; try discriminate.
    destruct (f_inCh f); [| discriminate].
    destruct (filter_got_job f j') as [p |] eqn:Hg; [| discriminate].
    injection H as <-. split; [exact Hd |]. exists i, j. split; [| exact Hj].
    simpl. rewrite list_lookup_insert_ne; [exact Hi |].
    intros ->. rewrite Hi in Hi'. injection Hi' as <-.
    unfold filter_got_job in Hg. rewrite Hj in Hg. discriminate.
  - destruct (st_filter s) as [f |]; [| discriminate].
    destruct (st_checkers s !! k) as [[| fr | te |] |]; try discriminate.
    destruct (f_outCh f); [| discriminate].
    injection H as H. apply checker_got_job_frame in H as [Hd' Hl'].
    simpl in Hd', Hl'. split; [congruence |]. exists i, j. rewrite Hl'. auto.
  - destruct (st_checkers s !! k) as [[| fr | te |] |]; try discriminate.
    destruct (cf_todo fr) as [| b rest]; [discriminate |].
    simpl in H. injection H as <-. split; [exact Hd |]. exists i, j. auto.
  - contradiction.
  - destruct (st_filter s) as [f |]; [| discriminate].
    rewrite Hd in H. discriminate.
  - rewrite Hd in H.
    destruct (st_loaders s !! i') as [[| j' |] |] eqn:Hi'; try discriminate;
      destruct (st_filter s) as [f |]; try discriminate.
    injection H as <-. split; [exact Hd |]. exists i, j. split; [| exact Hj].
    simpl. rewrite list_lookup_insert_ne; [exact Hi | congruence].
  - rewrite Hd in H.
    destruct (st_checkers s !! k) as [[| fr | te |] |]; try discriminate;
      destruct (st_filter s) as [f |]; try discriminate.
    injection H as <-. split; [exact Hd |]. exists i, j. auto.
Qed.

Lemma load_failed_not_returned (s : state) :
  load_failed s -> Structure_returned s = false.
Proof.
  intros (i & j & Hi & _). unfold Structure_returned.
  destruct (st_filter s); [reflexivity |].
  apply andb_false_intro1. apply not_true_is_false. intros Hall.
  rewrite forallb_forall in Hall.
  specialize (Hall (LWaitOut j)). apply list_elem_of_lookup_2, list_elem_of_In in Hi.
  specialize (Hall Hi). discriminate.
Qed.

(** Once a load has failed, a run in which the caller does not close [done]
    either panics or leaves [Structure] unreturned. *)
Lemma load_failure_never_returns (sched : list action) :
  forall s s',
    st_done s = false -> load_failed s -> CloseDone ∉ sched ->
    run LoadTree sched s = Some (Ok s') ->
    Structure_returned s' = false.
Proof.
  induction sched as [| a rest IH]; intros s s' Hd Hf Hn Hrun; simpl in Hrun.
  - injection Hrun as <-. apply load_failed_not_returned, Hf.
  - apply not_elem_of_cons in Hn as [Ha Hn].
    destruct (step LoadTree a s) as [[s1 |] |] eqn:E; try discriminate.
    destruct (load_failed_step a s s1) as [Hd1 Hf1]; auto.
    eapply IH; eauto.
Qed.
End LoadFailure.

Lemma filter_top_pending (id : ID) (f : filterState) :
  pending id f -> exists f', filter_top f = FRun f' /\ pending id f'.
Proof.
  unfold pending, filter_top. intros [Hin | [Harm Hnext]].
  - destruct (f_loadCh f) eqn:Hl.
    + exists f. rewrite Hl. simpl. split; [reflexivity | left; exact Hin].
    + destruct (f_backlog f) as [| x rest] eqn:Hb; [inversion Hin |].
      simpl. eexists. split; [reflexivity |]. simpl.
      apply elem_of_cons in Hin as [-> | Hin]; [right; auto | left; exact Hin].
  - exists f. rewrite !Harm. simpl. split; [reflexivity | right; auto].
Qed.

Section LoadFailureFromRoots.
Variable LoadTree : ID -> option Tree * option error.

Lemma checker_got_job_filter (s s' : state) (k : nat) (job : treeJob) :
  checker_got_job s k job = Ok s' -> st_filter s' = st_filter s.
Proof.
  unfold checker_got_job.
  destruct (bool_decide (0 < refcount (blobRefs (st_c s)) (job_ID job))).
  - intros [= <-]. reflexivity.
  - destruct (checkTree_enter (st_heap s) (job_ID job) (job_Tree job)) as [[h' f] |];
      [| discriminate].
    intros [= <-]. reflexivity.
Qed.

Lemma doomed_step (id : ID) (a : action) (s s' : state) :
  (LoadTree id).1 = None ->
  a <> CloseDone -> doomed id s ->
  step LoadTree a s = Some (Ok s') -> doomed id s'.
Proof.
  intros Hload Ha [Hd [Hf | (f & Hfil & Hp)]] H.
  { destruct (load_failed_step LoadTree a s s' Ha Hd Hf H) as [Hd' Hf'].
    split; [exact Hd' | left; exact Hf']. }
  destruct a as [i | i | k | k | | | i | k]; unfold step in H; rewrite ?Hfil in H.
  - destruct (st_loaders s !! i) as [[| j |] |] eqn:Hi; try discriminate.
    destruct (f_loadCh f) eqn:Hl; [| discriminate].
    injection H as <-. split; [exact Hd |].
    destruct Hp as [Hin | [_ Hnext]].
    + right. unfold filter_sent_id.
      edestruct (filter_top_pending id) as (f' & -> & Hp'); [| eauto].
      left. exact Hin.
    + left. exists i, (loadTreeWorker_load LoadTree (f_nextTreeID f)). split.
      * simpl. apply list_lookup_insert_eq. eapply lookup_lt_Some, Hi.
      * rewrite Hnext. unfold loadTreeWorker_load.
        destruct (LoadTree id) as [t e]. simpl in Hload. subst t. reflexivity.
  - destruct (st_loaders s !! i) as [[| j |] |] eqn:Hi; try discriminate.
    destruct (f_inCh f); [| discriminate].
    unfold filter_got_job in H. destruct (job_Tree j) as [t |]; [| discriminate].
    injection H as <-. split; [exact Hd |]. right.
    edestruct (filter_top_pending id) as (f' & Htop & Hp'); [| simpl; eauto].
    destruct Hp as [Hin | Harm]; [left | right; exact Harm].
    simpl. apply elem_of_app. left. exact Hin.
  - destruct (st_checkers s !! k) as [[| fr | te |] |]; try discriminate.
    destruct (f_outCh f); [| discriminate].
    injection H as H. pose proof (checker_got_job_filter _ _ _ _ H) as Hfil'.
    apply checker_got_job_frame in H as [Hd' _]. simpl in Hd', Hfil'.
    split; [congruence |]. right. rewrite Hfil'. unfold filter_sent_job.
    edestruct (filter_top_pending id) as (f' & -> & Hp'); [| eauto].
    exact Hp.
  - destruct (st_checkers s !! k) as [[| fr | te |] |]; try discriminate.
    destruct (cf_todo fr) as [| b rest]; [discriminate |].
    simpl in H. injection H as <-. split; [exact Hd |]. right. eauto.
  - contradiction.
  - rewrite Hd in H. discriminate.
  - rewrite Hd in H.
    destruct (st_loaders s !! i) as [[| j |] |]; discriminate.
  - rewrite Hd in H.
    destruct (st_checkers s !! k) as [[| fr | te |] |]; discriminate.
Qed.

Lemma doomed_not_returned (id : ID) (s : state) :
  doomed id s -> Structure_returned s = false.
Proof.
  intros [_ [Hf | (f & Hfil & _)]].
  - apply load_failed_not_returned, Hf.
  - unfold Structure_returned. rewrite Hfil. reflexivity.
Qed.

(** When the tree of some snapshot does not load (the loader gets a nil
    tree), no run of [Structure] returns unless the caller closes [done]: the
    run panics or stays short of its end. *)
Lemma Structure_root_load_failure (id : ID) (c : Checker) (h : heap)
    (trees : list ID) (sched : list action) (s : state) :
  (LoadTree id).1 = None -> id ∈ trees -> CloseDone ∉ sched ->
  run LoadTree sched (Structure_init c h trees) = Some (Ok s) ->
  Structure_returned s = false.
Proof.
  intros Hload Hin Hn Hrun. apply (doomed_not_returned id).
  assert (Hinit : doomed id (Structure_init c h trees)).
  { split; [reflexivity |]. right. unfold Structure_init. simpl.
    edestruct (filter_top_pending id) as (f' & -> & Hp'); [| eauto].
    left. exact Hin. }
  clear Hin. revert Hinit Hn Hrun. generalize (Structure_init c h trees).
  induction sched as [| a rest IH]; intros s0 Hdoom Hn Hrun; simpl in Hrun.
  - injection Hrun as <-. exact Hdoom.
  - apply not_elem_of_cons in Hn as [Ha Hn].
    destruct (step LoadTree a s0) as [[s1 |] |] eqn:E; try discriminate.
    apply (IH s1); auto. eapply doomed_step; eauto.
Qed.
End LoadFailureFromRoots.

(** C2, at three roots of which the second fails to load. After tree 11 has
    gone through the pipeline, the filter hands 99 to loader 0 and takes 13
    in hand; the loader holds the job of 99 with the error and a nil tree.
    The receive of that job in [filterTrees] panics, and so does the run,
    with root 13 never loaded. *)
Theorem Structure_load_failure_panics :
  exists s f,
    run ex_failing_LoadTree [SendID 0; SendJob 0; SendCheck 0; SendID 0]
        (Structure_init ex_roots_checker [] [11; 99; 13]) = Some (Ok s) /\
    st_loaders s !! 0%nat
    = Some (LWaitOut {| job_ID := 99;
                        job_error := Some (errorString "load failed");
                        job_Tree := None |}) /\
    st_filter s = FRun f /\ f_loadCh f = true /\ f_nextTreeID f = 13 /\
    st_received s = [11] /\
    step ex_failing_LoadTree (SendJob 0) s = Some Panic /\
    run ex_failing_LoadTree [SendID 0; SendJob 0; SendCheck 0; SendID 0; SendJob 0]
        (Structure_init ex_roots_checker [] [11; 99; 13]) = Some Panic.
Proof.
  eexists _, _. split; [vm_compute; reflexivity |].
  split; [reflexivity |]. split; [reflexivity |].
  split; [reflexivity |]. split; [reflexivity |].
  split; [reflexivity |]. split; vm_compute; reflexivity.
Qed.

(** ** Keys of blob_refs outside blobs *)

Lemma checkTree_blob_counts (c : Checker) (h : heap) (f : checkFrame) (b : ID)
    (rest : list ID) :
  blobRefs (checkTree_blob c h f b rest).1.1 !! b
  = Some (uint_incr (refcount (blobRefs c) b)).
Proof. simpl. unfold refs_incr. apply lookup_insert_eq. Qed.

Lemma uint_incr_pos (x : N) : x < uintModulus - 1 -> 0 < uint_incr x.
Proof.
  intros Hx. unfold uint_incr. rewrite N.mod_small by lia. lia.
Qed.

(** C10. (1) There is a run of [Structure] after which [blob_refs] has the
    key 30 with count 1 although 30 is not in [blobs], and [UnusedBlobs] does
    not return 30. (2) An iteration of the blob loop of [checkTree]
    increments the count of its blob whether or not the blob is in [blobs];
    the new count is positive unless the counter wraps. (3) [UnusedBlobs]
    never returns an ID outside [blobs]. *)
Theorem blobRefs_key_outside_blobs :
  (exists s,
      run ex_unindexed_LoadTree ex_unindexed_sched (Structure_init ex_unindexed_checker [] [11]) = Some (Ok s) /\
      Structure_returned s = true /\
      (30 ∉ blobs (st_c s)) /\
      blobRefs (st_c s) !! 30 = Some 1 /\
      forall order, order ≡ₚ elements (blobs (st_c s)) ->
                    30 ∉ UnusedBlobs order (st_c s)) /\
  (forall c h f b rest,
      blobRefs (checkTree_blob c h f b rest).1.1 !! b
      = Some (uint_incr (refcount (blobRefs c) b)) /\
      (refcount (blobRefs c) b < uintModulus - 1 ->
       0 < uint_incr (refcount (blobRefs c) b))) /\
  (forall c order b,
      order ≡ₚ elements (blobs c) -> b ∉ blobs c -> b ∉ UnusedBlobs order c).
Proof.
  assert (Hout : forall c order b,
             order ≡ₚ elements (blobs c) -> b ∉ blobs c -> b ∉ UnusedBlobs order c).
  { intros c order b Hperm Hb Hin.
    apply UnusedBlobs_elem in Hin as [Hin _].
    rewrite Hperm, elem_of_elements in Hin. contradiction. }
  split; [| split].
  - eexists. split; [vm_compute; reflexivity |].
    split; [vm_compute; reflexivity |].
    assert (H30 : 30 ∉ blobs ex_unindexed_checker) by (vm_compute; set_solver).
    split; [exact H30 |]. split; [vm_compute; reflexivity |].
    intros order Hperm. apply Hout; [exact Hperm | exact H30].
  - intros c h f b rest. split; [apply checkTree_blob_counts | apply uint_incr_pos].
  - exact Hout.
Qed.

Lemma blobRefs_key_outside_blobs_witness :
  7 ∉ UnusedBlobs [3; 5] ex_refs_checker.
Proof.
  apply (proj2 (proj2 blobRefs_key_outside_blobs) ex_refs_checker [3; 5] 7).
  - vm_compute. apply perm_swap.
  - vm_compute. set_solver.
Defined.

(** * Further properties *)

(** ** checkTree: its errors and its counts *)

Lemma bad_dirs_from_elem (nodes : list Node) :
  forall k i,
    i ∈ bad_dirs_from k nodes <->
    exists n, (k <= i)%nat /\ nodes !! (i - k)%nat = Some n /\
              dir_without_subtree n = true.
Proof.
  induction nodes as [| x rest IH]; intros k i; cbn [bad_dirs_from].
  - split; [intros H; inversion H | intros (n & _ & H & _); discriminate].
  - assert (Hrest : i ∈ bad_dirs_from (S k) rest <->
                    exists n, (k < i)%nat /\ rest !! (i - S k)%nat = Some n /\
                              dir_without_subtree n = true).
    { rewrite IH. split; intros (n & H1 & H2 & H3); exists n; repeat split; auto; lia. }
    assert (Hcons : forall n, (k < i)%nat ->
                    (x :: rest) !! (i - k)%nat = Some n <-> rest !! (i - S k)%nat = Some n).
    { intros n Hlt. replace (i - k)%nat with (S (i - S k)) by lia. reflexivity. }
    destruct (dir_without_subtree x) eqn:Hx.
    + rewrite elem_of_cons, Hrest. split.
      * intros [-> | (n & Hlt & Hn & Hb)].
        -- exists x. rewrite Nat.sub_diag. auto.
        -- exists n. rewrite Hcons by exact Hlt. repeat split; auto; lia.
      * intros (n & Hle & Hn & Hb). destruct (decide (i = k)) as [-> | Hne]; [left; reflexivity |].
        right. exists n. rewrite <- Hcons by lia. repeat split; auto; lia.
    + rewrite Hrest. split.
      * intros (n & Hlt & Hn & Hb). exists n. rewrite Hcons by exact Hlt.
        repeat split; auto; lia.
      * intros (n & Hle & Hn & Hb). destruct (decide (i = k)) as [-> | Hne].
        -- rewrite Nat.sub_diag in Hn. injection Hn as ->. congruence.
        -- exists n. rewrite <- Hcons by lia. repeat split; auto; lia.
Qed.

Lemma file_not_dir (s : string) :
  String.eqb s "file" = true -> String.eqb s "dir" = false.
Proof. intros H%String.eqb_eq. subst s. reflexivity. Qed.

(** The first loop: the blobs of the file nodes are appended in order, and
    one error is appended for each dir node without subtree, with the
    position of the node in the tree. *)
Lemma checkTree_nodes_exact (tid : loc) (nodes : list Node) :
  forall i bs errs,
    checkTree_nodes tid i nodes bs errs
    = (bs ++ file_blobs nodes, errs ++ (dir_error tid <$> bad_dirs_from i nodes)).
Proof.
  induction nodes as [| n rest IH]; intros i bs errs.
  - simpl. rewrite !app_nil_r. reflexivity.
  - cbn [checkTree_nodes bad_dirs_from]. unfold dir_without_subtree.
    destruct (String.eqb (node_Type n) "file") eqn:Hf.
    + rewrite (file_not_dir _ Hf), IH. cbn [andb]. unfold file_blobs at 2.
      cbn [flat_map]. rewrite Hf, <- app_assoc. reflexivity.
    + assert (Hfb : file_blobs (n :: rest) = file_blobs rest).
      { unfold file_blobs. cbn [flat_map]. rewrite Hf. reflexivity. }
      rewrite Hfb.
      destruct (String.eqb (node_Type n) "dir") eqn:Hd; cbn [andb].
      * destruct (node_Subtree n) as [st |]; rewrite IH; [reflexivity |].
        rewrite <- app_assoc, fmap_cons. reflexivity.
      * apply IH.
Qed.

Lemma checkTree_loop_exact (bs : list ID) :
  forall c h f c' h' f',
    checkTree_loop c h f bs = (c', h', f') ->
    cf_errs f'
    = cf_errs f ++ replicate (length (filter (fun b => b ∉ blobs c) bs))
                             (blob_error (cf_tid f) (cf_bid f)) /\
    blobRefs c' = foldl refs_incr (blobRefs c) bs /\
    (packs c' = packs c /\ blobs c' = blobs c /\ indexes c' = indexes c /\
     orphanedPacks c' = orphanedPacks c /\ masterIndex c' = masterIndex c) /\
    forall l, l <> cf_bid f -> h' !! l = h !! l.
Proof.
  induction bs as [| b rest IH]; intros c h f c' h' f' Hrun; cbn [checkTree_loop] in Hrun.
  - injection Hrun as <- <- <-. simpl. rewrite app_nil_r. auto 10.
  - destruct (checkTree_blob c h f b rest) as [[c1 h1] f1] eqn:E.
    unfold checkTree_blob in E. injection E as <- <- <-.
    apply IH in Hrun as (Herrs & Hrefs & (Hp & Hb & Hi & Ho & Hm) & Hheap).
    cbn [cf_errs cf_tid cf_bid blobs set_blobRefs blobRefs packs indexes
         orphanedPacks masterIndex] in *.
    split; [| split; [exact Hrefs | split; [auto 10 |]]].
    + rewrite Herrs. destruct (decide (b ∈ blobs c)) as [Hin | Hout].
      * rewrite filter_cons_False by (intros Hn; apply Hn, Hin). reflexivity.
      * rewrite filter_cons_True by exact Hout. rewrite <- app_assoc. reflexivity.
    + intros l Hl. rewrite Hheap by exact Hl. unfold store.
      apply list_lookup_insert_ne. congruence.
Qed.

Lemma refcount_foldl_incr (bs : list ID) :
  forall (M : gmap ID N) (b : ID),
    refcount (foldl refs_incr M bs) b
    = if (occurrences b bs =? 0)%nat then refcount M b
      else (refcount M b + N.of_nat (occurrences b bs)) mod uintModulus.
Proof.
  induction bs as [| x rest IH]; intros M b; [reflexivity |].
  cbn [foldl]. rewrite IH, occurrences_cons, refcount_refs_incr.
  destruct (decide (b = x)) as [-> | Hne].
  - destruct (occurrences x rest) as [| k] eqn:Hk.
    + change (0 =? 0)%nat with true. change (1 + 0 =? 0)%nat with false.
      cbv iota. unfold uint_incr. reflexivity.
    + change (1 + S k =? 0)%nat with false. change (S k =? 0)%nat with false.
      cbv iota. unfold uint_incr. rewrite N.Div0.add_mod_idemp_l. f_equal. lia.
  - reflexivity.
Qed.

Lemma bad_dirs_elem (nodes : list Node) (i : nat) :
  i ∈ bad_dirs nodes <->
  exists n, nodes !! i = Some n /\ dir_without_subtree n = true.
Proof.
  unfold bad_dirs. rewrite bad_dirs_from_elem. rewrite Nat.sub_0_r.
  split; intros (n & H); exists n; [tauto | split; [lia | tauto]].
Qed.

Lemma checkTree_errs (c : Checker) (h : heap) (id : ID) (t : Tree)
    (c' : Checker) (h' : heap) (errs : list error) :
  checkTree c h id (Some t) = Ok (c', h', errs) ->
  errs = (dir_error (length h) <$> bad_dirs (Nodes t))
         ++ replicate (length (missing_blobs c (Nodes t)))
                      (blob_error (length h) (S (length h))) /\
  h' !! length h = Some id.
Proof.
  intros Hrun. unfold checkTree, checkTree_enter, alloc in Hrun.
  rewrite checkTree_nodes_exact in Hrun. cbn [app] in Hrun.
  destruct (checkTree_loop _ _ _ _) as [[c2 h2] f2] eqn:Hloop in Hrun.
  injection Hrun as <- <- <-.
  apply checkTree_loop_exact in Hloop as (Herrs & _ & _ & Hheap).
  cbn [cf_errs cf_tid cf_bid cf_todo] in *.
  rewrite length_app in Herrs, Hheap. cbn [length] in Herrs, Hheap.
  replace (length h + 1)%nat with (S (length h)) in * by lia.
  split; [rewrite Herrs; reflexivity |].
  rewrite Hheap by lia. rewrite <- app_assoc.
  apply list_lookup_middle. reflexivity.
Qed.

(** X1. The errors of [checkTree] are, in this order, one error for each dir
    node without subtree, which names the position of the node, and one error
    for each occurrence of a content blob that the index does not hold; every
    error names the tree that was checked. *)
Theorem checkTree_errors_exact (c : Checker) (h : heap) (id : ID) (t : Tree)
    (c' : Checker) (h' : heap) (errs : list error) :
  checkTree c h id (Some t) = Ok (c', h', errs) ->
  errs = (dir_error (length h) <$> bad_dirs (Nodes t))
         ++ replicate (length (missing_blobs c (Nodes t)))
                      (blob_error (length h) (S (length h))) /\
  (forall e, e ∈ errs -> error_TreeID h' e = Some id) /\
  (forall i, i ∈ bad_dirs (Nodes t) <->
             exists n, Nodes t !! i = Some n /\ dir_without_subtree n = true).
Proof.
  intros Hrun. apply checkTree_errs in Hrun as [Hexact Htid].
  split; [exact Hexact |]. split; [| apply bad_dirs_elem].
  intros e He. rewrite Hexact in He. apply elem_of_app in He as [He | He].
  - apply list_elem_of_fmap in He as (i & -> & _). exact Htid.
  - apply elem_of_replicate in He as [-> _]. exact Htid.
Qed.

Lemma checkTree_errors_exact_witness :
  exists c' h' errs,
    checkTree ex_index2_checker [] 7 (Some ex_mixed_tree) = Ok (c', h', errs) /\
    errs = [Error (Some 0%nat) None (errorString "node 2 is dir but has no subtree");
            Error (Some 0%nat) (Some 1%nat) (errorString "not found in index")] /\
    (forall e, e ∈ errs -> error_TreeID h' e = Some 7).
Proof.
  eexists _, _, _. split; [vm_compute; reflexivity |].
  destruct (checkTree_errors_exact ex_index2_checker [] 7 ex_mixed_tree _ _ _
              ltac:(vm_compute; reflexivity)) as (H1 & H2 & _).
  split; [| exact H2]. vm_compute. reflexivity.
Defined.

(** X2. [checkTree] returns no error exactly when no dir node lacks its
    subtree and the index holds every content blob of the file nodes. *)
Theorem checkTree_no_errors_iff (c : Checker) (h : heap) (id : ID) (t : Tree)
    (c' : Checker) (h' : heap) (errs : list error) :
  checkTree c h id (Some t) = Ok (c', h', errs) ->
  errs = [] <->
  (forall n, n ∈ Nodes t -> dir_without_subtree n = false) /\
  (forall b, b ∈ file_blobs (Nodes t) -> b ∈ blobs c).
Proof.
  intros Hrun. apply checkTree_errs in Hrun as [-> _].
  pose proof (bad_dirs_elem (Nodes t)) as Hbad.
  split.
  - intros Hnil. apply app_eq_nil in Hnil as [Hd Hm].
    apply fmap_nil_inv in Hd.
    assert (Hmiss : missing_blobs c (Nodes t) = []).
    { destruct (missing_blobs c (Nodes t)); [reflexivity | discriminate]. }
    split.
    + intros n Hn. destruct (dir_without_subtree n) eqn:E; [| reflexivity].
      apply list_elem_of_lookup in Hn as [i Hi].
      assert (Hin : i ∈ bad_dirs (Nodes t)) by (apply Hbad; eauto).
      rewrite Hd in Hin. inversion Hin.
    + intros b Hb. destruct (decide (b ∈ blobs c)) as [Hin | Hout]; [exact Hin |].
      assert (Hx : b ∈ missing_blobs c (Nodes t)).
      { apply list_elem_of_filter. auto. }
      rewrite Hmiss in Hx. inversion Hx.
  - intros [Hd Hb].
    assert (Hbd : bad_dirs (Nodes t) = []).
    { destruct (bad_dirs (Nodes t)) as [| i l] eqn:E; [reflexivity |].
      assert (Hi : i ∈ i :: l) by left.
      apply Hbad in Hi as (n & Hn & Hbadn).
      rewrite (Hd n) in Hbadn; [discriminate |].
      eapply list_elem_of_lookup_2, Hn. }
    assert (Hmiss : missing_blobs c (Nodes t) = []).
    { destruct (missing_blobs c (Nodes t)) as [| b l] eqn:E; [reflexivity |].
      assert (Hx : b ∈ missing_blobs c (Nodes t)) by (rewrite E; left).
      apply list_elem_of_filter in Hx as [Hout Hin]. exfalso. apply Hout, Hb, Hin. }
    rewrite Hbd, Hmiss. reflexivity.
Qed.

Lemma checkTree_no_errors_iff_witness :
  exists c' h',
    checkTree ex_index2_checker [] 7 (Some ex_sound_tree) = Ok (c', h', []) /\
    ([] = @nil error <->
     (forall n, n ∈ Nodes ex_sound_tree -> dir_without_subtree n = false) /\
     (forall b, b ∈ file_blobs (Nodes ex_sound_tree) -> b ∈ blobs ex_index2_checker)).
Proof.
  eexists _, _. split; [vm_compute; reflexivity |].
  eapply (checkTree_no_errors_iff ex_index2_checker [] 7 ex_sound_tree).
  vm_compute. reflexivity.
Defined.

(** X3. [checkTree] adds to the count of every ID the number of its
    occurrences among the content blobs of the file nodes, in or out of the
    index, and changes nothing else in the checker. *)
Theorem checkTree_counts (c : Checker) (h : heap) (id : ID) (t : Tree)
    (c' : Checker) (h' : heap) (errs : list error) :
  checkTree c h id (Some t) = Ok (c', h', errs) ->
  (forall b,
      refcount (blobRefs c') b
      = if (occurrences b (file_blobs (Nodes t)) =? 0)%nat then refcount (blobRefs c) b
        else (refcount (blobRefs c) b
              + N.of_nat (occurrences b (file_blobs (Nodes t)))) mod uintModulus) /\
  packs c' = packs c /\ blobs c' = blobs c /\ indexes c' = indexes c /\
  orphanedPacks c' = orphanedPacks c /\ masterIndex c' = masterIndex c.
Proof.
  intros Hrun. unfold checkTree, checkTree_enter, alloc in Hrun.
  rewrite checkTree_nodes_exact in Hrun. cbn [app] in Hrun.
  destruct (checkTree_loop _ _ _ _) as [[c2 h2] f2] eqn:Hloop in Hrun.
  injection Hrun as <- <- <-.
  apply checkTree_loop_exact in Hloop as (_ & Hrefs & Hframe & _).
  cbn [cf_todo] in Hrefs. split; [| exact Hframe].
  intros b. rewrite Hrefs. apply refcount_foldl_incr.
Qed.

Lemma checkTree_counts_witness :
  exists c' h' errs,
    checkTree ex_index2_checker [] 7 (Some ex_sound_tree) = Ok (c', h', errs) /\
    refcount (blobRefs c') 2 = 2 /\ refcount (blobRefs c') 1 = 0 /\
    blobs c' = blobs ex_index2_checker.
Proof.
  eexists _, _, _. split; [vm_compute; reflexivity |].
  destruct (checkTree_counts ex_index2_checker [] 7 ex_sound_tree _ _ _
              ltac:(vm_compute; reflexivity)) as (H1 & _ & H3 & _).
  split; [rewrite (H1 2); reflexivity |].
  split; [rewrite (H1 1); reflexivity | exact H3].
Defined.

(** ** Structure: what a run keeps *)

Lemma run_app LoadTree (sched1 sched2 : list action) (s : state) :
  run LoadTree (sched1 ++ sched2) s
  = match run LoadTree sched1 s with
    | Some (Ok s1) => run LoadTree sched2 s1
    | other => other
    end.
Proof.
  revert s. induction sched1 as [| a rest IH]; intros s; [reflexivity |].
  cbn [app run]. destruct (step LoadTree a s) as [[s1 |] |]; [apply IH | reflexivity ..].
Qed.

Lemma checker_got_job_same_index (s s' : state) (k : nat) (job : treeJob) :
  checker_got_job s k job = Ok s' -> same_index_state (st_c s) (st_c s').
Proof.
  unfold checker_got_job, same_index_state.
  destruct (bool_decide (0 < refcount (blobRefs (st_c s)) (job_ID job))).
  - intros [= <-]. simpl. auto.
  - destruct (checkTree_enter (st_heap s) (job_ID job) (job_Tree job)) as [[h' f] |];
      [| discriminate].
    intros [= <-]. simpl. auto.
Qed.

Lemma step_same_index LoadTree (a : action) (s s' : state) :
  step LoadTree a s = Some (Ok s') -> same_index_state (st_c s) (st_c s').
Proof.
  destruct a as [i | i | k | k | | | i | k]; unfold step; intros H.
  - destruct (st_filter s) as [f |]; [| discriminate].
    destruct (st_loaders s !! i) as [[| j |] |]; try discriminate.
    destruct (f_loadCh f); [| discriminate].
    injection H as <-. repeat split.
  - destruct (st_filter s) as [f |]; [| discriminate].
    destruct (st_loaders s !! i) as [[| j |] |]; try discriminate.
    destruct (f_inCh f); [| discriminate].
    destruct (filter_got_job f j); [| discriminate].
    injection H as <-. repeat split.
  - destruct (st_filter s) as [f |]; [| discriminate].
    destruct (st_checkers s !! k) as [[| fr | te |] |]; try discriminate.
    destruct (f_outCh f); [| discriminate].
    injection H as H. apply checker_got_job_same_index in H. exact H.
  - destruct (st_checkers s !! k) as [[| fr | te |] |]; try discriminate.
    destruct (cf_todo fr) as [| b rest]; [discriminate |].
    simpl in H. injection H as <-. repeat split.
  - injection H as <-. repeat split.
  - destruct (st_filter s) as [f |]; [| discriminate].
    destruct (st_done s); [| discriminate].
    injection H as <-. repeat split.
  - destruct (st_loaders s !! i) as [[| j |] |]; try discriminate;
      destruct (st_filter s) as [f |]; try discriminate;
      try (destruct (st_done s); [| discriminate]);
      injection H as <-; repeat split.
  - destruct (st_checkers s !! k) as [[| fr | te |] |]; try discriminate;
      destruct (st_filter s) as [f |]; try discriminate;
      try (destruct (st_done s); [| discriminate]);
      injection H as <-; repeat split.
Qed.

Lemma run_same_index LoadTree (sched : list action) (s s' : state) :
  run LoadTree sched s = Some (Ok s') -> same_index_state (st_c s) (st_c s').
Proof.
  revert s. induction sched as [| a rest IH]; intros s Hrun; cbn [run] in Hrun.
  - injection Hrun as <-. repeat split.
  - destruct (step LoadTree a s) as [[s1 |] |] eqn:E; try discriminate.
    apply step_same_index in E as (E1 & E2 & E3 & E4 & E5).
    apply IH in Hrun as (H1 & H2 & H3 & H4 & H5).
    unfold same_index_state. rewrite H1, H2, H3, H4, H5. auto.
Qed.

(** X4. No run of the pipeline, cancelled or not, writes [packs], [blobs],
    [indexes], [orphanedPacks] or the master index: [Structure] only counts
    references. *)
Theorem Structure_keeps_index_state LoadTree (sched : list action) (s s' : state) :
  run LoadTree sched s = Some (Ok s') -> same_index_state (st_c s) (st_c s').
Proof. apply run_same_index. Qed.

Lemma Structure_keeps_index_state_witness :
  exists s,
    run diamond_LoadTree diamond_sched (Structure_init diamond_checker [] [11; 12; 13])
    = Some (Ok s) /\
    same_index_state diamond_checker (st_c s).
Proof.
  eexists. split; [vm_compute; reflexivity |].
  apply (Structure_keeps_index_state diamond_LoadTree diamond_sched
           (Structure_init diamond_checker [] [11; 12; 13])).
  vm_compute. reflexivity.
Defined.

Lemma effect_grows (s s' : state) (t : ID) :
  effect s s' ->
  (occurrences t (st_received s) <= occurrences t (st_received s'))%nat /\
  (occurrences t (st_counted s) <= occurrences t (st_counted s'))%nat.
Proof.
  intros [Hc Hr Hn Hk | id Hc Hr Hn Hk _ | id Hc Hr Hn Hk _ | b Hc Hr Hn Hk];
    rewrite Hr, Hn, ?occurrences_app; lia.
Qed.

Lemma run_grows LoadTree (sched : list action) (t : ID) :
  forall s s',
    run LoadTree sched s = Some (Ok s') ->
    (occurrences t (st_received s) <= occurrences t (st_received s'))%nat /\
    (occurrences t (st_counted s) <= occurrences t (st_counted s'))%nat.
Proof.
  induction sched as [| a rest IH]; intros s s' Hrun; cbn [run] in Hrun.
  - injection Hrun as <-. lia.
  - destruct (step LoadTree a s) as [[s1 |] |] eqn:E; try discriminate.
    apply step_effect in E. destruct (effect_grows s s1 t E).
    destruct (IH s1 s' Hrun). lia.
Qed.

Lemma run_counts LoadTree (c : Checker) (h : heap) (trees : list ID)
    (sched : list action) (s : state) :
  (forall t, refcount (blobRefs c) t = 0) ->
  N.of_nat (length sched) < uintModulus ->
  run LoadTree sched (Structure_init c h trees) = Some (Ok s) ->
  forall t, refcount (blobRefs (st_c s)) t
            = N.of_nat (occurrences t (st_received s) + occurrences t (st_counted s)).
Proof.
  intros Hzero Hlen Hrun t.
  destruct (run_invariant LoadTree sched (Structure_init c h trees) s)
    as (HM & _ & Hh).
  - intros x. simpl. rewrite Hzero. reflexivity.
  - split; [apply NoDup_nil_2 | intros x Hx; inversion Hx].
  - simpl. exact Hlen.
  - exact Hrun.
  - rewrite HM. apply N.mod_small.
    pose proof (occurrences_le_length t (st_received s)) as H1.
    pose proof (occurrences_le_length t (st_counted s)) as H2.
    unfold history_length in Hh. simpl in Hh. lia.
Qed.

(** X5. As long as the counter cannot have wrapped, no count of [blob_refs]
    ever goes down in the course of a run. *)
Theorem Structure_counts_grow LoadTree (c : Checker) (h : heap) (trees : list ID)
    (sched1 sched2 : list action) (s1 s2 : state) :
  (forall t, refcount (blobRefs c) t = 0) ->
  N.of_nat (length sched1 + length sched2) < uintModulus ->
  run LoadTree sched1 (Structure_init c h trees) = Some (Ok s1) ->
  run LoadTree sched2 s1 = Some (Ok s2) ->
  forall t, refcount (blobRefs (st_c s1)) t <= refcount (blobRefs (st_c s2)) t.
Proof.
  intros Hzero Hlen Hrun1 Hrun2 t.
  assert (Hrun : run LoadTree (sched1 ++ sched2) (Structure_init c h trees)
                 = Some (Ok s2)) by (rewrite run_app, Hrun1; exact Hrun2).
  rewrite (run_counts LoadTree c h trees sched1 s1 Hzero) by (try assumption; lia).
  rewrite (run_counts LoadTree c h trees (sched1 ++ sched2) s2 Hzero)
    by (try assumption; rewrite length_app; lia).
  destruct (run_grows LoadTree sched2 t s1 s2 Hrun2). lia.
Qed.

Lemma Structure_counts_grow_witness :
  exists s1 s2,
    run diamond_LoadTree (take 12 diamond_sched)
        (Structure_init diamond_checker [] [11; 12; 13]) = Some (Ok s1) /\
    run diamond_LoadTree (drop 12 diamond_sched) s1 = Some (Ok s2) /\
    forall t, refcount (blobRefs (st_c s1)) t <= refcount (blobRefs (st_c s2)) t.
Proof.
  eexists _, _. split; [vm_compute; reflexivity |]. split; [vm_compute; reflexivity |].
  eapply (Structure_counts_grow diamond_LoadTree diamond_checker []
            [11; 12; 13] (take 12 diamond_sched) (drop 12 diamond_sched)).
  - apply process_index_new_counts.
  - vm_compute. reflexivity.
  - vm_compute. reflexivity.
  - vm_compute. reflexivity.
Defined.

(** ** UnusedBlobs after the other operations *)

(** X6. After a run of the pipeline from counts 0 (no wrap), [UnusedBlobs]
    returns exactly the indexed blobs that no checker received as a tree and
    no [checkTree] counted as a content blob. *)
Theorem UnusedBlobs_after_Structure LoadTree (c : Checker) (h : heap)
    (trees : list ID) (sched : list action) (s : state) (order : list ID) :
  (forall t, refcount (blobRefs c) t = 0) ->
  N.of_nat (length sched) < uintModulus ->
  run LoadTree sched (Structure_init c h trees) = Some (Ok s) ->
  order ≡ₚ elements (blobs (st_c s)) ->
  forall b, b ∈ UnusedBlobs order (st_c s) <->
            (b ∈ blobs c) /\ (b ∉ st_received s) /\ (b ∉ st_counted s).
Proof.
  intros Hzero Hlen Hrun Hperm b.
  pose proof (run_same_index LoadTree sched _ s Hrun) as (_ & Hb & _).
  cbn [Structure_init st_c] in Hb.
  rewrite UnusedBlobs_elem, Hperm, elem_of_elements, Hb.
  rewrite (run_counts LoadTree c h trees sched s Hzero Hlen Hrun).
  split.
  - intros [Hin Hz]. split; [exact Hin |].
    split; intros Hx; apply occurrences_pos in Hx; lia.
  - intros (Hin & Hr & Hc). split; [exact Hin |].
    destruct (occurrences b (st_received s)) eqn:E1.
    + destruct (occurrences b (st_counted s)) eqn:E2; [reflexivity |].
      exfalso. apply Hc, occurrences_elem. lia.
    + exfalso. apply Hr, occurrences_elem. lia.
Qed.

Lemma UnusedBlobs_after_Structure_witness :
  exists s,
    run diamond_LoadTree (take 12 diamond_sched)
        (Structure_init diamond_checker [] [11; 12; 13]) = Some (Ok s) /\
    forall b, b ∈ UnusedBlobs (elements (blobs (st_c s))) (st_c s) <->
              (b ∈ blobs diamond_checker) /\ (b ∉ st_received s) /\ (b ∉ st_counted s).
Proof.
  eexists. split; [vm_compute; reflexivity |].
  apply (UnusedBlobs_after_Structure diamond_LoadTree diamond_checker []
           [11; 12; 13] (take 12 diamond_sched)).
  - apply process_index_new_counts.
  - vm_compute. reflexivity.
  - vm_compute. reflexivity.
  - reflexivity.
Defined.

(** X7. After [LoadIndex] has returned without error on a new checker and
    before any tree is walked, [UnusedBlobs] returns every indexed blob. *)
Theorem UnusedBlobs_after_LoadIndex ParseID (delivered : list indexRes)
    (perr : option error) (c : Checker) (order : list ID) :
  LoadIndex ParseID New delivered perr = (c, None) ->
  order ≡ₚ elements (blobs c) ->
  UnusedBlobs order c = order /\
  forall b, b ∈ UnusedBlobs order c <-> b ∈ blobs c.
Proof.
  intros Hrun Hperm.
  apply LoadIndex_ok, LoadIndex_consume_ok in Hrun as (_ & _ & Hr).
  assert (Hzero : forall b, refcount (blobRefs c) b = 0).
  { intros b. unfold refcount. rewrite Hr.
    destruct (decide (b ∈ blob_id <$> all_entries delivered)); reflexivity. }
  assert (Hall : UnusedBlobs order c = order).
  { unfold UnusedBlobs. clear Hperm. induction order as [| x l IH]; [reflexivity |].
    rewrite filter_cons_True by apply Hzero. f_equal. exact IH. }
  split; [exact Hall |].
  intros b. rewrite Hall, Hperm, elem_of_elements. reflexivity.
Qed.

Lemma UnusedBlobs_after_LoadIndex_witness :
  let c := (LoadIndex ex_ParseID New [ex_resA; ex_resB] None).1 in
  UnusedBlobs (elements (blobs c)) c = elements (blobs c) /\
  forall b, b ∈ UnusedBlobs (elements (blobs c)) c <-> b ∈ blobs c.
Proof.
  apply (UnusedBlobs_after_LoadIndex ex_ParseID [ex_resA; ex_resB] None).
  - vm_compute. reflexivity.
  - reflexivity.
Defined.

(** ** Structure: a tree with errors *)

Section TreeErrorStays.
Variable LoadTree : ID -> option Tree * option error.

Lemma checker_got_job_other (s s' : state) (k k' : nat) (job : treeJob)
    (p : checkerProc) :
  st_checkers s !! k = Some CWaitIn ->
  st_checkers s !! k' = Some p -> p <> CWaitIn ->
  checker_got_job s k job = Ok s' -> st_checkers s' !! k' = Some p.
Proof.
  intros Hk Hk' Hp. unfold checker_got_job.
  destruct (bool_decide (0 < refcount (blobRefs (st_c s)) (job_ID job))).
  - intros [= <-]. exact Hk'.
  - destruct (checkTree_enter (st_heap s) (job_ID job) (job_Tree job)) as [[h' f] |];
      [| discriminate].
    intros [= <-]. cbn [st_checkers].
    rewrite list_lookup_insert_ne; [exact Hk' |].
    intros ->. rewrite Hk in Hk'. injection Hk' as <-. contradiction.
Qed.

(** [treeErrChan] has no receiver: a checker that holds a [TreeError] keeps
    it for as long as [done] is open. *)
Lemma tree_error_step (a : action) (s s' : state) (k : nat) (te : TreeError) :
  a <> CloseDone -> st_done s = false ->
  st_checkers s !! k = Some (CWaitOut te) ->
  step LoadTree a s = Some (Ok s') ->
  st_done s' = false /\ st_checkers s' !! k = Some (CWaitOut te).
Proof.
  intros Ha Hd Hk H.
  destruct a as [i | i | k' | k' | | | i | k']; unfold step in H.
  - destruct (st_filter s) as [f |]; [| discriminate].
    destruct (st_loaders s !! i) as [[| j |] |]; try discriminate.
    destruct (f_loadCh f); [| discriminate].
    injection H as <-. auto.
  - destruct (st_filter s) as [f |]; [| discriminate].
    destruct (st_loaders s !! i) as [[| j |] |]; try discriminate.
    destruct (f_inCh f); [| discriminate].
    destruct (filter_got_job f j); [| discriminate].
    injection H as <-. auto.
  - destruct (st_filter s) as [f |]; [| discriminate].
    destruct (st_checkers s !! k') as [[| fr | te' |] |] eqn:Hk'; try discriminate.
    destruct (f_outCh f); [| discriminate].
    injection H as H. split.
    + apply checker_got_job_frame in H as [-> _]. exact Hd.
    + eapply (checker_got_job_other (with_filter s (filter_sent_job f)) s' k' k);
        [exact Hk' | exact Hk | discriminate | exact H].
  - destruct (st_checkers s !! k') as [[| fr | te' |] |] eqn:Hk'; try discriminate.
    destruct (cf_todo fr) as [| b rest]; [discriminate |].
    simpl in H. injection H as <-. split; [exact Hd |]. cbn [st_checkers].
    rewrite list_lookup_insert_ne; [exact Hk | congruence].
  - contradiction.
  - destruct (st_filter s) as [f |]; [| discriminate].
    rewrite Hd in H. discriminate.
  - rewrite Hd in H.
    destruct (st_loaders s !! i) as [[| j |] |]; try discriminate;
      destruct (st_filter s) as [f |]; try discriminate.
    injection H as <-. auto.
  - rewrite Hd in H.
    destruct (st_checkers s !! k') as [[| fr | te' |] |] eqn:Hk'; try discriminate;
      destruct (st_filter s) as [f |]; try discriminate.
    injection H as <-. split; [exact Hd |]. unfold with_checker. cbn [st_checkers].
    rewrite list_lookup_insert_ne; [exact Hk | congruence].
Qed.

(** X8. Once [checkTree] has found an error in a tree, the [TreeError] is
    never delivered and [Structure] does not return until the caller closes
    [done]. *)
Theorem tree_error_blocks_return (sched : list action) (s s' : state) (k : nat)
    (te : TreeError) :
  st_done s = false -> st_checkers s !! k = Some (CWaitOut te) ->
  CloseDone ∉ sched ->
  run LoadTree sched s = Some (Ok s') ->
  st_checkers s' !! k = Some (CWaitOut te) /\ Structure_returned s' = false.
Proof.
  revert s. induction sched as [| a rest IH]; intros s Hd Hk Hn Hrun; cbn [run] in Hrun.
  - injection Hrun as <-. split; [exact Hk |].
    unfold Structure_returned. destruct (st_filter s); [reflexivity |].
    apply andb_false_intro2. apply not_true_is_false. intros Hall.
    rewrite forallb_forall in Hall. specialize (Hall (CWaitOut te)).
    apply list_elem_of_lookup_2, list_elem_of_In in Hk. specialize (Hall Hk).
    discriminate.
  - apply not_elem_of_cons in Hn as [Ha Hn].
    destruct (step LoadTree a s) as [[s1 |] |] eqn:E; try discriminate.
    destruct (tree_error_step a s s1 k te (not_eq_sym Ha) Hd Hk E) as [Hd1 Hk1].
    apply (IH s1); assumption.
Qed.
End TreeErrorStays.

Lemma tree_error_blocks_return_witness :
  exists te s',
    st_checkers ex_unindexed_stuck !! 0%nat = Some (CWaitOut te) /\
    run ex_unindexed_LoadTree (map LoaderReturn (seq 0 defaultParallelism))
        ex_unindexed_stuck = Some (Ok s') /\
    st_checkers s' !! 0%nat = Some (CWaitOut te) /\ Structure_returned s' = false.
Proof.
  eexists _, _. split; [vm_compute; reflexivity |]. split; [vm_compute; reflexivity |].
  apply (tree_error_blocks_return ex_unindexed_LoadTree
           (map LoaderReturn (seq 0 defaultParallelism)) ex_unindexed_stuck).
  - vm_compute. reflexivity.
  - vm_compute. reflexivity.
  - apply (bool_decide_unpack _). vm_compute. exact I.
  - vm_compute. reflexivity.
Defined.

(** ** Structure: when every tree loads *)

Section NoPanic.
Variable LoadTree : ID -> option Tree * option error.

Lemma filter_top_loaded (f1 f' : filterState) :
  (f_outCh f1 = true -> job_loaded LoadTree (f_job f1)) ->
  filter_top f1 = FRun f' -> f_outCh f' = true -> job_loaded LoadTree (f_job f').
Proof.
  intros Hj Htop Ho.
  destruct (filter_top_cases f1) as [(Hex & _) | (f2 & Hrun & _ & Ho2 & Hj2 & _)].
  - rewrite Hex in Htop. discriminate.
  - rewrite Hrun in Htop. injection Htop as <-. rewrite Hj2. apply Hj. congruence.
Qed.

Lemma jobs_loaded_step (a : action) (s s' : state) :
  jobs_loaded LoadTree s -> step LoadTree a s = Some (Ok s') ->
  jobs_loaded LoadTree s'.
Proof.
  intros [Hls Hfj] H.
  destruct a as [i | i | k | k | | | i | k]; unfold step in H.
  - destruct (st_filter s) as [f |] eqn:Hf; [| discriminate].
    destruct (st_loaders s !! i) as [[| j |] |] eqn:Hi; try discriminate.
    destruct (f_loadCh f) eqn:Hl; [| discriminate].
    injection H as <-. split; cbn [with_loader with_filter st_loaders st_filter].
    + apply loaders_insert_loaded; [exact Hls |].
      intros j [= <-]. apply loadTreeWorker_load_loaded.
    + intros f' Htop. eapply filter_top_loaded; [| exact Htop].
      cbn [f_outCh f_job]. apply Hfj. reflexivity.
  - destruct (st_filter s) as [f |] eqn:Hf; [| discriminate].
    destruct (st_loaders s !! i) as [[| j |] |] eqn:Hi; try discriminate.
    destruct (f_inCh f); [| discriminate].
    unfold filter_got_job in H. destruct (job_Tree j) as [t |]; [| discriminate].
    injection H as <-. split; cbn [with_loader with_filter st_loaders st_filter].
    + apply loaders_insert_loaded; [exact Hls | discriminate].
    + intros f' Htop. eapply filter_top_loaded; [| exact Htop].
      cbn [f_outCh f_job]. intros _. eapply Hls, Hi.
  - destruct (st_filter s) as [f |] eqn:Hf; [| discriminate].
    destruct (st_checkers s !! k) as [[| fr | te |] |]; try discriminate.
    destruct (f_outCh f); [| discriminate].
    injection H as H. apply checker_got_job_walk in H as (_ & Hf' & Hl' & _).
    cbn [with_filter st_loaders st_filter] in Hf', Hl'.
    split; [rewrite Hl'; exact Hls |]. rewrite Hf'.
    intros f' Htop. eapply filter_top_loaded; [| exact Htop].
    cbn [f_outCh]. discriminate.
  - destruct (st_checkers s !! k) as [[| fr | te |] |]; try discriminate.
    destruct (cf_todo fr) as [| b rest]; [discriminate |].
    simpl in H. injection H as <-. split; assumption.
  - injection H as <-. split; assumption.
  - destruct (st_filter s) as [f |]; [| discriminate].
    destruct (st_done s); [| discriminate].
    injection H as <-. split; [exact Hls | discriminate].
  - assert (Hnew : forall s1, s1 = with_loader s i LExit -> jobs_loaded LoadTree s1).
    { intros s1 ->. split; cbn [with_loader st_loaders st_filter]; [| exact Hfj].
      apply loaders_insert_loaded; [exact Hls | discriminate]. }
    destruct (st_loaders s !! i) as [[| j |] |]; try discriminate;
      destruct (st_filter s) as [f |]; try discriminate;
      try (destruct (st_done s); [| discriminate]);
      injection H as <-; apply Hnew; reflexivity.
  - assert (Hnew : forall s1, s1 = with_checker s k CExit -> jobs_loaded LoadTree s1).
    { intros s1 ->. split; assumption. }
    destruct (st_checkers s !! k) as [[| fr | te |] |]; try discriminate;
      destruct (st_filter s) as [f |]; try discriminate;
      try (destruct (st_done s); [| discriminate]);
      injection H as <-; apply Hnew; reflexivity.
Qed.

Lemma jobs_loaded_init (c : Checker) (h : heap) (trees : list ID) :
  jobs_loaded LoadTree (Structure_init c h trees).
Proof.
  split; unfold Structure_init; cbn [st_loaders st_filter].
  - intros i j Hi. apply lookup_replicate in Hi as [Hi _]. discriminate.
  - intros f' Htop. eapply filter_top_loaded; [| exact Htop].
    cbn [f_outCh]. discriminate.
Qed.

Lemma step_no_panic (a : action) (s : state) :
  (forall id, (LoadTree id).1 <> None) -> jobs_loaded LoadTree s ->
  step LoadTree a s <> Some Panic.
Proof.
  intros Hload [Hls Hfj] H.
  destruct a as [i | i | k | k | | | i | k]; unfold step in H.
  - destruct (st_filter s) as [f |]; [| discriminate].
    destruct (st_loaders s !! i) as [[| j |] |]; try discriminate.
    destruct (f_loadCh f); discriminate.
  - destruct (st_filter s) as [f |]; [| discriminate].
    destruct (st_loaders s !! i) as [[| j |] |] eqn:Hi; try discriminate.
    destruct (f_inCh f); [| discriminate].
    unfold filter_got_job in H. destruct (job_Tree j) as [t |] eqn:Ht; [discriminate |].
    apply (Hload (job_ID j)). rewrite <- (Hls i j Hi). exact Ht.
  - destruct (st_filter s) as [f |] eqn:Hf; [| discriminate].
    destruct (st_checkers s !! k) as [[| fr | te |] |]; try discriminate.
    destruct (f_outCh f) eqn:Ho; [| discriminate].
    injection H as H. unfold checker_got_job in H.
    destruct (bool_decide _); [discriminate |].
    cbn [with_filter st_heap] in H.
    destruct (job_Tree (f_job f)) as [t |] eqn:Ht.
    + unfold checkTree_enter, alloc in H.
      destruct (checkTree_nodes _ _ _ _ _) in H. discriminate.
    + apply (Hload (job_ID (f_job f))). rewrite <- (Hfj f eq_refl Ho). exact Ht.
  - destruct (st_checkers s !! k) as [[| fr | te |] |]; try discriminate.
    destruct (cf_todo fr) as [| b rest]; discriminate.
  - discriminate.
  - destruct (st_filter s) as [f |]; [| discriminate].
    destruct (st_done s); discriminate.
  - destruct (st_loaders s !! i) as [[| j |] |]; try discriminate;
      destruct (st_filter s) as [f |]; try discriminate;
      destruct (st_done s); discriminate.
  - destruct (st_checkers s !! k) as [[| fr | te |] |]; try discriminate;
      destruct (st_filter s) as [f |]; try discriminate;
      destruct (st_done s); discriminate.
Qed.

(** X9. When every tree that is asked for loads, no run of the pipeline
    panics, whatever the schedule and whether cancelled or not: a nil tree is
    the only way to a panic. *)
Theorem Structure_never_panics (c : Checker) (h : heap) (trees : list ID)
    (sched : list action) :
  (forall id, (LoadTree id).1 <> None) ->
  run LoadTree sched (Structure_init c h trees) <> Some Panic.
Proof.
  intros Hload. pose proof (jobs_loaded_init c h trees) as Hinit.
  revert Hinit. generalize (Structure_init c h trees).
  induction sched as [| a rest IH]; intros s Hinv; cbn [run]; [discriminate |].
  destruct (step LoadTree a s) as [[s1 |] |] eqn:E.
  - apply IH. eapply jobs_loaded_step; eauto.
  - exfalso. eapply step_no_panic; eauto.
  - discriminate.
Qed.
End NoPanic.

Lemma Structure_never_panics_witness :
  run ex_empty_LoadTree [SendID 0; SendJob 0; SendCheck 0; CloseDone; FilterReturn]
      (Structure_init New [] [11; 12]) <> Some Panic.
Proof.
  apply (Structure_never_panics ex_empty_LoadTree New [] [11; 12]).
  intros id. discriminate.
Defined.

(** ** Structure: what the filter keeps while it runs *)

Section FilterInvariant.
Variable LoadTree : ID -> option Tree * option error.

Lemma walk_inv_run (c : Checker) (h : heap) (trees : list ID)
    (sched : list action) (s : state) :
  CloseDone ∉ sched ->
  run LoadTree sched (Structure_init c h trees) = Some (Ok s) ->
  walk_inv LoadTree trees s.
Proof.
  intros Hn Hrun. pose proof (walk_init LoadTree trees c h) as Hinit.
  revert Hinit Hn Hrun. generalize (Structure_init c h trees).
  induction sched as [| a rest IH]; intros s0 Hinit Hn Hrun; cbn [run] in Hrun.
  - injection Hrun as <-. exact Hinit.
  - apply not_elem_of_cons in Hn as [Ha Hn].
    destruct (step LoadTree a s0) as [[s1 |] |] eqn:E; try discriminate.
    apply (IH s1); auto. eapply walk_step; eauto.
Qed.

(** X10. While the filter runs and [done] is open, [outstandingLoadTreeJobs]
    is the number of loaders that hold a loaded job, between 0 and the size of
    the pool, and the filter listens for a job exactly when it holds none. *)
Theorem filter_outstanding (c : Checker) (h : heap) (trees : list ID)
    (sched : list action) (s : state) (f : filterState) :
  CloseDone ∉ sched ->
  run LoadTree sched (Structure_init c h trees) = Some (Ok s) ->
  st_filter s = FRun f ->
  f_outstanding f = Z.of_nat (length (loader_ids (st_loaders s))) /\
  (0 <= f_outstanding f <= Z.of_nat defaultParallelism)%Z /\
  f_inCh f = negb (f_outCh f).
Proof.
  intros Hn Hrun Hf.
  destruct (walk_inv_run c h trees sched s Hn Hrun) as (_ & Hlen & _ & Hfil).
  rewrite Hf in Hfil. destruct Hfil as (Hio & _ & Hout & _).
  pose proof (loader_ids_length (st_loaders s)) as Hle. rewrite Hlen in Hle.
  split; [exact Hout |]. split; [lia | exact Hio].
Qed.
End FilterInvariant.

Lemma filter_outstanding_witness :
  exists s f,
    run diamond_LoadTree (take 4 diamond_sched)
        (Structure_init diamond_checker [] [11; 12; 13]) = Some (Ok s) /\
    st_filter s = FRun f /\
    f_outstanding f = Z.of_nat (length (loader_ids (st_loaders s))) /\
    (0 <= f_outstanding f <= Z.of_nat defaultParallelism)%Z /\
    f_inCh f = negb (f_outCh f).
Proof.
  eexists _, _. split; [vm_compute; reflexivity |]. split; [reflexivity |].
  eapply (filter_outstanding diamond_LoadTree diamond_checker [] [11; 12; 13]
            (take 4 diamond_sched)).
  - apply (bool_decide_unpack _). vm_compute. exact I.
  - vm_compute. reflexivity.
  - reflexivity.
Defined.

(** ** Structure: a cycle of trees *)

Lemma occurrences_Permutation (t : ID) (l1 l2 : list ID) :
  l1 ≡ₚ l2 -> occurrences t l1 = occurrences t l2.
Proof. intros Hp. unfold occurrences. rewrite Hp. reflexivity. Qed.

Lemma occurrences_eq_Permutation (l1 : list ID) :
  forall l2, (forall t, occurrences t l1 = occurrences t l2) -> l1 ≡ₚ l2.
Proof.
  induction l1 as [| x l1 IH]; intros l2 Hocc.
  - destruct l2 as [| y l2]; [reflexivity |].
    specialize (Hocc y). rewrite occurrences_nil, occurrences_cons in Hocc.
    rewrite decide_True in Hocc by reflexivity. lia.
  - assert (Hx : x ∈ l2).
    { apply occurrences_elem. rewrite <- Hocc, occurrences_cons.
      rewrite decide_True by reflexivity. lia. }
    apply elem_of_Permutation in Hx as [l2' Hp]. rewrite Hp. constructor.
    apply IH. intros t. specialize (Hocc t).
    rewrite (occurrences_Permutation t _ _ Hp), !occurrences_cons in Hocc. lia.
Qed.

Lemma count_in_app (S : gset ID) (l1 l2 : list ID) :
  count_in S (l1 ++ l2) = (count_in S l1 + count_in S l2)%nat.
Proof. unfold count_in. rewrite filter_app, length_app. reflexivity. Qed.

Lemma count_in_elem (S : gset ID) (l : list ID) (x : ID) :
  x ∈ l -> x ∈ S -> (1 <= count_in S l)%nat.
Proof.
  intros Hl HS. unfold count_in.
  assert (Hf : x ∈ filter (fun y => y ∈ S) l) by (apply list_elem_of_filter; auto).
  destruct (filter (fun y => y ∈ S) l); [inversion Hf | simpl; lia].
Qed.

Section Cycle.
Variable LoadTree : ID -> option Tree * option error.

(** When every tree of [S] has a subtree in [S], the subtrees of a list of
    trees hold at least as many members of [S] as the list. *)
Lemma count_in_children (S : gset ID) (l : list ID) :
  (forall x, x ∈ S -> exists y, y ∈ children LoadTree x /\ y ∈ S) ->
  (count_in S l <= count_in S (flat_map (children LoadTree) l))%nat.
Proof.
  intros Hclosed. induction l as [| x l IH]; [reflexivity |].
  cbn [flat_map]. rewrite count_in_app.
  change (x :: l) with ([x] ++ l). rewrite count_in_app.
  assert (Hx : (count_in S [x] <= count_in S (children LoadTree x))%nat); [| lia].
  unfold count_in at 1. destruct (decide (x ∈ S)) as [Hin | Hout].
  - rewrite filter_cons_True by exact Hin. simpl.
    destruct (Hclosed x Hin) as (y & Hy & HyS). eapply count_in_elem; eauto.
  - rewrite filter_cons_False by exact Hout. simpl. lia.
Qed.

(** X11. The filter does not remember the trees it has sent to the loaders.
    When a root lies in a set of trees each of which has a subtree in the set
    (a cycle), the walk goes round for ever: the filter never returns, and
    neither does [Structure], unless the caller closes [done]. *)
Theorem Structure_cycle_never_returns (S : gset ID) (c : Checker) (h : heap)
    (trees : list ID) (sched : list action) (s : state) (r : ID) :
  r ∈ trees -> r ∈ S ->
  (forall x, x ∈ S -> exists y, y ∈ children LoadTree x /\ y ∈ S) ->
  CloseDone ∉ sched ->
  run LoadTree sched (Structure_init c h trees) = Some (Ok s) ->
  st_filter s <> FExit /\ Structure_returned s = false.
Proof.
  intros Hr HrS Hclosed Hn Hrun.
  assert (Hne : st_filter s <> FExit).
  { intros Hexit.
    pose proof (walk_complete LoadTree trees c h sched s Hn Hrun Hexit) as Hdone.
    assert (Hperm : st_received s
                    ≡ₚ trees ++ flat_map (children LoadTree) (st_received s)).
    { apply occurrences_eq_Permutation. intros t.
      rewrite occurrences_app. apply Hdone. }
    assert (Hcnt : count_in S (st_received s)
                   = count_in S (trees ++ flat_map (children LoadTree) (st_received s))).
    { unfold count_in. rewrite <- Hperm. reflexivity. }
    rewrite count_in_app in Hcnt.
    pose proof (count_in_elem S trees r Hr HrS) as H1.
    pose proof (count_in_children S (st_received s) Hclosed) as H2. lia. }
  split; [exact Hne |]. unfold Structure_returned.
  destruct (st_filter s); [reflexivity | contradiction].
Qed.
End Cycle.

Lemma Structure_cycle_never_returns_witness :
  exists s,
    run ex_cyclic_LoadTree [SendID 0; SendJob 0; SendCheck 0; SendID 1; SendJob 1; SendCheck 0]
        (Structure_init New [] [11]) = Some (Ok s) /\
    st_filter s <> FExit /\ Structure_returned s = false.
Proof.
  eexists. split; [vm_compute; reflexivity |].
  apply (Structure_cycle_never_returns ex_cyclic_LoadTree {[11]} New [] [11]
           [SendID 0; SendJob 0; SendCheck 0; SendID 1; SendJob 1; SendCheck 0] _ 11).
  - left.
  - apply elem_of_singleton. reflexivity.
  - intros x Hx. apply elem_of_singleton in Hx as ->. exists 11.
    split; [left | apply elem_of_singleton; reflexivity].
  - apply (bool_decide_unpack _). vm_compute. exact I.
  - vm_compute. reflexivity.
Defined.

(** ** Structure: a repository without faults *)

Lemma checker_ok_stop (c : Checker) (b : bool) (p : checkerProc) :
  checker_ok c true p -> checker_ok c b p.
Proof. destruct p; simpl; auto. discriminate. Qed.

Lemma loader_ok_stop (ls : list loaderProc) (b : bool) :
  Forall (loader_ok true) ls -> (b = false -> loader_ids ls = []) ->
  Forall (loader_ok b) ls.
Proof.
  induction ls as [| p ls IH]; intros Hall Hids; [constructor |].
  apply Forall_cons in Hall as [Hp Hall]. rewrite loader_ids_cons in Hids.
  constructor.
  - destruct p as [| j |]; simpl in *.
    + exact I.
    + destruct b; [reflexivity |]. specialize (Hids eq_refl). discriminate.
    + discriminate.
  - apply IH; [exact Hall |]. intros Hb. specialize (Hids Hb).
    apply app_eq_nil in Hids as [_ H]. exact H.
Qed.

Lemma filter_top_live (f1 f : filterState) :
  filter_top f1 = FRun f -> filter_live f.
Proof.
  unfold filter_top, filter_live.
  set (f2 := match f_loadCh f1, f_backlog f1 with
             | false, id :: rest => _
             | _, _ => f1
             end).
  destruct (f_loadCh f2) eqn:Hl; simpl.
  - intros [= <-]. auto.
  - destruct (f_outCh f2) eqn:Ho; simpl.
    + intros [= <-]. auto.
    + destruct (f_outstanding f2 =? 0)%Z eqn:Hz; [discriminate |].
      intros [= <-]. right. right. apply Z.eqb_neq, Hz.
Qed.

Section SoundTop.
Variable LoadTree : ID -> option Tree * option error.
Variable trees : list ID.

(** What the top of the loop of the filter leaves of a walk without
    faults. *)
Lemma filter_top_sound (c : Checker) (f1 : filterState) (ls : list loaderProc)
    (cs : list checkerProc) (received : list ID) :
  filter_ok LoadTree trees f1 ls received ->
  Forall (checker_ok c true) cs -> Forall (loader_ok true) ls ->
  let b := match filter_top f1 with FRun _ => true | FExit => false end in
  Forall (checker_ok c b) cs /\ Forall (loader_ok b) ls /\
  (forall f, filter_top f1 = FRun f -> filter_live f) /\
  (filter_top f1 = FExit -> loader_ids ls = []).
Proof.
  intros (_ & _ & Hout & _) Hcs Hls b.
  assert (Hexit : filter_top f1 = FExit -> loader_ids ls = []).
  { intros Hex. destruct (filter_top_cases f1) as [(_ & _ & _ & _ & Hz) | (f & Hrun & _)].
    - rewrite Hz in Hout. destruct (loader_ids ls); [reflexivity | simpl in Hout; lia].
    - rewrite Hrun in Hex. discriminate. }
  split; [| split; [| split; [apply filter_top_live | exact Hexit]]].
  - eapply Forall_impl; [exact Hcs |]. intros p. apply checker_ok_stop.
  - apply loader_ok_stop; [exact Hls |]. intros Hb. apply Hexit.
    unfold b in Hb. destruct (filter_top f1); [discriminate | reflexivity].
Qed.
End SoundTop.

Section SoundInvariant.
Variable LoadTree : ID -> option Tree * option error.
Variable trees : list ID.
Variable c : Checker.

Lemma sound_build (s' : state) (f1 : filterState) :
  st_filter s' = filter_top f1 ->
  blobs (st_c s') = blobs c ->
  length (st_checkers s') = defaultParallelism ->
  filter_ok LoadTree trees f1 (st_loaders s') (st_received s') ->
  Forall (checker_ok c true) (st_checkers s') ->
  Forall (loader_ok true) (st_loaders s') ->
  sound_inv c s'.
Proof.
  intros Hf Hb Hlen Hok Hcs Hls.
  destruct (filter_top_sound LoadTree trees c f1 _ _ _ Hok Hcs Hls)
    as (H1 & H2 & H3 & H4).
  unfold sound_inv, filter_running. rewrite Hf. auto 10.
Qed.

Lemma filter_ok_init :
  filter_ok LoadTree trees
    {| f_backlog := trees; f_inCh := true; f_outCh := false;
       f_loadCh := false; f_job := zero_treeJob;
       f_nextTreeID := zeroID; f_outstanding := 0 |}
    (replicate defaultParallelism LWaitIn) [].
Proof.
  unfold filter_ok, armed_id, slot_id.
  cbn [f_backlog f_inCh f_outCh f_loadCh f_job f_nextTreeID f_outstanding].
  rewrite loader_ids_replicate.
  split; [reflexivity |]. split; [discriminate |]. split; [reflexivity |].
  intros t. simpl. rewrite !occurrences_nil. lia.
Qed.

Lemma sound_init (h : heap) : sound_inv c (Structure_init c h trees).
Proof.
  eapply sound_build.
  - reflexivity.
  - reflexivity.
  - apply length_replicate.
  - apply filter_ok_init.
  - apply Forall_replicate. exact I.
  - apply Forall_replicate. exact I.
Qed.

Lemma checker_after_ok (fr : checkFrame) (b : bool) :
  cf_errs fr = [] -> (forall x, x ∈ cf_todo fr -> x ∈ blobs c) ->
  checker_ok c b (checker_after fr).
Proof.
  intros He Ht. unfold checker_after.
  destruct (cf_todo fr) as [| x rest] eqn:E.
  - rewrite He. exact I.
  - simpl. rewrite E. split; [discriminate | auto].
Qed.

Lemma checker_got_job_sound (s0 s' : state) (k : nat) (j : treeJob) :
  sound_repo LoadTree c -> job_loaded LoadTree j ->
  blobs (st_c s0) = blobs c ->
  Forall (checker_ok c true) (st_checkers s0) ->
  checker_got_job s0 k j = Ok s' ->
  Forall (checker_ok c true) (st_checkers s') /\
  length (st_checkers s') = length (st_checkers s0) /\
  blobs (st_c s') = blobs c.
Proof.
  intros Hsound Hj Hb Hcs. unfold checker_got_job.
  destruct (bool_decide (0 < refcount (blobRefs (st_c s0)) (job_ID j))).
  - intros [= <-]. simpl. auto.
  - destruct (checkTree_enter (st_heap s0) (job_ID j) (job_Tree j)) as [[h' fr] |] eqn:E;
      [| discriminate].
    intros [= <-]. cbn [st_checkers st_c blobs set_blobRefs].
    split; [| split; [apply length_insert | exact Hb]].
    apply Forall_insert; [exact Hcs |].
    destruct (Hsound (job_ID j)) as (t & Ht & Hdirs & Hblobs).
    unfold job_loaded in Hj. rewrite Ht in Hj. rewrite Hj in E.
    pose proof (checkTree_enter_todo _ _ _ _ _ E) as Htodo.
    unfold checkTree_enter, alloc in E. rewrite checkTree_nodes_exact in E.
    injection E as _ <-. cbn [cf_todo] in Htodo.
    apply checker_after_ok; cbn [cf_errs cf_todo app].
    + destruct (bad_dirs_from 0 (Nodes t)) as [| i l] eqn:Ebad; [reflexivity |].
      exfalso. assert (Hi : i ∈ bad_dirs_from 0 (Nodes t)) by (rewrite Ebad; left).
      apply bad_dirs_from_elem in Hi as (n & _ & Hn & Hbad).
      rewrite (Hdirs n) in Hbad; [discriminate |].
      eapply list_elem_of_lookup_2, Hn.
    + exact Hblobs.
Qed.

Lemma sound_step (a : action) (s s' : state) :
  sound_repo LoadTree c -> a <> CloseDone ->
  walk_inv LoadTree trees s -> sound_inv c s ->
  step LoadTree a s = Some (Ok s') -> sound_inv c s'.
Proof.
  intros Hsound Ha (Hd & Hlen & Hjobs & Hfil) (Hb & Hclen & Hcs & Hls & Hlive & Hex) H.
  unfold filter_running in Hcs, Hls.
  destruct a as [i | i | k | k | | | i | k]; unfold step in H.
  - destruct (st_filter s) as [f |] eqn:Hf; [| discriminate].
    destruct (st_loaders s !! i) as [[| j |] |] eqn:Hi; try discriminate.
    destruct (f_loadCh f) eqn:Hl; [| discriminate].
    injection H as <-. eapply sound_build.
    + reflexivity.
    + exact Hb.
    + exact Hclen.
    + cbn [with_loader with_filter st_loaders st_received].
      apply walk_SendID; assumption.
    + exact Hcs.
    + cbn [with_loader st_loaders]. apply Forall_insert; [exact Hls | reflexivity].
  - destruct (st_filter s) as [f |] eqn:Hf; [| discriminate].
    destruct (st_loaders s !! i) as [[| j |] |] eqn:Hi; try discriminate.
    destruct (f_inCh f) eqn:Hin; [| discriminate].
    unfold filter_got_job in H. destruct (job_Tree j) as [t |] eqn:Ht; [| discriminate].
    injection H as <-. eapply sound_build.
    + reflexivity.
    + exact Hb.
    + exact Hclen.
    + cbn [with_loader with_filter st_loaders st_received].
      eapply walk_SendJob; eauto.
    + exact Hcs.
    + cbn [with_loader st_loaders]. apply Forall_insert; [exact Hls | exact I].
  - destruct (st_filter s) as [f |] eqn:Hf; [| discriminate].
    destruct (st_checkers s !! k) as [[| fr | te |] |]; try discriminate.
    destruct (f_outCh f) eqn:Ho; [| discriminate].
    injection H as H.
    pose proof (checker_got_job_walk _ _ _ _ H) as (Hr & Hf' & Hl' & _).
    destruct Hfil as (Hio & Hjob & Hout & Heq).
    destruct (checker_got_job_sound (with_filter s (filter_sent_job f)) s' k (f_job f)
                Hsound (Hjob Ho) Hb Hcs H)
      as (Hcs' & Hlen' & Hb').
    cbn [with_filter st_loaders st_filter st_received st_checkers] in *.
    eapply sound_build.
    + rewrite Hf'. reflexivity.
    + exact Hb'.
    + rewrite Hlen'. exact Hclen.
    + rewrite Hl', Hr. apply walk_SendCheck; [| exact Ho].
      repeat split; assumption.
    + exact Hcs'.
    + rewrite Hl'. exact Hls.
  - destruct (st_checkers s !! k) as [[| fr | te |] |] eqn:Hk; try discriminate.
    destruct (cf_todo fr) as [| b rest] eqn:Hfr; [discriminate |].
    simpl in H. injection H as <-.
    unfold sound_inv, filter_running.
    cbn [st_c st_checkers st_loaders st_filter blobs set_blobRefs].
    split; [exact Hb |]. split; [rewrite length_insert; exact Hclen |].
    split; [| auto].
    apply Forall_insert; [exact Hcs |].
    pose proof (Forall_lookup_1 _ _ _ _ Hcs Hk) as (_ & He & Ht).
    apply checker_after_ok; cbn [cf_errs cf_todo].
    + rewrite decide_True; [exact He |]. rewrite Hb. apply Ht. rewrite Hfr. left.
    + intros x Hx. apply Ht. rewrite Hfr. right. exact Hx.
  - contradiction.
  - destruct (st_filter s) as [f |]; [| discriminate].
    rewrite Hd in H. discriminate.
  - rewrite Hd in H.
    destruct (st_loaders s !! i) as [[| j |] |] eqn:Hi; try discriminate;
      destruct (st_filter s) as [f |] eqn:Hf; try discriminate.
    injection H as <-. unfold sound_inv, filter_running.
    cbn [with_loader st_c st_checkers st_loaders st_filter]. rewrite Hf.
    split; [exact Hb |]. split; [exact Hclen |]. split; [exact Hcs |].
    split; [apply Forall_insert; [exact Hls | reflexivity] |].
    split; [discriminate |]. intros _.
    pose proof (loader_ids_insert_length (st_loaders s) i LWaitIn LExit Hi) as HL.
    rewrite (Hex eq_refl) in HL. simpl in HL.
    destruct (loader_ids (<[i := LExit]> (st_loaders s))); [reflexivity | simpl in HL; lia].
  - rewrite Hd in H.
    destruct (st_checkers s !! k) as [[| fr | te |] |] eqn:Hk; try discriminate;
      destruct (st_filter s) as [f |] eqn:Hf; try discriminate.
    injection H as <-. unfold sound_inv, filter_running.
    cbn [with_checker st_c st_checkers st_loaders st_filter]. rewrite Hf.
    split; [exact Hb |]. split; [rewrite length_insert; exact Hclen |].
    split; [apply Forall_insert; [exact Hcs | reflexivity] |]. auto.
Qed.
End SoundInvariant.

Lemma existsb_lookup {A} (f : A -> bool) (l : list A) :
  existsb f l = true -> exists i x, l !! i = Some x /\ f x = true.
Proof.
  induction l as [| y l IH]; [discriminate |]. simpl.
  destruct (f y) eqn:E.
  - intros _. exists 0%nat, y. auto.
  - intros H. destruct (IH H) as (i & x & Hi & Hx). exists (S i), x. auto.
Qed.

Lemma existsb_false_lookup {A} (f : A -> bool) (l : list A) :
  existsb f l = false -> forall i x, l !! i = Some x -> f x = false.
Proof.
  induction l as [| y l IH]; intros H i x Hi; [discriminate |].
  simpl in H. apply orb_false_elim in H as [Hy Hl].
  destruct i as [| i]; simpl in Hi.
  - injection Hi as <-. exact Hy.
  - eapply IH; eauto.
Qed.

Lemma forallb_false_lookup {A} (f : A -> bool) (l : list A) :
  forallb f l = false -> exists i x, l !! i = Some x /\ f x = false.
Proof.
  induction l as [| y l IH]; [discriminate |]. simpl.
  destruct (f y) eqn:E.
  - intros H. destruct (IH H) as (i & x & Hi & Hx). exists (S i), x. auto.
  - intros _. exists 0%nat, y. auto.
Qed.

Lemma loader_ids_none (ls : list loaderProc) :
  (forall i x, ls !! i = Some x -> is_LWaitOut x = false) -> loader_ids ls = [].
Proof.
  induction ls as [| p ls IH]; intros H; [reflexivity |].
  rewrite loader_ids_cons. rewrite IH.
  - specialize (H 0%nat p eq_refl). destruct p; [reflexivity | discriminate | reflexivity].
  - intros i x Hi. apply (H (S i) x Hi).
Qed.

Section SoundProgress.
Variable LoadTree : ID -> option Tree * option error.
Variable trees : list ID.
Variable c : Checker.
Hypothesis Hsound : sound_repo LoadTree c.

Lemma sound_job_tree (j : treeJob) :
  job_loaded LoadTree j -> exists t, job_Tree j = Some t.
Proof.
  intros Hj. destruct (Hsound (job_ID j)) as (t & Ht & _).
  exists t. rewrite Hj. exact Ht.
Qed.

Lemma checker_got_job_ok (s0 : state) (k : nat) (j : treeJob) :
  job_loaded LoadTree j -> exists s', checker_got_job s0 k j = Ok s'.
Proof.
  intros Hj. destruct (sound_job_tree j Hj) as [t Ht]. unfold checker_got_job.
  destruct (bool_decide _); [eauto |]. rewrite Ht.
  unfold checkTree_enter, alloc. destruct (checkTree_nodes _ _ _ _ _). eauto.
Qed.

(** A state of a walk without faults is the end of [Structure] or has an
    enabled action. *)
Lemma sound_progress (s : state) :
  walk_inv LoadTree trees s -> sound_inv c s ->
  Structure_returned s = true \/
  exists a s', a <> CloseDone /\ step LoadTree a s = Some (Ok s').
Proof.
  intros (Hd & Hlen & Hjobs & Hfil) (Hb & Hclen & Hcs & Hls & Hlive & Hex).
  unfold filter_running in Hcs, Hls.
  destruct (st_filter s) as [f |] eqn:Hf.
  - right. destruct Hfil as (Hio & Hjob & Hout & _).
    destruct (f_outCh f) eqn:Ho.
    + destruct (existsb is_CWaitIn (st_checkers s)) eqn:Ew.
      * apply existsb_lookup in Ew as (k & p & Hk & Hp).
        destruct p; try discriminate.
        destruct (checker_got_job_ok (with_filter s (filter_sent_job f)) k (f_job f)
                    (Hjob eq_refl)) as [s' Hs'].
        exists (SendCheck k), s'. split; [discriminate |].
        unfold step. rewrite Hf, Hk, Ho, Hs'. reflexivity.
      * destruct (lookup_lt_is_Some_2 (st_checkers s) 0%nat) as [p Hp];
          [rewrite Hclen; unfold defaultParallelism; lia |].
        pose proof (existsb_false_lookup _ _ Ew _ _ Hp) as Hnw.
        pose proof (Forall_lookup_1 _ _ _ _ Hcs Hp) as Hok.
        destruct p as [| fr | te |]; try discriminate; simpl in Hok;
          [| contradiction].
        destruct Hok as (Htodo & _). destruct (cf_todo fr) as [| b rest] eqn:E;
          [contradiction |].
        eexists (CheckBlob 0), _. split; [discriminate |].
        unfold step. rewrite Hp, E. reflexivity.
    + assert (Hin : f_inCh f = true) by (rewrite Hio; reflexivity).
      destruct (existsb is_LWaitOut (st_loaders s)) eqn:Ew.
      * apply existsb_lookup in Ew as (i & p & Hi & Hp).
        destruct p as [| j |]; try discriminate.
        destruct (sound_job_tree j (Hjobs i j Hi)) as [t Ht].
        eexists (SendJob i), _. split; [discriminate |].
        unfold step, filter_got_job. rewrite Hf, Hi, Hin, Ht. reflexivity.
      * pose proof (loader_ids_none _ (existsb_false_lookup _ _ Ew)) as Hnone.
        rewrite Hnone in Hout. simpl in Hout.
        assert (Hl : f_loadCh f = true).
        { destruct (Hlive f eq_refl) as [H | [H | H]];
            [exact H | congruence | contradiction]. }
        destruct (lookup_lt_is_Some_2 (st_loaders s) 0%nat) as [p Hp];
          [rewrite Hlen; unfold defaultParallelism; lia |].
        pose proof (existsb_false_lookup _ _ Ew _ _ Hp) as Hnw.
        pose proof (Forall_lookup_1 _ _ _ _ Hls Hp) as Hok.
        destruct p as [| j |]; try discriminate.
        eexists (SendID 0), _. split; [discriminate |].
        unfold step. rewrite Hf, Hp, Hl. reflexivity.
  - unfold Structure_returned. rewrite Hf.
    destruct (forallb _ (st_loaders s)) eqn:El.
    + destruct (forallb _ (st_checkers s)) eqn:Ec; [left; reflexivity |].
      right. apply forallb_false_lookup in Ec as (k & p & Hk & Hp).
      pose proof (Forall_lookup_1 _ _ _ _ Hcs Hk) as Hok.
      destruct p as [| fr | te |]; try discriminate; simpl in Hok.
      * eexists (CheckerReturn k), _. split; [discriminate |].
        unfold step. rewrite Hk, Hf. reflexivity.
      * destruct Hok as (Htodo & _). destruct (cf_todo fr) as [| b rest] eqn:E;
          [contradiction |].
        eexists (CheckBlob k), _. split; [discriminate |].
        unfold step. rewrite Hk, E. reflexivity.
      * contradiction.
    + right. apply forallb_false_lookup in El as (i & p & Hi & Hp).
      pose proof (Forall_lookup_1 _ _ _ _ Hls Hi) as Hok.
      destruct p as [| j |]; try discriminate.
      eexists (LoaderReturn i), _. split; [discriminate |].
      unfold step. rewrite Hi, Hf. reflexivity.
Qed.

Lemma sound_run (h : heap) (sched : list action) (s : state) :
  CloseDone ∉ sched ->
  run LoadTree sched (Structure_init c h trees) = Some (Ok s) ->
  walk_inv LoadTree trees s /\ sound_inv c s.
Proof.
  intros Hn Hrun.
  assert (Hinit : walk_inv LoadTree trees (Structure_init c h trees) /\
                  sound_inv c (Structure_init c h trees)).
  { split; [apply walk_init | apply (sound_init LoadTree trees c h)]. }
  revert Hinit Hn Hrun. generalize (Structure_init c h trees).
  induction sched as [| a rest IH]; intros s0 Hinit Hn Hrun; cbn [run] in Hrun.
  - injection Hrun as <-. exact Hinit.
  - apply not_elem_of_cons in Hn as [Ha Hn]. destruct Hinit as [Hw Hs].
    destruct (step LoadTree a s0) as [[s1 |] |] eqn:E; try discriminate.
    apply (IH s1); auto. split.
    + eapply walk_step; eauto.
    + eapply sound_step; eauto.
Qed.
End SoundProgress.

(** X12. On a repository without faults (every tree loads, no dir lacks its
    subtree, every content blob is indexed) the pipeline cannot get stuck:
    whatever it has done so far, either [Structure] has returned or some
    goroutine can take its next step, without the caller closing [done]. *)
Theorem Structure_sound_progress LoadTree (c : Checker) (h : heap)
    (trees : list ID) (sched : list action) (s : state) :
  sound_repo LoadTree c -> CloseDone ∉ sched ->
  run LoadTree sched (Structure_init c h trees) = Some (Ok s) ->
  Structure_returned s = true \/
  exists a s', a <> CloseDone /\ step LoadTree a s = Some (Ok s').
Proof.
  intros Hsound Hn Hrun.
  destruct (sound_run LoadTree trees c Hsound h sched s Hn Hrun) as [Hw Hs].
  eapply sound_progress; eauto.
Qed.


Lemma ex_empty_sound : sound_repo ex_empty_LoadTree New.
Proof.
  intros id. exists {| Nodes := [] |}. split; [reflexivity |].
  split; intros x Hx; inversion Hx.
Qed.

Lemma Structure_sound_progress_witness :
  exists s,
    run ex_empty_LoadTree [SendID 0; SendJob 0] (Structure_init New [] [11; 12])
    = Some (Ok s) /\
    (Structure_returned s = true \/
     exists a s', a <> CloseDone /\ step ex_empty_LoadTree a s = Some (Ok s')).
Proof.
  eexists. split; [vm_compute; reflexivity |].
  apply (Structure_sound_progress ex_empty_LoadTree New [] [11; 12]
           [SendID 0; SendJob 0]).
  - exact ex_empty_sound.
  - apply (bool_decide_unpack _). vm_compute. exact I.
  - vm_compute. reflexivity.
Defined.


(** ** Packs: further properties *)

Section PacksMore.
Variable Test : ID -> bool * option error.

(** Whatever the cancellation, the pool sends only errors of failed
    checks of the IDs it was given. *)
Lemma Packs_workers_sound done (ids : list ID) :
  forall k live k' errs probed,
    Packs_workers Test done k live ids = Some (k', errs, probed) ->
    forall e, e ∈ errs -> exists id, id ∈ ids /\ packIDTester_check Test id = Some e.
Proof.
  induction ids as [| id rest IH]; intros k live k' errs probed H e He; simpl in H.
  - injection H as _ <- _. inversion He.
  - destruct live as [| live']; [discriminate |].
    destruct (packIDTester_check Test id) as [err |] eqn:Hc.
    + destruct (done k).
      * destruct (Packs_workers Test done (S k) live' rest) as [[[k1 e1] p1] |] eqn:E;
          simpl in H; [| discriminate].
        injection H as _ <- _. destruct (IH _ _ _ _ _ E e He) as (x & Hx & Hcx).
        exists x. split; [right; exact Hx | exact Hcx].
      * destruct (Packs_workers Test done (S k) (S live') rest) as [[[k1 e1] p1] |] eqn:E;
          simpl in H; [| discriminate].
        injection H as _ <- _. apply elem_of_cons in He as [-> | He].
        -- exists id. split; [left | exact Hc].
        -- destruct (IH _ _ _ _ _ E e He) as (x & Hx & Hcx).
           exists x. split; [right; exact Hx | exact Hcx].
    + destruct (Packs_workers Test done k (S live') rest) as [[[k1 e1] p1] |] eqn:E;
        simpl in H; [| discriminate].
      injection H as _ <- _. destruct (IH _ _ _ _ _ E e He) as (x & Hx & Hcx).
      exists x. split; [right; exact Hx | exact Hcx].
Qed.

Lemma Packs_orphans_errors_sound done (seen : gset ID) (listing : list ID) :
  forall k orphaned o errs,
    Packs_orphans done k seen listing orphaned = (o, errs) ->
    forall e, e ∈ errs -> exists id, e = orphan_error id /\ id ∈ listing /\ id ∉ seen.
Proof.
  induction listing as [| id rest IH]; intros k orphaned o errs H e He; simpl in H.
  - injection H as _ <-. inversion He.
  - destruct (decide (id ∈ seen)) as [Hs | Hs].
    + destruct (IH _ _ _ _ H e He) as (x & -> & Hx & Hsx).
      exists x. split; [reflexivity |]. split; [right; exact Hx | exact Hsx].
    + destruct (done k).
      * injection H as _ <-. inversion He.
      * destruct (Packs_orphans done (S k) seen rest (orphaned ++ [id])) as [o1 e1] eqn:E.
        injection H as _ <-. apply elem_of_cons in He as [-> | He].
        -- exists id. split; [reflexivity |]. split; [left | exact Hs].
        -- destruct (IH _ _ _ _ E e He) as (x & -> & Hx & Hsx).
           exists x. split; [reflexivity |]. split; [right; exact Hx | exact Hsx].
Qed.

(** X14. Cancelled or not, [Packs] sends nothing but the error of a failed
    check of an indexed pack and the orphan error of a listed pack that no
    index names; it never reports a pack whose probe says it is present. *)
Theorem Packs_sink_sound (listing order : list ID) (done : nat -> bool)
    (c c' : Checker) (sink : list error) (probed : list ID) :
  order ≡ₚ elements (packs c) ->
  Packs Test listing order done c = Some (c', sink, probed) ->
  forall e, e ∈ sink ->
    (exists id, id ∈ packs c /\ packIDTester_check Test id = Some e /\
                Test id <> (true, None)) \/
    (exists id, e = orphan_error id /\ id ∈ listing /\ id ∉ packs c).
Proof.
  intros Hperm Hrun e He.
  apply Packs_unfold in Hrun as (k & errs1 & errs2 & Hw & Ho & _ & ->).
  assert (Hseen : forall x, x ∈ (list_to_set order : gset ID) <-> x ∈ packs c).
  { intros x. rewrite elem_of_list_to_set, Hperm, elem_of_elements. tauto. }
  apply elem_of_app in He as [He | He].
  - left. destruct (Packs_workers_sound done order _ _ _ _ _ Hw e He) as (id & Hid & Hc).
    exists id. split; [rewrite <- Hseen; apply elem_of_list_to_set, Hid |].
    split; [exact Hc |]. intros Ht. unfold packIDTester_check in Hc.
    rewrite Ht in Hc. discriminate.
  - right. destruct (Packs_orphans_errors_sound done _ _ _ _ _ _ Ho e He)
      as (id & -> & Hl & Hs).
    exists id. split; [reflexivity |]. split; [exact Hl |]. rewrite <- Hseen. exact Hs.
Qed.

Lemma Packs_workers_all_present done (ids : list ID) :
  (forall id, id ∈ ids -> Test id = (true, None)) ->
  forall k live, live <> 0%nat ->
    Packs_workers Test done k live ids = Some (k, [], ids).
Proof.
  induction ids as [| id rest IH]; intros Hall k live Hlive; [reflexivity |].
  destruct live as [| live']; [contradiction |]. cbn [Packs_workers].
  unfold packIDTester_check. rewrite (Hall id) by left.
  rewrite IH; [reflexivity | | discriminate].
  intros x Hx. apply Hall. right. exact Hx.
Qed.

Lemma Packs_orphans_none done (seen : gset ID) (listing : list ID) :
  (forall id, id ∈ listing -> id ∈ seen) ->
  forall k orphaned, Packs_orphans done k seen listing orphaned = (orphaned, []).
Proof.
  induction listing as [| id rest IH]; intros Hall k orphaned; [reflexivity |].
  cbn [Packs_orphans]. rewrite decide_True by (apply Hall; left).
  apply IH. intros x Hx. apply Hall. right. exact Hx.
Qed.

(** X15. When every indexed pack is present on the backend and every listed
    pack is indexed, [Packs] completes without sending an error and without
    recording an orphan, cancelled or not. *)
Theorem Packs_no_faults (listing order : list ID) (done : nat -> bool)
    (c : Checker) :
  order ≡ₚ elements (packs c) ->
  (forall id, id ∈ packs c -> Test id = (true, None)) ->
  (forall id, id ∈ listing -> id ∈ packs c) ->
  exists c',
    Packs Test listing order done c = Some (c', [], order) /\
    orphanedPacks c' = orphanedPacks c.
Proof.
  intros Hperm Hpresent Hlisted.
  assert (Hin : forall x, x ∈ order <-> x ∈ packs c).
  { intros x. rewrite Hperm, elem_of_elements. tauto. }
  unfold Packs. rewrite Packs_workers_all_present.
  - cbn [mbind option_bind]. rewrite Packs_orphans_none.
    + eexists. split; reflexivity.
    + intros id Hid. apply elem_of_list_to_set, Hin, Hlisted, Hid.
  - intros id Hid. apply Hpresent, Hin, Hid.
  - discriminate.
Qed.

(** X16. Without cancellation [Packs] appends to [orphanedPacks], in the order
    of the listing, the listed packs that no index names, and writes nothing
    else in the checker: a second run records the same orphans again. *)
Theorem Packs_orphans_appended (listing order : list ID) (done : nat -> bool)
    (c c' : Checker) (sink : list error) (probed : list ID) :
  order ≡ₚ elements (packs c) ->
  (forall k, done k = false) ->
  Packs Test listing order done c = Some (c', sink, probed) ->
  orphanedPacks c' = orphanedPacks c ++ filter (fun id => id ∉ packs c) listing /\
  packs c' = packs c /\ blobs c' = blobs c /\ blobRefs c' = blobRefs c /\
  indexes c' = indexes c /\ masterIndex c' = masterIndex c.
Proof.
  intros Hperm Hdone Hrun. unfold Packs in Hrun.
  destruct (Packs_workers Test done 0 defaultParallelism order) as [[[k e1] pr] |];
    simpl in Hrun; [| discriminate].
  rewrite (Packs_orphans_complete done _ listing Hdone) in Hrun.
  injection Hrun as <- _ _. cbn [set_orphanedPacks orphanedPacks packs blobs blobRefs
                                  indexes masterIndex].
  split; [| auto]. f_equal. apply list_filter_iff. intros x.
  rewrite elem_of_list_to_set, Hperm, elem_of_elements. tauto.
Qed.

Lemma Packs_workers_blocked done (ids : list ID) :
  (forall k, done k = true) ->
  forall k live,
    (live < length (filter (fun id => is_Some (packIDTester_check Test id)) ids))%nat ->
    Packs_workers Test done k live ids = None.
Proof.
  intros Hdone. induction ids as [| id rest IH]; intros k live Hlt;
    [simpl in Hlt; lia |].
  cbn [Packs_workers]. destruct live as [| live']; [reflexivity |].
  rewrite filter_cons in Hlt.
  destruct (packIDTester_check Test id) as [err |] eqn:Hc.
  - rewrite decide_True in Hlt by eauto. cbn [length] in Hlt.
    rewrite Hdone, IH; [reflexivity | lia].
  - rewrite decide_False in Hlt by (intros [x Hx]; discriminate).
    rewrite IH; [reflexivity | exact Hlt].
Qed.

(** X17. The feeding loop of [Packs] does not watch [done]. When more
    indexed packs fail their check than there are workers and every worker
    that has an error to send takes its [<-done] case, all workers return and
    the send on [IDChan] blocks for ever: [Packs] does not complete. *)
Theorem Packs_cancelled_blocks (listing order : list ID) (done : nat -> bool)
    (c : Checker) :
  (forall k, done k = true) ->
  (defaultParallelism
   < length (filter (fun id => is_Some (packIDTester_check Test id)) order))%nat ->
  Packs Test listing order done c = None.
Proof.
  intros Hdone Hlen. unfold Packs.
  rewrite Packs_workers_blocked by assumption. reflexivity.
Qed.
End PacksMore.

Lemma Packs_sink_sound_witness :
  exists c' probed,
    Packs ex_Test ex_listing ex_order after_first ex_packs_checker
    = Some (c', [PackError 52 false (errorString "connection reset")], probed) /\
    ((exists id, id ∈ packs ex_packs_checker /\
        packIDTester_check ex_Test id
        = Some (PackError 52 false (errorString "connection reset")) /\
        ex_Test id <> (true, None)) \/
     (exists id, PackError 52 false (errorString "connection reset") = orphan_error id /\
        id ∈ ex_listing /\ id ∉ packs ex_packs_checker)).
Proof.
  eexists _, _. split; [vm_compute; reflexivity |].
  apply (Packs_sink_sound ex_Test ex_listing ex_order after_first ex_packs_checker _ _ _
           ltac:(reflexivity) ltac:(vm_compute; reflexivity)).
  left.
Defined.

Lemma Packs_no_faults_witness :
  exists c',
    Packs ex_Test [50] (elements (packs ex_present_checker)) after_first
      ex_present_checker
    = Some (c', [], elements (packs ex_present_checker)) /\
    orphanedPacks c' = orphanedPacks ex_present_checker.
Proof.
  apply (Packs_no_faults ex_Test [50] (elements (packs ex_present_checker)) after_first
           ex_present_checker ltac:(reflexivity)).
  - intros id Hid. apply elem_of_elements in Hid.
    replace (elements (packs ex_present_checker)) with [50 : ID] in Hid
      by (vm_compute; reflexivity).
    apply list_elem_of_singleton in Hid as ->. reflexivity.
  - intros id Hid. apply list_elem_of_singleton in Hid as ->.
    apply elem_of_elements.
    replace (elements (packs ex_present_checker)) with [50 : ID]
      by (vm_compute; reflexivity).
    left.
Defined.

Lemma Packs_orphans_appended_witness :
  exists c' sink probed,
    Packs ex_Test ex_listing ex_order never ex_packs_checker = Some (c', sink, probed) /\
    orphanedPacks c'
    = orphanedPacks ex_packs_checker
      ++ filter (fun id => id ∉ packs ex_packs_checker) ex_listing /\
    packs c' = packs ex_packs_checker /\ blobs c' = blobs ex_packs_checker /\
    blobRefs c' = blobRefs ex_packs_checker /\
    indexes c' = indexes ex_packs_checker /\
    masterIndex c' = masterIndex ex_packs_checker.
Proof.
  eexists _, _, _. split; [vm_compute; reflexivity |].
  apply (Packs_orphans_appended ex_Test ex_listing ex_order never ex_packs_checker _ _ _
           ltac:(reflexivity) ltac:(intros k; reflexivity)
           ltac:(vm_compute; reflexivity)).
Defined.

Lemma Packs_cancelled_blocks_witness :
  Packs ex_absent_Test [] (elements (packs ex_absent_checker)) always ex_absent_checker
  = None.
Proof.
  apply (Packs_cancelled_blocks ex_absent_Test [] (elements (packs ex_absent_checker))
           always ex_absent_checker).
  - intros k. reflexivity.
  - vm_compute. lia.
Defined.

(** ** LoadIndex: further properties *)




Lemma LoadIndex_consume_result ParseID (delivered : list indexRes) (c : Checker) :
  (LoadIndex_consume ParseID c delivered).2 = None <->
  forall res, res ∈ delivered -> exists id, ParseID (res_ID res) = inl id.
Proof.
  revert c; induction delivered as [| res rest IH]; intros c; cbn [LoadIndex_consume].
  - split; [intros _ res H; inversion H | reflexivity].
  - destruct (ParseID (res_ID res)) as [id | err] eqn:E.
    + rewrite IH. split.
      * intros H x Hx. apply elem_of_cons in Hx as [-> | Hx]; [eauto | apply H, Hx].
      * intros H x Hx. apply H. right. exact Hx.
    + split; [discriminate |]. intros H.
      destruct (H res ltac:(left)) as [id Hid]. congruence.
Qed.

(** X19. [LoadIndex] returns without error exactly when the parallel driver
    returned none and the ID of every delivered result parses. *)
Theorem LoadIndex_succeeds_iff ParseID (delivered : list indexRes)
    (perr : option error) (c : Checker) :
  (LoadIndex ParseID c delivered perr).2 = None <->
  perr = None /\
  forall res, res ∈ delivered -> exists id, ParseID (res_ID res) = inl id.
Proof.
  rewrite <- (LoadIndex_consume_result ParseID delivered c). unfold LoadIndex.
  destruct (LoadIndex_consume ParseID c delivered) as [c' [e |]]; cbn [snd].
  - split; [discriminate | intros [_ H]; discriminate].
  - tauto.
Qed.

Lemma foldl_add_blob_frame (idx : Index) (c : Checker) :
  indexes (foldl add_blob c idx) = indexes c /\
  orphanedPacks (foldl add_blob c idx) = orphanedPacks c /\
  masterIndex (foldl add_blob c idx) = masterIndex c.
Proof.
  revert c; induction idx as [| e idx IH]; intros c; [auto |].
  cbn [foldl]. destruct (IH (add_blob c e)) as (-> & -> & ->). auto.
Qed.

Lemma LoadIndex_consume_grows ParseID (delivered : list indexRes) (c : Checker) :
  let c' := (LoadIndex_consume ParseID c delivered).1 in
  packs c ⊆ packs c' /\ blobs c ⊆ blobs c' /\
  orphanedPacks c' = orphanedPacks c /\
  (forall b, is_Some (blobRefs c !! b) -> is_Some (blobRefs c' !! b)) /\
  (forall b, b ∉ blob_id <$> all_entries delivered ->
             blobRefs c' !! b = blobRefs c !! b).
Proof.
  revert c; induction delivered as [| res rest IH]; intros c; cbn [LoadIndex_consume].
  - cbn [fst]. auto.
  - destruct (ParseID (res_ID res)) as [id | err]; [| cbn [fst]; auto].
    specialize (IH (process_index c id (res_Index res))).
    cbn zeta in IH |- *. destruct IH as (Hp & Hb & Ho & Hd & Hr).
    unfold process_index in Hp, Hb, Ho, Hd, Hr.
    rewrite foldl_add_blob_packs in Hp. rewrite foldl_add_blob_blobs in Hb.
    destruct (foldl_add_blob_frame (res_Index res) (set_index c id (res_Index res)))
      as (_ & Ho' & _).
    rewrite Ho' in Ho. cbn [packs blobs orphanedPacks set_index] in Hp, Hb, Ho.
    split; [set_solver |]. split; [set_solver |]. split; [exact Ho |]. split.
    + intros b Hb0. apply Hd. rewrite foldl_add_blob_blobRefs.
      destruct (decide (b ∈ blob_id <$> res_Index res)); [eauto | exact Hb0].
    + intros b Hb0. rewrite all_entries_cons, fmap_app, elem_of_app in Hb0.
      rewrite Hr by tauto. rewrite foldl_add_blob_blobRefs.
      rewrite decide_False by tauto. reflexivity.
Qed.

(** X20. Whether it fails or not, [LoadIndex] removes no pack, no blob and no
    key of [blobRefs], leaves [orphanedPacks] alone, and keeps the count of
    every blob that no delivered index names. *)
Theorem LoadIndex_grows ParseID (delivered : list indexRes) (perr : option error)
    (c : Checker) :
  let c' := (LoadIndex ParseID c delivered perr).1 in
  packs c ⊆ packs c' /\ blobs c ⊆ blobs c' /\
  orphanedPacks c' = orphanedPacks c /\
  (forall b, is_Some (blobRefs c !! b) -> is_Some (blobRefs c' !! b)) /\
  (forall b, b ∉ blob_id <$> all_entries delivered ->
             blobRefs c' !! b = blobRefs c !! b).
Proof.
  pose proof (LoadIndex_consume_grows ParseID delivered c) as H. unfold LoadIndex.
  destruct (LoadIndex_consume ParseID c delivered) as [c1 [e |]]; exact H.
Qed.

(** X21. After [LoadIndex_consume] has taken every result, [indexes] holds
    under each ID the index of the last result delivered under that ID, and
    what it held before under the IDs of no result. *)
Theorem LoadIndex_indexes ParseID (delivered : list indexRes) (c c' : Checker) :
  LoadIndex_consume ParseID c delivered = (c', None) ->
  forall id,
    indexes c' !! id
    = match last (delivered_under ParseID id delivered) with
      | Some res => Some (res_Index res)
      | None => indexes c !! id
      end.
Proof.
  revert c; induction delivered as [| res rest IH]; intros c Hrun id;
    cbn [LoadIndex_consume] in Hrun.
  - injection Hrun as <-. reflexivity.
  - destruct (ParseID (res_ID res)) as [id0 | err] eqn:E; [| discriminate].
    rewrite (IH _ Hrun id). unfold delivered_under. rewrite filter_cons.
    fold (delivered_under ParseID id rest). rewrite E.
    destruct (foldl_add_blob_frame (res_Index res) (set_index c id0 (res_Index res)))
      as (Hi & _ & _).
    unfold process_index. rewrite Hi. cbn [indexes set_index].
    destruct (decide (id0 = id)) as [-> | Hne].
    + rewrite decide_True by reflexivity. rewrite last_cons.
      destruct (last (delivered_under ParseID id rest)) as [r |]; [reflexivity |].
      apply lookup_insert_eq.
    + rewrite decide_False by congruence.
      rewrite lookup_insert_ne by exact Hne. reflexivity.
Qed.

Lemma LoadIndex_indexes_witness :
  let c' := (LoadIndex_consume ex_ParseID New
               [ex_resA; ex_resB; {| res_Index := []; res_ID := "a" |}]).1 in
  indexes c' !! 100 = Some [] /\
  indexes c' !! 101 = Some (res_Index ex_resB) /\
  indexes c' !! 7 = None.
Proof.
  pose proof (LoadIndex_indexes ex_ParseID
                [ex_resA; ex_resB; {| res_Index := []; res_ID := "a" |}] New _
                ltac:(reflexivity)) as H.
  cbn zeta. rewrite !H. split; [| split]; reflexivity.
Defined.


(** ** Snapshots *)

Section SnapshotsProps.
Variable IDString : ID -> string.
Variable ParseID : string -> ID + error.
Variable LoadSnapshot : ID -> Snapshot + error.

Lemma snapshotWorker_foldl (ran : list string) (st : snapshotLists) :
  let st' := foldl (fun st strID =>
                      (snapshotWorker IDString ParseID LoadSnapshot strID st).1) st ran in
  trees_IDs st'
  = trees_IDs st ++ omap (snapshot_tree IDString ParseID LoadSnapshot) ran /\
  errs_errs st'
  = errs_errs st ++ omap (snapshot_error IDString ParseID LoadSnapshot) ran.
Proof.
  revert st; induction ran as [| s rest IH]; intros st; cbn [foldl omap list_omap].
  - rewrite !app_nil_r. auto.
  - specialize (IH (snapshotWorker IDString ParseID LoadSnapshot s st).1).
    cbn zeta in IH. destruct IH as [-> ->].
    change (list_omap ?f ?l) with (omap f l).
    unfold snapshotWorker, snapshot_tree, snapshot_error.
    destruct (ParseID s) as [id | err]; cbn [fst]; [| auto].
    destruct (loadTreeFromSnapshot IDString LoadSnapshot id) as [t | err];
      cbn [fst trees_IDs errs_errs]; rewrite <- ?app_assoc; auto.
Qed.

Lemma loadSnapshotTreeIDs_eq (ran : list string) (perr : option error) :
  loadSnapshotTreeIDs IDString ParseID LoadSnapshot ran perr
  = (omap (snapshot_tree IDString ParseID LoadSnapshot) ran,
     omap (snapshot_error IDString ParseID LoadSnapshot) ran ++ option_list perr).
Proof.
  unfold loadSnapshotTreeIDs.
  destruct (snapshotWorker_foldl ran {| trees_IDs := []; errs_errs := [] |}) as [Ht He].
  cbn zeta in Ht, He. cbn [trees_IDs errs_errs app] in Ht, He. rewrite Ht, He.
  destruct perr; cbn [option_list]; [reflexivity | rewrite app_nil_r; reflexivity].
Qed.

(** X23. [loadSnapshotTreeIDs] returns, in the order of the calls, one tree
    for every call whose name parses and whose snapshot loads with a tree, the
    same tree as often as snapshots share it, and one error for every other
    call whose name parses, followed by the error of the driver. A snapshot
    without tree gives the error "snapshot <id> has no tree"; only a name that
    does not parse makes the worker return an error to the driver. *)
Theorem loadSnapshotTreeIDs_exact (ran : list string) (perr : option error) :
  let out := loadSnapshotTreeIDs IDString ParseID LoadSnapshot ran perr in
  out.1 = omap (snapshot_tree IDString ParseID LoadSnapshot) ran /\
  out.2 = omap (snapshot_error IDString ParseID LoadSnapshot) ran ++ option_list perr /\
  (forall t, t ∈ out.1 <->
     exists s id sn, s ∈ ran /\ ParseID s = inl id /\ LoadSnapshot id = inl sn /\
                     sn_Tree sn = Some t) /\
  (forall s id sn, s ∈ ran -> ParseID s = inl id -> LoadSnapshot id = inl sn ->
     sn_Tree sn = None ->
     errorString ("snapshot " ++ IDString id ++ " has no tree") ∈ out.2) /\
  (forall s st err,
     (snapshotWorker IDString ParseID LoadSnapshot s st).2 = Some err <->
     ParseID s = inr err).
Proof.
  cbn zeta. rewrite loadSnapshotTreeIDs_eq. cbn [fst snd].
  split; [reflexivity |]. split; [reflexivity |]. split; [| split].
  - intros t. rewrite list_elem_of_omap. unfold snapshot_tree, loadTreeFromSnapshot.
    split.
    + intros (s & Hs & H). destruct (ParseID s) as [id | e] eqn:E; [| discriminate].
      destruct (LoadSnapshot id) as [sn | e] eqn:El; [| discriminate].
      destruct (sn_Tree sn) as [t' |] eqn:Et; [| discriminate].
      injection H as ->. exists s, id, sn. auto.
    + intros (s & id & sn & Hs & E & El & Et). exists s. split; [exact Hs |].
      rewrite E, El, Et. reflexivity.
  - intros s id sn Hs E El Et.
    assert (Hin : errorString ("snapshot " ++ IDString id ++ " has no tree")
                  ∈ omap (snapshot_error IDString ParseID LoadSnapshot) ran).
    { apply list_elem_of_omap. exists s. split; [exact Hs |].
      unfold snapshot_error, loadTreeFromSnapshot. rewrite E, El, Et. reflexivity. }
    apply elem_of_app. left. exact Hin.
  - intros s st err. unfold snapshotWorker.
    destruct (ParseID s) as [id | e]; cbn [snd].
    + destruct (loadTreeFromSnapshot IDString LoadSnapshot id); cbn [snd];
        split; discriminate.
    + split; congruence.
Qed.

Lemma Structure_errs_open (done : nat -> bool) (errs : list error) :
  forall k, (forall j, (j < length errs)%nat -> done (k + j)%nat = false) ->
            Structure_errs done k errs = (errs, true).
Proof.
  induction errs as [| e rest IH]; intros k H; cbn [Structure_errs]; [reflexivity |].
  rewrite <- (Nat.add_0_r k) at 1. rewrite (H 0%nat) by (simpl; lia).
  rewrite IH; [reflexivity |]. intros j Hj.
  replace (S k + j)%nat with (k + S j)%nat by lia. apply H. simpl. lia.
Qed.

Lemma Structure_errs_closed (done : nat -> bool) (errs : list error) :
  forall k n, (n < length errs)%nat ->
              (forall j, (j < n)%nat -> done (k + j)%nat = false) ->
              done (k + n)%nat = true ->
              Structure_errs done k errs = (take n errs, false).
Proof.
  induction errs as [| e rest IH]; intros k n Hn Hopen Hclosed; [simpl in Hn; lia |].
  cbn [Structure_errs]. destruct n as [| n'].
  - rewrite Nat.add_0_r in Hclosed. rewrite Hclosed. reflexivity.
  - rewrite <- (Nat.add_0_r k) at 1. rewrite (Hopen 0%nat) by lia.
    rewrite (IH (S k) n'); [reflexivity | simpl in Hn; lia | |].
    + intros j Hj. replace (S k + j)%nat with (k + S j)%nat by lia. apply Hopen. lia.
    + replace (S k + n')%nat with (k + S n')%nat by lia. exact Hclosed.
Qed.

(** X24. A snapshot that cannot be loaded does not stop [Structure]: when no
    [select] of the first loop takes its [<-done] case, the errors of the
    snapshots are sent in order and the walk starts on the trees of the other
    snapshots. When the [n]-th [select] is the first to take [<-done],
    [Structure] returns after [n] errors without starting a worker. *)
Theorem Structure_begin_sends (c : Checker) (h : heap) (ran : list string)
    (perr : option error) (done : nat -> bool) :
  let trees := omap (snapshot_tree IDString ParseID LoadSnapshot) ran in
  let errs := omap (snapshot_error IDString ParseID LoadSnapshot) ran
              ++ option_list perr in
  ((forall j, (j < length errs)%nat -> done j = false) ->
   Structure_begin IDString ParseID LoadSnapshot c h ran perr done
   = (errs, Some (Structure_init c h trees))) /\
  (forall n, (n < length errs)%nat -> (forall j, (j < n)%nat -> done j = false) ->
             done n = true ->
             Structure_begin IDString ParseID LoadSnapshot c h ran perr done
             = (take n errs, None)).
Proof.
  cbn zeta. unfold Structure_begin.
  rewrite loadSnapshotTreeIDs_eq. split.
  - intros Hopen. rewrite Structure_errs_open by exact Hopen. reflexivity.
  - intros n Hn Hopen Hclosed.
    rewrite (Structure_errs_closed done _ 0 n Hn Hopen Hclosed). reflexivity.
Qed.
End SnapshotsProps.

(** ** Collect *)

Lemma Collect_foldl (ch acc : list ID) :
  foldl (fun list id => list ++ [id]) acc ch = acc ++ ch.
Proof.
  revert acc; induction ch as [| id rest IH]; intros acc; cbn [foldl].
  - rewrite app_nil_r. reflexivity.
  - rewrite IH, <- app_assoc. reflexivity.
Qed.

(** X25. [Collect] returns the IDs received, all of them and in the order in
    which they were received; collecting two streams one after the other gives
    the two lists one after the other. *)
Theorem Collect_order (ch1 ch2 : list ID) :
  Collect ch1 = ch1 /\
  Collect (ch1 ++ ch2) = Collect ch1 ++ Collect ch2.
Proof.
  assert (H : forall ch, Collect ch = ch) by (intros ch; apply (Collect_foldl ch [])).
  rewrite !H. auto.
Qed.

Lemma loadSnapshotTreeIDs_exact_witness :
  let out := loadSnapshotTreeIDs ex_IDString ex_ParseID ex_LoadSnapshot ex_ran
               (Some (errorString "invalid length for hash")) in
  out.1 = [11; 11] /\
  out.2 = [errorString ("snapshot " ++ ex_IDString 101 ++ " has no tree");
           errorString "invalid length for hash"] /\
  errorString ("snapshot " ++ ex_IDString 101 ++ " has no tree") ∈ out.2.
Proof.
  destruct (loadSnapshotTreeIDs_exact ex_IDString ex_ParseID ex_LoadSnapshot ex_ran
              (Some (errorString "invalid length for hash"))) as (Ht & He & _ & Hn & _).
  cbn zeta in *. split; [rewrite Ht; reflexivity |]. split; [rewrite He; reflexivity |].
  apply (Hn "b"%string 101 {| sn_Tree := None |}); try reflexivity.
  unfold ex_ran. set_solver.
Defined.

Lemma Structure_begin_sends_witness :
  Structure_begin ex_IDString ex_ParseID ex_LoadSnapshot New [] ex_ran
    (Some (errorString "invalid length for hash")) never
  = ([errorString ("snapshot " ++ ex_IDString 101 ++ " has no tree");
      errorString "invalid length for hash"],
     Some (Structure_init New [] [11; 11])) /\
  Structure_begin ex_IDString ex_ParseID ex_LoadSnapshot New [] ex_ran
    (Some (errorString "invalid length for hash")) after_first
  = ([errorString ("snapshot " ++ ex_IDString 101 ++ " has no tree")], None).
Proof.
  destruct (Structure_begin_sends ex_IDString ex_ParseID ex_LoadSnapshot New [] ex_ran
              (Some (errorString "invalid length for hash")) never) as [H1 _].
  destruct (Structure_begin_sends ex_IDString ex_ParseID ex_LoadSnapshot New [] ex_ran
              (Some (errorString "invalid length for hash")) after_first) as [_ H2].
  split.
  - apply H1. intros j _. reflexivity.
  - apply (H2 1%nat).
    + vm_compute. lia.
    + intros j Hj. assert (j = 0%nat) as -> by lia. reflexivity.
    + reflexivity.
Defined.

(** ** The texts of the errors of checkTree *)



(** ** The texts of the errors of Packs *)

(** X27. [Error()] of every error [Packs] sends starts with "pack <id>: ".
    It goes on with "does not exist" for an indexed pack whose probe answers
    absent without error, with the text of the probe's error when the probe
    fails, whatever it answers, and with "not referenced in any index" for a
    listed pack that no index names. *)
Theorem Packs_texts (IDString : ID -> string) (old : string)
    (Test : ID -> bool * option error) (listing order : list ID)
    (done : nat -> bool) (c c' : Checker) (sink : list error) (probed : list ID)
    (h : heap) :
  order ≡ₚ elements (packs c) ->
  Packs Test listing order done c = Some (c', sink, probed) ->
  forall e, e ∈ sink ->
    exists id,
      (id ∈ packs c /\ Test id = (false, None) /\
       error_Error IDString old h e
       = Some ("pack " +:+ IDString id +:+ ": " +:+ "does not exist")) \/
      (id ∈ packs c /\
       exists ok err,
         Test id = (ok, Some err) /\
         error_Error IDString old h e
         = (text ← error_Error IDString old h err;
            Some ("pack " +:+ IDString id +:+ ": " +:+ text))) \/
      (id ∈ listing /\ (id ∉ packs c) /\
       error_Error IDString old h e
       = Some ("pack " +:+ IDString id +:+ ": " +:+ "not referenced in any index")).
Proof.
  intros Hperm Hrun e He.
  apply Packs_unfold in Hrun as (k & errs1 & errs2 & Hw & Ho & _ & ->).
  assert (Hseen : forall x, x ∈ (list_to_set order : gset ID) <-> x ∈ packs c).
  { intros x. rewrite elem_of_list_to_set, Hperm, elem_of_elements. tauto. }
  apply elem_of_app in He as [He | He].
  - destruct (Packs_workers_sound Test done order _ _ _ _ _ Hw e He) as (id & Hid & Hc).
    exists id. assert (Hin : id ∈ packs c).
    { rewrite <- Hseen. apply elem_of_list_to_set, Hid. }
    unfold packIDTester_check in Hc.
    destruct (Test id) as [ok [err |]] eqn:Ht.
    + injection Hc as <-. right. left. split; [exact Hin |].
      exists ok, err. split; reflexivity.
    + destruct ok; [discriminate |]. injection Hc as <-. left.
      split; [exact Hin |]. split; reflexivity.
  - destruct (Packs_orphans_errors_sound done _ _ _ _ _ _ Ho e He)
      as (id & -> & Hl & Hs).
    exists id. right. right. split; [exact Hl |].
    split; [rewrite <- Hseen; exact Hs | reflexivity].
Qed.

Lemma Packs_texts_witness :
  exists c' probed,
    Packs ex_Test ex_listing ex_order never ex_packs_checker
    = Some (c', [PackError 52 false (errorString "connection reset");
                 PackError 51 false (errorString "does not exist");
                 PackError 60 true (errorString "not referenced in any index")],
            probed) /\
    error_Error ex_IDString "index has old format" []
    <$> [PackError 52 false (errorString "connection reset");
         PackError 51 false (errorString "does not exist");
         PackError 60 true (errorString "not referenced in any index")]
    = [Some "pack 52: connection reset"; Some "pack 51: does not exist";
       Some "pack 60: not referenced in any index"] /\
    exists id,
      (id ∈ packs ex_packs_checker /\ ex_Test id = (false, None) /\
       error_Error ex_IDString "index has old format" []
         (PackError 51 false (errorString "does not exist"))
       = Some ("pack " +:+ ex_IDString id +:+ ": " +:+ "does not exist")) \/
      (id ∈ packs ex_packs_checker /\
       exists ok err,
         ex_Test id = (ok, Some err) /\
         error_Error ex_IDString "index has old format" []
           (PackError 51 false (errorString "does not exist"))
         = (text ← error_Error ex_IDString "index has old format" [] err;
            Some ("pack " +:+ ex_IDString id +:+ ": " +:+ text))) \/
      (id ∈ ex_listing /\ (id ∉ packs ex_packs_checker) /\
       error_Error ex_IDString "index has old format" []
         (PackError 51 false (errorString "does not exist"))
       = Some ("pack " +:+ ex_IDString id +:+ ": " +:+ "not referenced in any index")).
Proof.
  eexists _, _. split; [vm_compute; reflexivity |].
  split; [vm_compute; reflexivity |].
  apply (Packs_texts ex_IDString "index has old format" ex_Test ex_listing ex_order
           never ex_packs_checker _ _ _ [] ltac:(reflexivity)
           ltac:(vm_compute; reflexivity)).
  right. left.
Defined.
